(** * TEMPEST: a shallow embedding of the singular-ODE shooting solver

    The numerical core of [tempest.py] (the adaptive Runge-Kutta integrator
    [rk4], the slope evaluator [dfdrval], the critical-point locator
    [outflows], the critical-slope resolver [critSlope], the shooting
    propagator [slope2curve], the density anchoring of [fullRHS] and the
    outer fixed-point loop of [main]) is transcribed function by function,
    and with it the refinement of the grid in [read_bzin], the radii [main]
    builds, the right-hand side of [miranda] and the running integral of
    [waveaction].

    Numbers.  The program computes with binary64 floats under
    [np.seterr(divide='raise', invalid='raise')].  Here a number is an exact
    rational in canonical form ([Qc]); rounding is not modelled, and a
    division by zero raises [FloatingPointError] as numpy does under that
    setting.  Decimal literals of the source (0.1, 0.5, 0.005, ...) are read
    as the exact decimal fractions.

    Where the rounding decides what the program does (the distance [rk4]
    has stepped when its loop ends, the number of its sub-steps, the heights
    recomputed from the radii, a comparison with a NaN), the same lines are
    transcribed a second time over binary64 itself, in the module [B64]. *)

From Stdlib Require Import QArith Qcanon Qcabs Qround ZArith List Bool Lia Lqa.
From Stdlib Require Import Floats.
Import ListNotations.

Set Warnings "-inexact-float".

(** ** Outcomes of a call: a value, a raised exception, or fuel exhausted *)

Inductive exn : Type :=
| FloatingPointError   (* numpy division by zero / invalid operation *)
| UnboundLocalError    (* a local variable read before assignment *)
| IndexError           (* index out of range *)
| ValueError.          (* numpy argument of the wrong shape *)

Inductive res (A : Type) : Type :=
| Ret (a : A)
| Raise (e : exn)
| OutOfFuel.

Arguments Ret {A} a.
Arguments Raise {A} e.
Arguments OutOfFuel {A}.

Definition bind {A B : Type} (c : res A) (k : A -> res B) : res B :=
  match c with
  | Ret a => k a
  | Raise e => Raise e
  | OutOfFuel => OutOfFuel
  end.

Declare Scope res_scope.
Delimit Scope res_scope with res.
Notation "x <- c ;; k" := (bind c (fun x => k))
  (at level 61, c at next level, right associativity) : res_scope.
Notation "' p <- c ;; k" := (bind c (fun p => k))
  (at level 61, p pattern, c at next level, right associativity) : res_scope.
Open Scope res_scope.

Fixpoint mapM {A B : Type} (f : A -> res B) (l : list A) : res (list B) :=
  match l with
  | nil => Ret nil
  | a :: l' => b <- f a ;; bs <- mapM f l' ;; Ret (b :: bs)
  end.

(** ** Numbers *)

Module Num.

Definition ltb (x y : Qc) : bool :=
  match (x ?= y)%Qc with Lt => true | _ => false end.
Definition leb (x y : Qc) : bool :=
  match (x ?= y)%Qc with Gt => false | _ => true end.
Definition gtb (x y : Qc) : bool := ltb y x.
Definition eqb (x y : Qc) : bool :=
  match (x ?= y)%Qc with Eq => true | _ => false end.

(** [np.sign]: the result is -1, 1, or 0. *)
Definition sign (x : Qc) : Qc :=
  match (x ?= 0)%Qc with Lt => Qcopp 1%Qc | Eq => 0%Qc | Gt => 1%Qc end.

(** Division as numpy performs it under [divide='raise', invalid='raise']. *)
Definition div (x y : Qc) : res Qc :=
  if eqb y 0%Qc then Raise FloatingPointError else Ret (x / y)%Qc.

(** Decimal literal [n/d]. *)
Definition dec (n : Z) (d : positive) : Qc := Q2Qc (n # d).

End Num.

Infix "<?" := Num.ltb (at level 70) : Qc_scope.
Infix ">?" := Num.gtb (at level 70) : Qc_scope.
Infix "<=?" := Num.leb (at level 70) : Qc_scope.
Infix "=?" := Num.eqb (at level 70) : Qc_scope.
Infix "/!" := Num.div (at level 40, left associativity) : res_scope.

(** ** [np.interp]

    numpy's one-dimensional piecewise-linear interpolation: the first sample
    value at or left of the first sample point, the last one right of the last
    sample point, and [slope * (x - xp[j]) + fp[j]] inside the interval that
    starts at [xp[j]].  Empty or mismatched arrays are a [ValueError]. *)

Fixpoint interp_from (x x0 f0 : Qc) (xs fs : list Qc) : Qc :=
  match xs, fs with
  | x1 :: xs', f1 :: fs' =>
      if (x <? x1)%Qc
      then (((f1 - f0) / (x1 - x0)) * (x - x0) + f0)%Qc
      else interp_from x x1 f1 xs' fs'
  | _, _ => f0
  end.

Definition interp (x : Qc) (xp fp : list Qc) : res Qc :=
  match xp, fp with
  | x0 :: xs, f0 :: fs =>
      if negb (Nat.eqb (length xs) (length fs)) then Raise ValueError
      else if (x <=? x0)%Qc then Ret f0
      else Ret (interp_from x x0 f0 xs fs)
  | _, _ => Raise ValueError
  end.

(** ** [dfdrval]: the slope evaluator

    The source distinguishes its two modes by a run-time type test on [dfdr]
    (an array, or a pair of arrays [(ucr, rhs)]). *)

Inductive SlopeSource : Type :=
| Plain (dfdr : list Qc)
| CriticalOde (ucr rhs : list Qc).

Definition dfdrval (uval rval : Qc) (rarray : list Qc) (dfdr : SlopeSource)
  : res Qc :=
  match dfdr with
  | CriticalOde ucr rhs =>
      ucrval <- interp rval rarray ucr ;;
      rhsval <- interp rval rarray rhs ;;
      q <- (ucrval ^ 2)%Qc /! uval ;;
      rhsval /! (uval - q)%Qc
  | Plain d => interp rval rarray d
  end.

(** ** [rk4]: the adaptive integrator *)

Definition adaptiveconstant : Qc := Num.dec 1 10.
Definition half : Qc := Num.dec 1 2.

(** The local variables of [rk4] that live across loop iterations.  [ff] is
    only bound once the loop body has run. *)
Record rk4_state : Type := mkRk4 {
  rstep : Qc;
  fstep : Qc;
  stepstotal : Qc;
  stepstaken : nat;
  ff : option Qc
}.

Definition rk4_init (fi ri : Qc) : rk4_state :=
  mkRk4 ri fi 0%Qc 0 None.

(** The step size of one pass through the loop body (lines 292-296). *)
Definition rk4_deltar (dr : Qc) (r : list Qc) (dfdr : SlopeSource)
  (s : rk4_state) : res Qc :=
  let sign := Num.sign dr in
  slope <- dfdrval (fstep s) (rstep s) r dfdr ;;
  dlnf <- slope /! fstep s ;;
  q <- adaptiveconstant /! dlnf ;;
  let deltar := (sign * Qcabs q)%Qc in
  if (Qcabs (stepstotal s) + Qcabs deltar >? Qcabs dr)%Qc
     || Nat.ltb 100 (stepstaken s)
  then Ret (sign * (Qcabs dr - Qcabs (stepstotal s)))%Qc
  else Ret deltar.

(** The four scaled slopes and the new value (lines 298-310), with the
    factor [scale] that multiplies each slope. *)
Definition rk4_advance (scale : Qc) (r : list Qc) (dfdr : SlopeSource)
  (s : rk4_state) (deltar : Qc) : res Qc :=
  let r1 := rstep s in
  let r2 := (r1 + half * deltar)%Qc in
  let r3 := (r1 + deltar)%Qc in
  let y1 := fstep s in
  k1 <- dfdrval y1 r1 r dfdr ;;
  let pk1 := (scale * k1)%Qc in
  let y2 := (fstep s + half * pk1)%Qc in
  k2 <- dfdrval y2 r2 r dfdr ;;
  let pk2 := (scale * k2)%Qc in
  let y3 := (fstep s + half * pk2)%Qc in
  k3 <- dfdrval y3 r2 r dfdr ;;
  let pk3 := (scale * k3)%Qc in
  let y4 := (fstep s + pk3)%Qc in
  k4 <- dfdrval y4 r3 r dfdr ;;
  let pk4 := (scale * k4)%Qc in
  Ret (fstep s + (pk1 + pk4) / Num.dec 6 1 + (pk2 + pk3) / Num.dec 3 1)%Qc.

(** One pass through the loop body.  The source multiplies the slopes by
    [dr], the whole distance of the call: [pk1 = dr*dfdrval(y1,r1,r,dfdr)]. *)
Definition rk4_body (dr : Qc) (r : list Qc) (dfdr : SlopeSource)
  (s : rk4_state) : res rk4_state :=
  deltar <- rk4_deltar dr r dfdr s ;;
  fnew <- rk4_advance dr r dfdr s deltar ;;
  Ret (mkRk4 (rstep s + deltar)%Qc fnew
             (stepstotal s + Qcabs deltar)%Qc
             (S (stepstaken s)) (Some fnew)).

(** [while np.abs(stepstotal) < np.abs(dr): ...] *)
Fixpoint rk4_loop (fuel : nat) (dr : Qc) (r : list Qc) (dfdr : SlopeSource)
  (s : rk4_state) : res rk4_state :=
  if (Qcabs (stepstotal s) <? Qcabs dr)%Qc then
    match fuel with
    | O => OutOfFuel
    | S fuel' => s' <- rk4_body dr r dfdr s ;; rk4_loop fuel' dr r dfdr s'
    end
  else Ret s.

(** Enough fuel for every call in exact arithmetic ([rk4_loop_finishes]
    below); in binary64 a call can take a 103rd sub-step (module [B64]). *)
Definition rk4_fuel : nat := 102.

Definition rk4_run (fi ri dr : Qc) (r : list Qc) (dfdr : SlopeSource)
  : res rk4_state :=
  rk4_loop rk4_fuel dr r dfdr (rk4_init fi ri).

(** [return ff] *)
Definition rk4 (fi ri dr : Qc) (r : list Qc) (dfdr : SlopeSource) : res Qc :=
  s <- rk4_run fi ri dr r dfdr ;;
  match ff s with
  | Some v => Ret v
  | None => Raise UnboundLocalError
  end.

(** *** The integrator as the specification words it

    "each slope scaled by that sub-step's own adaptively chosen step size":
    the same loop, the slopes multiplied by [deltar]. *)

Definition classical_body (dr : Qc) (r : list Qc) (dfdr : SlopeSource)
  (s : rk4_state) : res rk4_state :=
  deltar <- rk4_deltar dr r dfdr s ;;
  fnew <- rk4_advance deltar r dfdr s deltar ;;
  Ret (mkRk4 (rstep s + deltar)%Qc fnew
             (stepstotal s + Qcabs deltar)%Qc
             (S (stepstaken s)) (Some fnew)).

Fixpoint classical_loop (fuel : nat) (dr : Qc) (r : list Qc)
  (dfdr : SlopeSource) (s : rk4_state) : res rk4_state :=
  if (Qcabs (stepstotal s) <? Qcabs dr)%Qc then
    match fuel with
    | O => OutOfFuel
    | S fuel' =>
        s' <- classical_body dr r dfdr s ;; classical_loop fuel' dr r dfdr s'
    end
  else Ret s.

Definition classical_rk4 (fi ri dr : Qc) (r : list Qc) (dfdr : SlopeSource)
  : res Qc :=
  s <- classical_loop rk4_fuel dr r dfdr (rk4_init fi ri) ;;
  match ff s with
  | Some v => Ret v
  | None => Raise UnboundLocalError
  end.

(** The fraction behind a canonical rational, for stating results. *)
Definition show (c : res Qc) : res Q := x <- c ;; Ret (this x).
Definition show_list (c : res (list Qc)) : res (list Q) :=
  l <- c ;; Ret (map this l).

(** ** Arrays with Python indexing

    A negative index counts from the end; an index outside the array raises
    [IndexError]. *)

Definition py_pos {A : Type} (l : list A) (i : Z) : Z :=
  if (i <? 0)%Z then (i + Z.of_nat (length l))%Z else i.

Definition index {A : Type} (l : list A) (i : Z) : res A :=
  let p := py_pos l i in
  if (p <? 0)%Z then Raise IndexError
  else match nth_error l (Z.to_nat p) with
       | Some a => Ret a
       | None => Raise IndexError
       end.

Fixpoint upd {A : Type} (l : list A) (n : nat) (v : A) : list A :=
  match l, n with
  | nil, _ => nil
  | _ :: l', O => v :: l'
  | a :: l', S n' => a :: upd l' n' v
  end.

Definition store {A : Type} (l : list A) (i : Z) (v : A) : res (list A) :=
  let p := py_pos l i in
  if (p <? 0)%Z || (Z.of_nat (length l) <=? p)%Z then Raise IndexError
  else Ret (upd l (Z.to_nat p) v).

(** [range(a, b)] and [range(a, b, -1)]. *)
Definition range_up (a b : Z) : list Z :=
  map (fun k => (a + Z.of_nat k)%Z) (seq 0 (Z.to_nat (b - a))).
Definition range_down (a b : Z) : list Z :=
  map (fun k => (a - Z.of_nat k)%Z) (seq 0 (Z.to_nat (a - b))).

Fixpoint foldM {S X : Type} (f : S -> X -> res S) (l : list X) (s : S)
  : res S :=
  match l with
  | nil => Ret s
  | x :: l' => s' <- f s x ;; foldM f l' s'
  end.

(** ** Console output

    The diagnostics of the source are [print] calls; a computation that may
    print returns its outcome together with the lines it printed, in order. *)

Inductive msg : Type :=
| NoCriticalPoint (j : Z)      (* 'CAUTION: No critical point for model', j *)
| IndexCritSentinel            (* 'indexCrit set to -1 for failed models' *)
| InvalidSqrt                  (* 'invalid value encountered in sqrt, set to 0' *)
| RangeOfSlopes (lo hi : Qc)   (* 'range of slopes:', min(dUdrc), max(dUdrc) *)
| NegativeDown (i : Z)         (* 'Negative value encountered (down), i=', i *)
| NegativeUp (i : Z).          (* 'Negative value encountered (up), i=', i *)

Definition io (A : Type) : Type := (res A * list msg)%type.

Definition io_ret {A : Type} (a : A) : io A := (Ret a, nil).
Definition lift {A : Type} (c : res A) : io A := (c, nil).
Definition print (m : msg) : io unit := (Ret tt, m :: nil).

Definition io_bind {A B : Type} (c : io A) (k : A -> io B) : io B :=
  match c with
  | (Ret a, out) => let (b, out') := k a in (b, out ++ out')
  | (Raise e, out) => (Raise e, out)
  | (OutOfFuel, out) => (OutOfFuel, out)
  end.

Notation "x <~ c ;; k" := (io_bind c (fun x => k))
  (at level 61, c at next level, right associativity) : res_scope.
Notation "' p <~ c ;; k" := (io_bind c (fun p => k))
  (at level 61, p pattern, c at next level, right associativity) : res_scope.

Fixpoint io_foldM {S X : Type} (f : S -> X -> io S) (l : list X) (s : S)
  : io S :=
  match l with
  | nil => io_ret s
  | x :: l' => s' <~ f s x ;; io_foldM f l' s'
  end.

Fixpoint io_mapM {A B : Type} (f : A -> io B) (l : list A) : io (list B) :=
  match l with
  | nil => io_ret nil
  | a :: l' => b <~ f a ;; bs <~ io_mapM f l' ;; io_ret (b :: bs)
  end.

(** ** [quickDeriv]

    One row of the derivative array: one-sided slopes at the two ends,
    centered differences in between.  The three groups are computed in the
    order of the source, so that the first failing division decides the
    exception. *)

Definition slope_between (f r : list Qc) (hi lo : Z) : res Qc :=
  fhi <- index f hi ;; flo <- index f lo ;;
  rhi <- index r hi ;; rlo <- index r lo ;;
  (fhi - flo)%Qc /! (rhi - rlo)%Qc.

Definition quickDeriv_row (f r : list Qc) (steps : Z) : res (list Qc) :=
  if (steps <? 0)%Z then Raise ValueError else
  d0 <- slope_between f r 1 0 ;;
  if (steps =? 0)%Z then Raise IndexError else
  mids <- mapM (fun k => slope_between f r (k + 1) (k - 1))
               (range_up 1 (steps - 1)) ;;
  dl <- slope_between f r (steps - 1) (steps - 2) ;;
  if (steps =? 1)%Z then Ret (dl :: nil) else Ret (d0 :: mids ++ dl :: nil).

Definition quickDeriv (f : list (list Qc)) (r : list Qc) (fsets steps : Z)
  : res (list (list Qc)) :=
  if (fsets <? 0)%Z || (steps <? 0)%Z then Raise ValueError else
  mapM (fun j => fj <- index f j ;; quickDeriv_row fj r steps)
       (range_up 0 fsets).

(** ** [slope2curve]: the shooting propagator *)

(** One pass of the inward loop, [for i in range(iC-1,0,-1)]. *)
Definition shoot_down (r ucrj rhsj : list Qc) (u : list Qc) (i : Z)
  : io (list Qc) :=
  v <~ lift (rlo <- index r (i - 1) ;; ri <- index r i ;;
             let dr := (rlo - ri)%Qc in
             ui <- index u i ;;
             rk4 ui ri dr r (CriticalOde ucrj rhsj)) ;;
  u1 <~ lift (store u (i - 1) v) ;;
  if (v <? 0)%Qc then
    u2 <~ lift (ui <- index u1 i ;; store u1 (i - 1) ui) ;;
    _ <~ print (NegativeDown i) ;;
    io_ret u2
  else io_ret u1.

(** One pass of the outward loop, [for i in range(iC+2,npoints-1)]. *)
Definition shoot_up (r ucrj rhsj : list Qc) (u : list Qc) (i : Z)
  : io (list Qc) :=
  v <~ lift (rhi <- index r (i + 1) ;; ri <- index r i ;;
             let dr := (rhi - ri)%Qc in
             ui <- index u i ;;
             rk4 ui ri dr r (CriticalOde ucrj rhsj)) ;;
  u1 <~ lift (store u (i + 1) v) ;;
  if (v <? 0)%Qc then
    u2 <~ lift (ui <- index u1 i ;; store u1 (i + 1) ui) ;;
    _ <~ print (NegativeUp i) ;;
    io_ret u2
  else io_ret u1.

(** The four seeds next to the critical bracket (lines 838-842). *)
Definition seed (r : list Qc) (iC : Z) (rpt upt : Qc) (dUdrpt : Qc * Qc)
  : res (list Qc) :=
  let u := repeat 0%Qc (length r) in
  r0 <- index r iC ;;
  u <- store u iC (upt + (r0 - rpt) * fst dUdrpt)%Qc ;;
  r1 <- index r (iC + 1) ;;
  u <- store u (iC + 1) (upt + (r1 - rpt) * snd dUdrpt)%Qc ;;
  u0 <- index u iC ;; rm <- index r (iC - 1) ;; r0 <- index r iC ;;
  u <- store u (iC - 1) (u0 + (rm - r0) * fst dUdrpt)%Qc ;;
  u1 <- index u (iC + 1) ;; rp <- index r (iC + 2) ;; r1 <- index r (iC + 1) ;;
  store u (iC + 2) (u1 + (rp - r1) * snd dUdrpt)%Qc.

Definition slope2curve (r : list Qc) (iC : Z) (rpt upt : Qc)
  (dUdrpt : Qc * Qc) (ucrj rhsj : list Qc) : io (list Qc) :=
  let npoints := Z.of_nat (length r) in
  u <~ lift (seed r iC rpt upt dUdrpt) ;;
  u <~ io_foldM (shoot_down r ucrj rhsj) (range_down (iC - 1) 0) u ;;
  io_foldM (shoot_up r ucrj rhsj) (range_up (iC + 2) (npoints - 1)) u.

Section Solver.

(** [np.sqrt], a function of the numerical library. *)
Variable sqrt : Qc -> Qc.

(** ** [critSlope]: the critical-slope resolver *)

(** The body of the loop over models for a model whose index is not the
    sentinel (lines 805-812). *)
Definition critSlope_model (r ucrj dNdrj duCdrj : list Qc) (ic : Z)
  : io (Qc * Qc * Qc) :=
  uC <~ lift (index ucrj ic) ;;
  rC <~ lift (index r ic) ;;
  dNdrC <~ lift (index dNdrj ic) ;;
  duC <~ lift (index duCdrj ic) ;;
  let radicand := (duC ^ 2 + Num.dec 2 1 * dNdrC)%Qc in
  radicand <~ (if (radicand <=? 0)%Qc
               then _ <~ print InvalidSqrt ;; io_ret 0%Qc
               else io_ret radicand) ;;
  io_ret (rC, uC, (half * (duC + sqrt radicand))%Qc).

Fixpoint list_min (x : Qc) (l : list Qc) : Qc :=
  match l with
  | nil => x
  | y :: l' => list_min (if (y <? x)%Qc then y else x) l'
  end.
Fixpoint list_max (x : Qc) (l : list Qc) : Qc :=
  match l with
  | nil => x
  | y :: l' => list_max (if (x <? y)%Qc then y else x) l'
  end.

(** Returns, per model, the triple [(rC, uC, dUdrc)]; a model whose index
    is the sentinel keeps the zeros the three arrays were created with. *)
Definition critSlope (r : list Qc) (models steps : Z)
  (rhs ucr : list (list Qc)) (indexcrit : list Z)
  : io (list (Qc * Qc * Qc)) :=
  dNdr <~ lift (quickDeriv rhs r models steps) ;;
  duCdr <~ lift (quickDeriv ucr r models steps) ;;
  out <~ io_mapM (fun j =>
            ic <~ lift (index indexcrit j) ;;
            if (ic =? -1)%Z then io_ret (0%Qc, 0%Qc, 0%Qc) else
            ucrj <~ lift (index ucr j) ;;
            dNdrj <~ lift (index dNdr j) ;;
            duCdrj <~ lift (index duCdr j) ;;
            critSlope_model r ucrj dNdrj duCdrj ic)
         (range_up 0 models) ;;
  _ <~ (if (1 <? models)%Z then
          match map snd out with
          | d :: ds => print (RangeOfSlopes (list_min d ds) (list_max d ds))
          | nil => io_ret tt
          end
        else io_ret tt) ;;
  io_ret out.

(** ** [outflows]: the critical-point locator and driver of the shooting *)

Definition zeros (n : Z) : list Qc := repeat 0%Qc (Z.to_nat n).

(** The running integral of one model (lines 728-735). *)
Definition F_step (r : list Qc) (rhs : list (list Qc)) (j : Z)
  (st : list Qc * Qc) (k : Z) : res (list Qc * Qc) :=
  let '(Fj, fnow) := st in
  rstart <- index r k ;;
  rnext <- index r (k + 1) ;; rk <- index r k ;;
  let dr := (rnext - rk)%Qc in
  let fstart := fnow in
  rhsj <- index rhs j ;;
  v <- rk4 fstart rstart dr r (Plain rhsj) ;;
  Fj' <- store Fj (k + 1) v ;;
  Ret (Fj', v).

Definition F_row (r : list Qc) (nsteps : Z) (rhs : list (list Qc)) (j : Z)
  : res (list Qc) :=
  Fj <- store (zeros nsteps) 0 1%Qc ;;
  st <- foldM (F_step r rhs j) (range_up 0 (nsteps - 1)) (Fj, 1%Qc) ;;
  Ret (fst st).

(** The 4-point sign-change test at index [k] (lines 739-740). *)
Definition sign_change (rhsj : list Qc) (k : Z) : res bool :=
  a <- index rhsj k ;; b <- index rhsj (k + 1) ;;
  if negb (Num.sign a =? Num.sign b)%Qc then
    c <- index rhsj (k - 1) ;; d <- index rhsj (k + 2) ;;
    Ret (negb (Num.sign c =? Num.sign d)%Qc)
  else Ret false.

(** [for k in range(1,nsteps-2): if ...: rootflag[k] = 1] *)
Definition flag_roots (nsteps : Z) (rhs : list (list Qc)) (j : Z)
  (rootflag : list bool) : res (list bool) :=
  foldM (fun fl k =>
           rhsj <- index rhs j ;;
           t <- sign_change rhsj k ;;
           if t then store fl k true else Ret fl)
        (range_up 1 (nsteps - 2)) rootflag.

(** [np.where(rootflag > 0)[0]] *)
Fixpoint where_from (k : Z) (fl : list bool) : list Z :=
  match fl with
  | nil => nil
  | b :: fl' => if b then k :: where_from (k + 1) fl'
                else where_from (k + 1) fl'
  end.
Definition where_true (fl : list bool) : list Z := where_from 0 fl.

(** [argmin]: the position of the first occurrence of the minimum. *)
Fixpoint argmin_from (best : Z) (bestv : Qc) (k : Z) (l : list Qc) : Z :=
  match l with
  | nil => best
  | v :: l' => if (v <? bestv)%Qc then argmin_from k v (k + 1) l'
               else argmin_from best bestv (k + 1) l'
  end.
Definition argmin (l : list Qc) : res Z :=
  match l with
  | nil => Raise ValueError
  | v :: l' => Ret (argmin_from 0 v 1 l')
  end.

(** The variables of [outflows] that live across the loop over models
    (lines 722-724). *)
Record locator : Type := mkLocator {
  rootflag : list bool;
  badflag : bool;
  icrit : list Z
}.

(** The body of the loop over models, lines 738-750. *)
Definition locate_model (nsteps : Z) (rhs F : list (list Qc))
  (st : locator) (j : Z) : io locator :=
  fl <~ lift (flag_roots nsteps rhs j (rootflag st)) ;;
  let roots := where_true fl in
  if Nat.eqb (length roots) 0 then
    ic <~ lift (store (icrit st) j (-1)%Z) ;;
    _ <~ print (NoCriticalPoint j) ;;
    io_ret (mkLocator fl true ic)
  else
    ic <~ lift (Fj <- index F j ;;
                 extrema <- mapM (index Fj) roots ;;
                 xpt <- argmin extrema ;;
                 k <- index roots xpt ;;
                 store (icrit st) j k) ;;
    io_ret (mkLocator fl (badflag st) ic).

(** Lines 719-752: the running integrals, then the critical index of each
    model. *)
Definition locate (r : list Qc) (nmods nsteps : Z) (rhs : list (list Qc))
  : io (list Z) :=
  if (nsteps <? 0)%Z || (nmods <? 0)%Z then lift (Raise ValueError) else
  let rootflag0 := repeat false (Z.to_nat nsteps) in
  let icrit0 := repeat 0%Z (Z.to_nat nmods) in
  F <~ lift (mapM (F_row r nsteps rhs) (range_up 0 nmods)) ;;
  st <~ io_foldM (locate_model nsteps rhs F) (range_up 0 nmods)
                 (mkLocator rootflag0 false icrit0) ;;
  _ <~ (if badflag st then print IndexCritSentinel else io_ret tt) ;;
  io_ret (icrit st).

(** The body of the last loop over models, lines 763-770: the velocity
    profile and the reported critical location of model [j]. *)
Definition outflow_model (r : list Qc) (nsteps : Z)
  (rhs ucr : list (list Qc)) (icrit : list Z)
  (plus minus : list (Qc * Qc * Qc)) (j : Z) : io (list Qc * Qc) :=
  '(rCminus, uCminus, dUdrcminus) <~ lift (index minus j) ;;
  '(rCplus, uCplus, dUdrcplus) <~ lift (index plus j) ;;
  let rC := ((rCminus + rCplus) / Num.dec 2 1)%Qc in
  let uC := ((uCminus + uCplus) / Num.dec 2 1)%Qc in
  let dUdrc := (dUdrcminus, dUdrcplus) in
  ic <~ lift (index icrit j) ;;
  if (ic =? -1)%Z then io_ret (zeros nsteps, 0%Qc) else
  ucrj <~ lift (index ucr j) ;;
  rhsj <~ lift (index rhs j) ;;
  uj <~ slope2curve r ic rC uC dUdrc ucrj rhsj ;;
  if negb (Z.of_nat (length uj) =? nsteps)%Z then lift (Raise ValueError)
  else io_ret (uj, (rC - 1)%Qc).

(** Returns, per model, the pair of its row of [u] and its [locCrit]. *)
Definition outflows (r : list Qc) (nmods nsteps : Z)
  (rhs ucr : list (list Qc)) : io (list (list Qc * Qc)) :=
  icrit <~ locate r nmods nsteps rhs ;;
  plus <~ critSlope r nmods nsteps rhs ucr (map (Z.add 1) icrit) ;;
  minus <~ critSlope r nmods nsteps rhs ucr icrit ;;
  io_mapM (outflow_model r nsteps rhs ucr icrit plus minus)
          (range_up 0 nmods).

End Solver.

(** ** [fullRHS]: density from mass-flux conservation (lines 577-604) *)

Fixpoint zipM {A B C : Type} (f : A -> B -> res C) (l : list A) (m : list B)
  : res (list C) :=
  match l, m with
  | nil, nil => Ret nil
  | a :: l', b :: m' => c <- f a b ;; cs <- zipM f l' m' ;; Ret (c :: cs)
  | _, _ => Raise ValueError   (* operands could not be broadcast together *)
  end.

Definition Rsun : Qc := Num.dec 69550000000 1.   (* 6.955e10 cm *)
Definition TTR : Qc := Num.dec 12000 1.           (* 1.2e4 K *)

Section FullRHS.

(** [np.log10] and [10**x], functions of the numerical library; the
    logarithm of a value that is not positive raises. *)
Variable log10 : Qc -> res Qc.
Variable pow10 : Qc -> Qc.

Definition heights (r : list Qc) : list Qc :=
  map (fun x => (x / Rsun - 1)%Qc) r.

(** The anchor of model [j]: the index nearest the transition region and
    the density put there (lines 597-602). *)
Definition anchor (r : list Qc) (steps : Z) (T : list (list Qc))
  (zTR : list Qc) (j : Z) : res (Z * list Qc) :=
  let zx := heights r in
  Tj <- index T j ;;
  let chromosphere :=
    where_true (map (fun t => (t <? Num.dec 11 10 * TTR)%Qc) Tj) in
  _ <- index chromosphere (Z.of_nat (length chromosphere) - 1) ;;
  zTRj <- index zTR j ;;
  l <- log10 zTRj ;;
  let rhoTRexp := (Num.dec (-21904) 1000 - Num.dec 3349 1000 * l)%Qc in
  zTRj' <- index zTR j ;;
  let TRcheck := map (fun z => Qcabs (z - zTRj')) zx in
  iTR <- argmin TRcheck ;;
  rhoj <- store (zeros steps) iTR (pow10 rhoTRexp) ;;
  Ret (iTR, rhoj).

(** The body of the loop over models, lines 597-604: the density row. *)
Definition density_model (r : list Qc) (steps : Z) (B T : list (list Qc))
  (zTR : list Qc) (u : list (list Qc)) (j : Z) : res (list Qc) :=
  '(iTR, rhoj) <- anchor r steps T zTR j ;;
  rhoTR <- index rhoj iTR ;;
  uj <- index u j ;; uTR <- index uj iTR ;;
  Bj <- index B j ;; BTR <- index Bj iTR ;;
  flux <- (rhoTR * uTR)%Qc /! BTR ;;
  Bj' <- index B j ;; uj' <- index u j ;;
  ratio <- zipM Num.div Bj' uj' ;;
  if negb (Z.of_nat (length ratio) =? steps)%Z then Raise ValueError
  else Ret (map (fun q => (flux * q)%Qc) ratio).

Definition density (r : list Qc) (models steps : Z) (B T : list (list Qc))
  (zTR : list Qc) (u : list (list Qc)) : res (list (list Qc)) :=
  mapM (density_model r steps B T zTR u) (range_up 0 models).

End FullRHS.

(** ** [main]: the outer fixed-point loop of one model (lines 66-81) *)

Definition itexp : Qc := Num.dec 1 10.
Definition threshold : Qc := Num.dec 5 1000.

Fixpoint sum (l : list Qc) : Qc :=
  match l with
  | nil => 0%Qc
  | x :: l' => (x + sum l')%Qc
  end.

(** [np.mean] *)
Definition mean (l : list Qc) : res Qc :=
  sum l /! Q2Qc (Z.of_nat (length l) # 1).

Record iterate : Type := mkIterate {
  uinj : list Qc;        (* uinj[0,:], the current velocity guess *)
  changemodel : Qc;      (* changemodels[j] *)
  it : nat
}.

Section Main.

(** The single-model solve of the loop body,
    [prospero(rm,1,nsteps,Bj,dBdrj,Tj,dTdrj,zTR[j],uinj)], as a function of
    the current guess (the other arguments are fixed during the loop), and
    the float power [x ** y]. *)
Variable prospero_single : list Qc -> io (list Qc).
Variable power : Qc -> Qc -> res Qc.

(** Lines 74-79. *)
Definition iterate_body (s : iterate) : io iterate :=
  uj <~ prospero_single (uinj s) ;;
  allchange <~ lift (zipM (fun a b => q <- (a - b)%Qc /! b ;; Ret (Qcabs q))
                          uj (uinj s)) ;;
  unew <~ lift (zipM (fun b a => p <- power b (1 - itexp)%Qc ;;
                                 q <- power a itexp ;;
                                 Ret (p * q)%Qc)
                     (uinj s) uj) ;;
  change <~ lift (mean allchange) ;;
  io_ret (mkIterate unew change (S (it s))).

(** [((changemodels[j] > 0.005) and (it<300)) or (it<10)] *)
Definition continue (s : iterate) : bool :=
  ((changemodel s >? threshold)%Qc && Nat.ltb (it s) 300)
  || Nat.ltb (it s) 10.

Fixpoint iterate_loop (fuel : nat) (s : iterate) : io iterate :=
  if continue s then
    match fuel with
    | O => lift OutOfFuel
    | S fuel' => s' <~ iterate_body s ;; iterate_loop fuel' s'
    end
  else io_ret s.

(** The state after [n] passes through the loop body, unconditionally. *)
Fixpoint iterate_n (n : nat) (s : iterate) : io iterate :=
  match n with
  | O => io_ret s
  | S n' => s' <~ iterate_body s ;; iterate_n n' s'
  end.

(** One model of the loop over [j]: [it = 0], [changemodels[j]] is still
    the 1 it was created with, and [uout[j,:]] receives the last guess. *)
Definition converge_model (u1j : list Qc) : io (list Qc * nat * Qc) :=
  s <~ iterate_loop 300 (mkIterate u1j 1%Qc 0) ;;
  io_ret (uinj s, it s, changemodel s).

End Main.

(** *** The running integral as the specification words it

    "integrating the formal equation dF/dr = F*RHS": the slope at the value
    [F] and the radius [x] is [F] times the interpolated right-hand side.
    One classical fourth-order step per grid interval. *)

Definition formal_slope (r rhsj : list Qc) (F x : Qc) : res Qc :=
  v <- interp x r rhsj ;; Ret (F * v)%Qc.

Definition formal_interval (r rhsj : list Qc) (F0 r0 dr : Qc) : res Qc :=
  k1 <- formal_slope r rhsj F0 r0 ;;
  k2 <- formal_slope r rhsj (F0 + half * (dr * k1))%Qc (r0 + half * dr)%Qc ;;
  k3 <- formal_slope r rhsj (F0 + half * (dr * k2))%Qc (r0 + half * dr)%Qc ;;
  k4 <- formal_slope r rhsj (F0 + dr * k3)%Qc (r0 + dr)%Qc ;;
  Ret (F0 + (dr * k1 + dr * k4) / Num.dec 6 1
          + (dr * k2 + dr * k3) / Num.dec 3 1)%Qc.

Definition formal_F_step (r rhsj : list Qc) (st : list Qc * Qc) (k : Z)
  : res (list Qc * Qc) :=
  let '(Fj, fnow) := st in
  rk <- index r k ;; rnext <- index r (k + 1) ;;
  v <- formal_interval r rhsj fnow rk (rnext - rk)%Qc ;;
  Fj' <- store Fj (k + 1) v ;;
  Ret (Fj', v).

Definition formal_F_row (r : list Qc) (nsteps : Z) (rhsj : list Qc)
  : res (list Qc) :=
  Fj <- store (zeros nsteps) 0 1%Qc ;;
  st <- foldM (formal_F_step r rhsj) (range_up 0 (nsteps - 1)) (Fj, 1%Qc) ;;
  Ret (fst st).

(** ** [waveaction]: the running integral of the damping rate (lines 691-695) *)

Definition intRS_step (r RSj : list Qc) (intRS : list Qc) (i : Z)
  : res (list Qc) :=
  rnext <- index r (i + 1) ;; ri <- index r i ;;
  let dr := (rnext - ri)%Qc in
  fi <- index intRS i ;; ri' <- index r i ;;
  v <- rk4 fi ri' dr r (Plain RSj) ;;
  store intRS (i + 1) v.

Definition intRS_row (r : list Qc) (steps : Z) (RSj : list Qc)
  : res (list Qc) :=
  a <- index RSj 1 ;; b <- index RSj 0 ;;
  r1 <- index r 1 ;; r0 <- index r 0 ;;
  intRS <- store (zeros steps) 0
             ((a + b) / Num.dec 2 1 * (r1 - r0))%Qc ;;
  foldM (intRS_step r RSj) (range_up 0 (steps - 1)) intRS.

(** ** [read_bzin]: the refinement of the height grid (lines 216-233)

    The part of [read_bzin] that follows the reading of the file: [ozx] and
    [oB] are the heights and the field rows as they were read, [nmods] and
    [nsteps] the two numbers of the first line. *)

(** One pass of an inner loop: [zx[flag] = ozx[i] + delz*l] with
    [delz = (ozx[hi] - ozx[lo]) / float(multiple)], then [flag += 1]. *)
Definition refine_point (ozx : list Qc) (multiple hi lo i : Z)
  (st : list Qc * Z) (l : Z) : res (list Qc * Z) :=
  let '(zx, flag) := st in
  a <- index ozx hi ;; b <- index ozx lo ;;
  delz <- (a - b)%Qc /! Q2Qc (multiple # 1) ;;
  c <- index ozx i ;;
  zx' <- store zx flag (c + delz * Q2Qc (l # 1))%Qc ;;
  Ret (zx', (flag + 1)%Z).

(** Lines 217-227: [multiple] heights per interval of the grid, and
    [multiple] more from the last height on, with the step of the last
    interval. *)
Definition refine_heights (ozx : list Qc) (nsteps multiple : Z)
  : res (list Qc) :=
  if (nsteps * multiple <? 0)%Z then Raise ValueError else
  st <- foldM (fun st i =>
                 foldM (refine_point ozx multiple (i + 1) i i)
                       (range_up 0 multiple) st)
              (range_up 0 (nsteps - 1)) (zeros (nsteps * multiple), 0%Z) ;;
  st <- foldM (refine_point ozx multiple (nsteps - 1) (nsteps - 2)
                 (nsteps - 1))
              (range_up 0 multiple) st ;;
  Ret (fst st).

(** Lines 217-233; returns [nmods, nsteps, B, zx]. *)
Definition read_bzin (ozx : list Qc) (oB : list (list Qc))
  (nmods nsteps multiple : Z) : res (Z * Z * list (list Qc) * list Qc) :=
  zx <- refine_heights ozx nsteps multiple ;;
  let nsteps' := Z.of_nat (length zx) in
  if (nmods <? 0)%Z then Raise ValueError else
  B <- mapM (fun j =>
               mapM (fun k => zk <- index zx k ;; oBj <- index oB j ;;
                              interp zk ozx oBj)
                    (range_up 0 nsteps'))
            (range_up 0 nmods) ;;
  Ret (nmods, nsteps', B, zx).

(** ** [main]: the radii handed to the solver (lines 41-45)

    Returns the heights, the first one replaced by [10**-10] when it is 0,
    and the radii [rm = (zx + 1.0)*Rsun]. *)
Definition main_grid (zx : list Qc) : res (list Qc * list Qc) :=
  z0 <- index zx 0 ;;
  zx <- (if (z0 =? 0)%Qc then store zx 0 (Num.dec 1 10000000000)
         else Ret zx) ;;
  let rx := map (fun z => (z + 1)%Qc) zx in
  Ret (zx, map (fun x => (x * Rsun)%Qc) rx).

(** ** [miranda]: the right-hand side without the wave terms (lines 141-156) *)

Definition G : Qc := Num.dec 667 10000000000.                      (* 6.67e-8 *)
Definition Msun : Qc := Num.dec 1988000000000000000000000000000000 1. (* 1.988e33 *)
Definition boltzk : Qc := Num.dec 1381 10000000000000000000.       (* 1.381e-16 *)
Definition mH : Qc := Num.dec 1674 1000000000000000000000000000.   (* 1.674e-24 *)

Section Miranda.

Variable sqrt : Qc -> Qc.

(** [np.sqrt] under [invalid='raise']. *)
Definition np_sqrt (x : Qc) : res Qc :=
  if (x <? 0)%Qc then Raise FloatingPointError else Ret (sqrt x).

(** The body of the inner loop, lines 146-154.  The variable [xion] lives
    across the passes: it is assigned by two separate tests, and read
    afterwards. *)
Definition miranda_point (rm : list Qc) (B dBdr T dTdr : list (list Qc))
  (zTR : list Qc) (j : Z) (st : option Qc * list Qc * list Qc) (k : Z)
  : res (option Qc * list Qc * list Qc) :=
  let '(xion, ucrj, rhsj) := st in
  rk <- index rm k ;; zTRj <- index zTR j ;;
  let xion := if (rk / Rsun <? zTRj + 1)%Qc then Some 0%Qc else xion in
  rk <- index rm k ;; zTRj <- index zTR j ;;
  let xion := if (zTRj + 1 <=? rk / Rsun)%Qc then Some 1%Qc else xion in
  match xion with
  | None => Raise UnboundLocalError
  | Some x =>
      Tj <- index T j ;; Tjk <- index Tj k ;;
      c <- np_sqrt ((1 + x) * boltzk * Tjk / mH)%Qc ;;
      ucrj <- store ucrj k c ;;
      rk <- index rm k ;;
      gravterm <- (- G * Msun)%Qc /! (rk ^ 2)%Qc ;;
      c1 <- index ucrj k ;;
      dBdrj <- index dBdr j ;; dBjk <- index dBdrj k ;;
      Bj <- index B j ;; Bjk <- index Bj k ;;
      qB <- dBjk /! Bjk ;;
      let magterm := (- c1 ^ 2 * qB)%Qc in
      c2 <- index ucrj k ;;
      dTdrj <- index dTdr j ;; dTjk <- index dTdrj k ;;
      Tj' <- index T j ;; Tjk' <- index Tj' k ;;
      qT <- dTjk /! Tjk' ;;
      let tempterm := (- c2 ^ 2 * qT)%Qc in
      rhsj <- store rhsj k (gravterm + magterm + tempterm)%Qc ;;
      Ret (Some x, ucrj, rhsj)
  end.

(** Lines 142-154: the arrays [ucr] and [rhs]. *)
Definition miranda_rhs (rm : list Qc) (nmods nsteps : Z)
  (B dBdr T dTdr : list (list Qc)) (zTR : list Qc)
  : res (list (list Qc) * list (list Qc)) :=
  if (nmods <? 0)%Z || (nsteps <? 0)%Z then Raise ValueError else
  st <- foldM (fun (st : option Qc * list (list Qc) * list (list Qc)) j =>
                 let '(xion, ucr, rhs) := st in
                 row <- foldM (miranda_point rm B dBdr T dTdr zTR j)
                              (range_up 0 nsteps)
                              (xion, zeros nsteps, zeros nsteps) ;;
                 let '(xion', ucrj, rhsj) := row in
                 Ret (xion', ucr ++ [ucrj], rhs ++ [rhsj]))
              (range_up 0 nmods) (None, nil, nil) ;;
  let '(_, ucr, rhs) := st in
  Ret (ucr, rhs).

(** Returns, per model, the pair of its row of [u] and its [zcrit]. *)
Definition miranda (rm : list Qc) (nmods nsteps : Z)
  (B dBdr T dTdr : list (list Qc)) (zTR : list Qc)
  : io (list (list Qc * Qc)) :=
  '(ucr, rhs) <~ lift (miranda_rhs rm nmods nsteps B dBdr T dTdr zTR) ;;
  outflows sqrt rm nmods nsteps rhs ucr.

End Miranda.

(** ** The grid invariant: strictly increasing radii *)

Fixpoint increasing_from (x : Qc) (l : list Qc) : bool :=
  match l with
  | nil => true
  | y :: l' => (x <? y)%Qc && increasing_from y l'
  end.

Definition increasing (l : list Qc) : bool :=
  match l with
  | nil => true
  | x :: l' => increasing_from x l'
  end.

(** ** Binary64: the integrator in the arithmetic of the program

    The lines of [rk4], of [np.interp] and of the two places where [main]
    and [fullRHS] convert between heights and radii, over IEEE 754 binary64
    with rounding to nearest even (the primitive floats of the kernel).

    Under [np.seterr(divide='raise', invalid='raise')] an operation on numpy
    scalars raises [FloatingPointError] when it divides a finite number by
    zero, or makes a NaN of two operands that are numbers; an overflow to
    infinity does not raise, and neither do comparisons, [np.abs] and
    [np.sign].  [np.interp] computes in C, out of the reach of [np.seterr]. *)

Module B64.
Local Open Scope float_scope.

Definition checked (x y z : float) : res float :=
  if is_nan z && negb (is_nan x) && negb (is_nan y)
  then Raise FloatingPointError else Ret z.

Definition add (x y : float) : res float := checked x y (x + y).
Definition sub (x y : float) : res float := checked x y (x - y).
Definition mul (x y : float) : res float := checked x y (x * y).
Definition div (x y : float) : res float :=
  if is_zero y && is_finite x then Raise FloatingPointError
  else checked x y (x / y).

(** Arithmetic expressions of the source: the operands are evaluated from
    left to right, and the first operation that raises ends the expression. *)
Definition val (x : float) : res float := Ret x.
#[local] Coercion val : float >-> res.

Definition lift2 (op : float -> float -> res float) (a b : res float)
  : res float :=
  x <- a ;; y <- b ;; op x y.

Declare Scope b64_scope.
Delimit Scope b64_scope with b64.
Notation "a + b" := (lift2 add a b) : b64_scope.
Notation "a - b" := (lift2 sub a b) : b64_scope.
Notation "a * b" := (lift2 mul a b) : b64_scope.
Notation "a / b" := (lift2 div a b) : b64_scope.

(** [np.sign]: -1, 1 or 0, and NaN for a NaN. *)
Definition sign (x : float) : float :=
  if 0 <? x then 1 else if x <? 0 then -1 else if x =? 0 then 0 else x.

(** [np.interp] on an increasing grid: a NaN for a NaN, the sample value at
    a sample point, [slope*(x - xp[j]) + fp[j]] inside an interval, and, when
    that is a NaN, the same from the right end of the interval. *)
Fixpoint interp_from (x x0 f0 : float) (xs fs : list float) : float :=
  match xs, fs with
  | x1 :: xs', f1 :: fs' =>
      if x <? x1 then
        if x0 =? x then f0 else
        let slope := (f1 - f0) / (x1 - x0) in
        let v := slope * (x - x0) + f0 in
        if is_nan v then
          let w := slope * (x - x1) + f1 in
          if is_nan w && (f0 =? f1) then f0 else w
        else v
      else interp_from x x1 f1 xs' fs'
  | _, _ => f0
  end.

Definition interp (x : float) (xp fp : list float) : res float :=
  match xp, fp with
  | x0 :: xs, f0 :: fs =>
      if negb (Nat.eqb (length xs) (length fs)) then Raise ValueError
      else if is_nan x then Ret x
      else if x <=? x0 then Ret f0
      else Ret (interp_from x x0 f0 xs fs)
  | _, _ => Raise ValueError
  end.

(** [dfdrval] when [dfdr] is an array. *)
Definition dfdrval (uval rval : float) (rarray dfdr : list float)
  : res float :=
  interp rval rarray dfdr.

Definition adaptiveconstant : float := 0.1.

Record rk4_state : Type := mkRk4 {
  rstep : float;
  fstep : float;
  stepstotal : float;
  stepstaken : nat;
  ff : option float
}.

Definition rk4_init (fi ri : float) : rk4_state :=
  mkRk4 ri fi 0 0%nat None.

Section Integrator.

(** The call [dfdrval(uval, rval, r, dfdr)] for the arrays [r] and [dfdr] of
    the call of [rk4], in either mode of [dfdrval]. *)
Variable slope_at : float -> float -> res float.

(** Lines 292-296. *)
Definition rk4_deltar (dr : float) (s : rk4_state) : res float :=
  let sign := sign dr in
  slope <- slope_at (fstep s) (rstep s) ;;
  dlnf <- (slope / fstep s)%b64 ;;
  q <- (adaptiveconstant / dlnf)%b64 ;;
  deltar <- (sign * abs q)%b64 ;;
  total <- (abs (stepstotal s) + abs deltar)%b64 ;;
  if (abs dr <? total) || Nat.ltb 100 (stepstaken s)
  then (sign * (abs dr - abs (stepstotal s)))%b64
  else Ret deltar.

(** Lines 298-310. *)
Definition rk4_advance (dr : float) (s : rk4_state) (deltar : float)
  : res float :=
  let r1 := rstep s in
  r2 <- (r1 + 0.5 * deltar)%b64 ;;
  r3 <- (r1 + deltar)%b64 ;;
  let y1 := fstep s in
  k1 <- slope_at y1 r1 ;;
  pk1 <- (dr * k1)%b64 ;;
  y2 <- (fstep s + 0.5 * pk1)%b64 ;;
  k2 <- slope_at y2 r2 ;;
  pk2 <- (dr * k2)%b64 ;;
  y3 <- (fstep s + 0.5 * pk2)%b64 ;;
  k3 <- slope_at y3 r2 ;;
  pk3 <- (dr * k3)%b64 ;;
  y4 <- (fstep s + pk3)%b64 ;;
  k4 <- slope_at y4 r3 ;;
  pk4 <- (dr * k4)%b64 ;;
  (fstep s + (pk1 + pk4) / 6 + (pk2 + pk3) / 3)%b64.

(** Lines 288-314. *)
Definition rk4_body (dr : float) (s : rk4_state) : res rk4_state :=
  deltar <- rk4_deltar dr s ;;
  fnew <- rk4_advance dr s deltar ;;
  total <- (stepstotal s + abs deltar)%b64 ;;
  rnew <- (rstep s + deltar)%b64 ;;
  Ret (mkRk4 rnew fnew total (S (stepstaken s)) (Some fnew)).

(** [while np.abs(stepstotal) < np.abs(dr): ...] *)
Fixpoint rk4_loop (fuel : nat) (dr : float) (s : rk4_state)
  : res rk4_state :=
  if abs (stepstotal s) <? abs dr then
    match fuel with
    | O => OutOfFuel
    | S fuel' => s' <- rk4_body dr s ;; rk4_loop fuel' dr s'
    end
  else Ret s.

(** [rk4_reaches dr s s']: the loop, started in state [s], is in state [s']
    at the top of some later iteration. *)
Inductive rk4_reaches (dr : float) : rk4_state -> rk4_state -> Prop :=
| reaches_here (s : rk4_state) : rk4_reaches dr s s
| reaches_step (s s' s'' : rk4_state) :
    (abs (stepstotal s) <? abs dr) = true ->
    rk4_body dr s = Ret s' ->
    rk4_reaches dr s' s'' ->
    rk4_reaches dr s s''.

(** The two kinds of sub-step from [s] to [s']: of the adaptive size
    [sign*|0.1/dlnf|], taken while at most 100 sub-steps lie behind and only
    when it does not carry the distance stepped above [|dr|]; and of the
    forced size [sign*(|dr| - stepstotal)]. *)
Definition adaptive (dr : float) (s s' : rk4_state) : Prop :=
  exists slope : float,
    slope_at (fstep s) (rstep s) = Ret slope /\
    let deltar := sign dr * abs (adaptiveconstant / (slope / fstep s)) in
    (stepstaken s <= 100)%nat /\
    rstep s' = rstep s + deltar /\
    stepstotal s' = stepstotal s + abs deltar /\
    (abs dr <? stepstotal s') = false.

Definition forced (dr : float) (s s' : rk4_state) : Prop :=
  let deltar := sign dr * (abs dr - stepstotal s) in
  rstep s' = rstep s + deltar /\
  stepstotal s' = stepstotal s + abs deltar.

End Integrator.

Definition rk4_run (fuel : nat) (fi ri dr : float) (r dfdr : list float)
  : res rk4_state :=
  rk4_loop (fun uval rval => dfdrval uval rval r dfdr) fuel dr
           (rk4_init fi ri).

(** What a call leaves behind: the number of sub-steps taken, the distance
    stepped and the position. *)
Definition rk4_exit (fuel : nat) (fi ri dr : float) (r dfdr : list float)
  : res (nat * float * float) :=
  s <- rk4_run fuel fi ri dr r dfdr ;;
  Ret (stepstaken s, stepstotal s, rstep s).

(** [main], lines 43-45, and [fullRHS], line 577: the radius of a height,
    [(zx + 1.0)*Rsun], and the height recomputed from it,
    [(r/Rsun) - 1.0]. *)
Definition Rsun : float := 6.955e10.
Definition recomputed_height (z : float) : res float :=
  x <- ((z + 1) * Rsun)%b64 ;; (x / Rsun - 1)%b64.

(** [miranda], lines 146-149: the two tests that assign [xion], on
    [a = rm[k]/Rsun] and [b = zTR[j]+1]. *)
Definition xion_after (a b : float) (xion : option Z) : option Z :=
  let xion := if a <? b then Some 0%Z else xion in
  if b <=? a then Some 1%Z else xion.

(** The grid [k/1024] with the slopes [102.4] and [-102.4] in turn. *)
Fixpoint of_nat (n : nat) : float :=
  match n with
  | O => 0
  | S k => of_nat k + 1
  end.

Definition zigzag_grid (n : nat) : list float :=
  map (fun k => of_nat k / 1024) (seq 0 n).
Definition zigzag_slopes (n : nat) : list float :=
  map (fun k => if Nat.even k then 102.4 else -102.4) (seq 0 n).

(** The distance [1.5*2**43 + 2**-9], a binary64 number. *)
Definition long_distance : float := 13194139533312.001953125.

End B64.

(** ** Concrete inputs *)

Definition num (z : Z) : Qc := Q2Qc (z # 1).
Definition hundredths (z : Z) : Qc := Q2Qc (z # 100).

(** The number of sub-steps a call of [rk4] takes. *)
Definition rk4_substeps (fi ri dr : Qc) (r : list Qc) (dfdr : SlopeSource)
  : res nat :=
  s <- rk4_run fi ri dr r dfdr ;; Ret (stepstaken s).

(** A grid of spacing 1/1024 whose slope profile alternates between 102.4
    and -102.4: on it every adaptive step is 1/1024 long and, the slope
    being scaled by the whole distance, leaves the value where it was.  The
    binary64 numbers 0.1 and 102.4 have the same significand, so that the
    step is [2**-10] in binary64 as well and every number of the run but the
    last value is computed without rounding. *)
Definition zigzag_grid (n : nat) : list Qc :=
  map (fun k => Q2Qc (Z.of_nat k # 1024)) (seq 0 n).
Definition zigzag_slopes (n : nat) : list Qc :=
  map (fun k => if Nat.even k then Num.dec 1024 10 else Num.dec (-1024) 10)
      (seq 0 n).

(** A square root for the examples: exact on the squares of rationals,
    rounded down to a multiple of the denominator's inverse elsewhere. *)
Definition sqrt_floor (q : Qc) : Qc :=
  Q2Qc (Z.sqrt (Qnum q * Zpos (Qden q)) # Qden q).

Definition grid5 : list Qc := map num [1; 2; 3; 4; 5]%Z.

(** Two stand-ins for the single-model solve: one that returns the guess it
    is given (the guess is a fixed point from the start), one that doubles
    it (the change of every iteration is 1); and a stand-in for the power
    that makes the relaxed guess 1 everywhere. *)
Definition solve_same (u : list Qc) : io (list Qc) := io_ret u.
Definition solve_double (u : list Qc) : io (list Qc) :=
  io_ret (map (fun x => (num 2 * x)%Qc) u).
Definition power_one (x y : Qc) : res Qc := Ret 1%Qc.

(** Coarse stand-ins for [np.log10] and [10**x], through the binary
    logarithm of numerator and denominator (log10 2 is about 0.30103). *)
Definition log10_coarse (x : Qc) : res Qc :=
  if (0 <? x)%Qc
  then Ret (num (Z.log2 (Qnum x) - Z.log2 (Zpos (Qden x)))
            * Num.dec 30103 100000)%Qc
  else Raise FloatingPointError.
Definition pow10_coarse (y : Qc) : Qc :=
  Q2Qc (Qpower 2 (Qfloor (y / Num.dec 30103 100000)%Qc)).

(** Three radii at the heights 0.001, 0.005 and 0.01 solar radii, and one
    model on them with its transition region at 0.006. *)
Definition radii3 : list Qc :=
  map (fun z => (Rsun * (1 + Num.dec z 1000))%Qc) [1; 5; 10]%Z.
Definition T3 : list (list Qc) := [map num [12000; 12000; 1000000]%Z].
Definition B3 : list (list Qc) := [map num [10; 8; 5]%Z].
Definition u3 : list (list Qc) := [map num [100; 200; 400]%Z].
Definition zTR3 : list Qc := [Num.dec 6 1000].

(** A batch of two models on five radii: the right-hand side of the first
    changes sign between the indices 1 and 2, that of the second is positive
    throughout; both critical-speed profiles are flat. *)
Definition rhsA : list Qc := map hundredths [-2; -1; 1; 2; 3]%Z.
Definition rhsB : list Qc := map hundredths [1; 1; 1; 1; 1]%Z.
Definition ones5 : list Qc := map num [1; 1; 1; 1; 1]%Z.
Definition ucrA : list Qc := map hundredths [100; 101; 103; 106; 110]%Z.

(** One model on nine radii whose right-hand side changes sign three times:
    the candidates are the indices 1, 3 and 5. *)
Definition grid9 : list Qc := map num [1; 2; 3; 4; 5; 6; 7; 8; 9]%Z.
Definition rhsC : list Qc :=
  map hundredths [-1; -1; 1; 1; -2; -2; 1; 1; 1]%Z.

Definition returned {A : Type} (c : res A) : bool :=
  match c with Ret _ => true | _ => false end.

Definition show_outflows (c : io (list (list Qc * Qc)))
  : res (list (list Q * Q)) :=
  l <- fst c ;; Ret (map (fun p => (map this (fst p), this (snd p))) l).

(** A call of [critSlope] on the first model, at the index 1. *)
Definition slopes_example : io (list (Qc * Qc * Qc)) :=
  critSlope sqrt_floor grid5 1 5 [rhsA] [ucrA] [1%Z].
Definition slopes_out : list (Qc * Qc * Qc) :=
  match fst slopes_example with Ret o => o | _ => nil end.

(** A call of [critSlope] on a batch of two models, at the indices 1 and
    2, with the two numbers of the line it prints. *)
Definition slopes2_example : io (list (Qc * Qc * Qc)) :=
  critSlope sqrt_floor grid5 2 5 [rhsA; rhsA] [ucrA; ucrA] [1%Z; 2%Z].
Definition slopes2_out : list (Qc * Qc * Qc) :=
  match fst slopes2_example with Ret o => o | _ => nil end.
Definition slopes2_range : Qc * Qc :=
  match snd slopes2_example with
  | [RangeOfSlopes lo hi] => (lo, hi)
  | _ => (0%Qc, 0%Qc)
  end.

(** A call of [slope2curve] on six radii, from a flat bracket at the speed
    24/25 below the flat critical speed 1: the inward step from the index 1
    overshoots to a negative value. *)
Definition grid6 : list Qc := map num [1; 2; 3; 4; 5; 6]%Z.
Definition shoot_example : io (list Qc) :=
  slope2curve grid6 2 (Num.dec 7 2) (Num.dec 24 25) (0%Qc, 0%Qc)
    (map (fun _ => 1%Qc) grid6) (map (fun _ => Num.dec 49 7400) grid6).
Definition shoot_out : list Qc :=
  match fst shoot_example with Ret u => u | _ => nil end.

Definition rho3 : list Qc :=
  match density_model log10_coarse pow10_coarse radii3 3 B3 T3 zTR3 u3 0 with
  | Ret rho => rho
  | _ => nil
  end.

Definition show_converged (c : io (list Qc * nat * Qc))
  : res (list Q * nat * Q) :=
  p <- fst c ;; Ret (map this (fst (fst p)), snd (fst p), this (snd p)).

(** The state in which [rk4] leaves its loop on the constant slope 1,
    integrated from the value 1 over the distance 1. *)
Definition rk4_example : rk4_state :=
  match rk4_run 1%Qc 0%Qc 1%Qc (map num [0; 1]%Z) (Plain (map num [1; 1]%Z))
  with Ret s => s | _ => rk4_init 0%Qc 0%Qc end.

(** A profile that is linear in the radius, [f = 2*r + 1] on [grid5], and
    the row [quickDeriv] computes of it. *)
Definition linear5 : list Qc := map num [3; 5; 7; 9; 11]%Z.
Definition linear_slopes : list Qc :=
  match quickDeriv_row linear5 grid5 5 with Ret d => d | _ => nil end.

(** A temperature row without a sample below [1.1*TTR], a velocity row
    with an entry 0, and the anchor of the model on [radii3]. *)
Definition T3hot : list (list Qc) := [map num [20000; 20000; 20000]%Z].
Definition u3zero : list (list Qc) := [map num [100; 0; 400]%Z].
Definition anchor3 : Z * list Qc :=
  match anchor log10_coarse pow10_coarse radii3 3 T3 zTR3 0 with
  | Ret p => p
  | _ => (0%Z, nil)
  end.

(** The call of [outflows] on the first model of the batch, alone. *)
Definition outflows_example : io (list (list Qc * Qc)) :=
  outflows sqrt_floor grid5 1 5 [rhsA] [ones5].
Definition outflows_out : list (list Qc * Qc) :=
  match fst outflows_example with Ret o => o | _ => nil end.

(** Three heights as a file gives them, the first one 0, and their
    refinement by the factor 2. *)
Definition heights3 : list Qc := map hundredths [0; 1; 5]%Z.
Definition refined3 : list Qc :=
  match refine_heights heights3 3 2 with Ret zx => zx | _ => nil end.
Definition main_grid3 : list Qc * list Qc :=
  match main_grid heights3 with Ret p => p | _ => (nil, nil) end.

(** One point of [miranda] on [radii3]: a temperature whose sound speed
    is 10 km/s below the transition region, with derivatives of the field
    and of the temperature. *)
Definition T3sound : list (list Qc) :=
  [map (fun n => Q2Qc (n # 1381)) [16740000; 16740000; 1674000000]%Z].
Definition dB3 : list (list Qc) := [map num [-1; -1; -1]%Z].
Definition dT3 : list (list Qc) := [map num [0; 1; 1]%Z].
Definition miranda_example : option Qc * list Qc * list Qc :=
  match miranda_point sqrt_floor radii3 B3 dB3 T3sound dT3 zTR3 0
          (None, zeros 3, zeros 3) 0 with
  | Ret p => p
  | _ => (None, nil, nil)
  end.

(** The running integral of [waveaction] for the rate 0.01 on [grid5]. *)
Definition intRS_example : list Qc :=
  match intRS_row grid5 5 rhsB with Ret l => l | _ => nil end.

(** The field and the heights [read_bzin] returns for [heights3] and the
    row of [B3], refined by the factor 2. *)
Definition refined_field3 : list (list Qc) * list Qc :=
  match read_bzin heights3 B3 1 3 2 with
  | Ret (_, _, B, zx) => (B, zx)
  | _ => (nil, nil)
  end.

(** ** Predicates of the statements *)

Definition finishes {A : Type} (c : res A) : Prop := c <> OutOfFuel.

(** [rk4_reaches dr r dfdr s s']: the loop, started in state [s], is in state
    [s'] at the top of some later iteration. *)
Inductive rk4_reaches (dr : Qc) (r : list Qc) (dfdr : SlopeSource)
  : rk4_state -> rk4_state -> Prop :=
| reaches_here (s : rk4_state) : rk4_reaches dr r dfdr s s
| reaches_step (s s' s'' : rk4_state) :
    (Qcabs (stepstotal s) <? Qcabs dr)%Qc = true ->
    rk4_body dr r dfdr s = Ret s' ->
    rk4_reaches dr r dfdr s' s'' ->
    rk4_reaches dr r dfdr s s''.

(** The loop invariant: the distance stepped lies between 0 and [|dr|], and
    the 102nd sub-step, if it is taken, is the clamped one. *)
Definition within (dr : Qc) (s : rk4_state) : Prop :=
  (0 <= stepstotal s)%Qc /\ (stepstotal s <= Qcabs dr)%Qc /\
  ((stepstaken s <= 101)%nat \/
   (stepstaken s = 102%nat /\ stepstotal s = Qcabs dr)).

Definition unbound_free {A : Type} (c : res A) : Prop :=
  c <> Raise UnboundLocalError.

Definition io_unbound_free {A : Type} (c : io A) : Prop :=
  unbound_free (fst c).

(** What one pass of a shooting loop does to the profile: it reads the
    point [i], integrates to the neighbour [i'] ([i-1] inward, [i+1]
    outward), and stores there the result [v], or the value of the point [i]
    when [v] is negative, printing then. *)
Definition shot (r ucrj rhsj : list Qc) (u u1 : list Qc) (out : list msg)
  (i i' : Z) (warning : msg) : Prop :=
  length u1 = length u /\
  (forall n : nat, n <> Z.to_nat i' -> nth_error u1 n = nth_error u n) /\
  exists ri ri' ui v : Qc,
    index r i = Ret ri /\ index r i' = Ret ri' /\ index u i = Ret ui /\
    rk4 ui ri (ri' - ri) r (CriticalOde ucrj rhsj) = Ret v /\
    index u1 i' = Ret (if (v <? 0)%Qc then ui else v) /\
    out = (if (v <? 0)%Qc then [warning] else []).

(** The profile [u] and the printed lines [log] at the end, seen from the
    point [i]: the neighbour [i'] holds the result [v] of integrating from
    the point [i], or the value of the point [i] when [v] is negative, and
    the warning of the point [i] was printed exactly in that case. *)
Definition propagated (r ucrj rhsj : list Qc) (u : list Qc) (log : list msg)
  (i i' : Z) (warning : msg) : Prop :=
  exists ri ri' ui v : Qc,
    index r i = Ret ri /\ index r i' = Ret ri' /\ index u i = Ret ui /\
    rk4 ui ri (ri' - ri) r (CriticalOde ucrj rhsj) = Ret v /\
    index u i' = Ret (if (v <? 0)%Qc then ui else v) /\
    ((v < 0)%Qc <-> In warning log).

(** The entry [k+1] of the profile [F] is what [rk4] integrates to from the
    entry [k] over the grid interval that starts at [r[k]], the slope being
    the interpolated right-hand side of model [j]. *)
Definition integrated (r : list Qc) (rhs : list (list Qc)) (j : Z)
  (F : list Qc) (k : Z) : Prop :=
  exists (rk rk1 fk v : Qc) (rhsj : list Qc),
    index r k = Ret rk /\ index r (k + 1) = Ret rk1 /\
    index F k = Ret fk /\ index rhs j = Ret rhsj /\
    rk4 fk rk (rk1 - rk) r (Plain rhsj) = Ret v /\
    index F (k + 1) = Ret v.

(** A candidate of a model, by its own right-hand side: the 4-point
    sign-change test holds at [k], an index of the search range. *)
Definition candidate (nsteps : Z) (rhsj : list Qc) (k : Z) : Prop :=
  (1 <= k <= nsteps - 3)%Z /\ sign_change rhsj k = Ret true.

(** [fails_only P c]: the computation [c] returns, or raises an exception
    among those of [P]; it does not run out of fuel. *)
Definition fails_only {A : Type} (P : exn -> Prop) (c : res A) : Prop :=
  match c with
  | Ret _ => True
  | Raise e => P e
  | OutOfFuel => False
  end.

(** The exceptions of the array accesses and of the arithmetic. *)
Definition index_or_arithmetic (e : exn) : Prop :=
  e = IndexError \/ e = FloatingPointError \/ e = ValueError.

(** The entry [i+1] of the running integral [intRS] is what [rk4]
    integrates to from the entry [i] over the grid interval that starts at
    [r[i]], the slope being the interpolated rate [RSj]. *)
Definition damped (r RSj : list Qc) (intRS : list Qc) (i : Z) : Prop :=
  exists ri ri1 fi v : Qc,
    index r i = Ret ri /\ index r (i + 1) = Ret ri1 /\
    index intRS i = Ret fi /\
    rk4 fi ri (ri1 - ri) r (Plain RSj) = Ret v /\
    index intRS (i + 1) = Ret v.

(** * Properties *)

(** ** Comparisons and outcomes *)

Lemma ltb_true (x y : Qc) : (x <? y)%Qc = true <-> (x < y)%Qc.
Proof.
  unfold Num.ltb. rewrite Qclt_alt.
  destruct (x ?= y)%Qc; split; congruence.
Qed.

Lemma ltb_false (x y : Qc) : (x <? y)%Qc = false <-> (y <= x)%Qc.
Proof.
  split; intro H.
  - apply Qcnot_lt_le. intro L. apply ltb_true in L. congruence.
  - destruct (x <? y)%Qc eqn:E; trivial.
    apply ltb_true in E. exfalso. exact (Qclt_not_le _ _ E H).
Qed.

Lemma leb_true (x y : Qc) : (x <=? y)%Qc = true <-> (x <= y)%Qc.
Proof.
  unfold Num.leb. rewrite Qcle_alt.
  destruct (x ?= y)%Qc; split; congruence.
Qed.

Lemma eqb_true (x y : Qc) : (x =? y)%Qc = true <-> x = y.
Proof.
  unfold Num.eqb. rewrite Qceq_alt.
  destruct (x ?= y)%Qc; split; congruence.
Qed.

Lemma eqb_false (x y : Qc) : (x =? y)%Qc = false <-> x <> y.
Proof.
  split.
  - intros H E. apply eqb_true in E. congruence.
  - intro H. destruct (x =? y)%Qc eqn:E; trivial.
    apply eqb_true in E. contradiction.
Qed.

Lemma div_ret (x y q : Qc) :
  x /! y = Ret q <-> y <> 0%Qc /\ q = (x / y)%Qc.
Proof.
  unfold Num.div. destruct (y =? 0)%Qc eqn:E.
  - apply eqb_true in E. split; [discriminate | intros [H _]; contradiction].
  - apply eqb_false in E. split.
    + intro H. inversion H. auto.
    + intros [_ ->]. reflexivity.
Qed.

Lemma bind_ret {A B : Type} (c : res A) (k : A -> res B) (b : B) :
  bind c k = Ret b -> exists a, c = Ret a /\ k a = Ret b.
Proof. destruct c; simpl; intro H; try discriminate. eauto. Qed.

(** Splits a hypothesis [x <- c ;; k = Ret b]. *)
Ltac bind_inv H :=
  let a := fresh "a" in
  let Ha := fresh "Ha" in
  apply bind_ret in H; destruct H as (a & Ha & H).

Tactic Notation "bind_split" hyp(H) "as" ident(a) ident(Ha) :=
  apply bind_ret in H; destruct H as (a & Ha & H).

(** ** Order facts on [Qc], by translation to [Q] *)

Lemma this_plus (x y : Qc) : (this (x + y)%Qc == this x + this y)%Q.
Proof. exact (Qred_correct _). Qed.

Lemma this_minus (x y : Qc) : (this (x - y)%Qc == this x - this y)%Q.
Proof.
  unfold Qcminus. rewrite this_plus.
  change (this (- y)%Qc) with (Qred (- this y)).
  rewrite Qred_correct. reflexivity.
Qed.

Lemma abs_of_nonneg (x : Qc) : (0 <= x)%Qc -> Qcabs x = x.
Proof. apply Qcabs_pos. Qed.

Lemma sign_abs (dr : Qc) : dr <> 0%Qc -> Qcabs (Num.sign dr) = 1%Qc.
Proof.
  intro H. unfold Num.sign.
  destruct (dr ?= 0)%Qc eqn:E.
  - apply Qceq_alt in E. contradiction.
  - apply Qc_decomp. reflexivity.
  - apply Qc_decomp. reflexivity.
Qed.

Lemma abs_pos_nonzero (dr x : Qc) : (x < Qcabs dr)%Qc -> (0 <= x)%Qc -> dr <> 0%Qc.
Proof.
  intros H H0 ->. 
  assert (E : Qcabs 0%Qc = 0%Qc) by (apply Qc_decomp; reflexivity).
  rewrite E in H. exact (Qclt_not_le _ _ H H0).
Qed.

Lemma le_plus_nonneg (x y : Qc) : (0 <= x)%Qc -> (0 <= y)%Qc -> (0 <= x + y)%Qc.
Proof.
  unfold Qcle. intros Hx Hy. rewrite this_plus.
  change (this 0%Qc) with 0%Q in *. lra.
Qed.

Lemma minus_nonneg (x y : Qc) : (x < y)%Qc -> (0 <= y - x)%Qc.
Proof.
  unfold Qcle, Qclt. intro H. rewrite this_minus.
  change (this 0%Qc) with 0%Q. lra.
Qed.

Lemma plus_minus_cancel (x y : Qc) : (x + (y - x))%Qc = y.
Proof. ring. Qed.

(** ** Computations that need no fuel *)

Lemma finishes_bind {A B : Type} (c : res A) (k : A -> res B) :
  finishes c -> (forall a, finishes (k a)) -> finishes (bind c k).
Proof.
  unfold finishes. destruct c; simpl; intros Hc Hk; auto; discriminate.
Qed.

Lemma finishes_ret {A : Type} (a : A) : finishes (Ret a).
Proof. discriminate. Qed.

Lemma finishes_raise {A : Type} (e : exn) : finishes (@Raise A e).
Proof. discriminate. Qed.

Lemma finishes_div (x y : Qc) : finishes (x /! y).
Proof. unfold Num.div. destruct (y =? 0)%Qc; discriminate. Qed.

Lemma finishes_interp (x : Qc) (xp fp : list Qc) : finishes (interp x xp fp).
Proof.
  unfold interp. destruct xp, fp; try discriminate.
  destruct (negb _); [discriminate|]. destruct (_ <=? _)%Qc; discriminate.
Qed.

Create HintDb finishes.

#[local] Hint Resolve finishes_ret finishes_raise finishes_div
  finishes_interp : finishes.

Lemma finishes_dfdrval (u x : Qc) (r : list Qc) (src : SlopeSource) :
  finishes (dfdrval u x r src).
Proof.
  destruct src; simpl; auto with finishes.
  repeat (apply finishes_bind; [auto with finishes | intro]).
  auto with finishes.
Qed.

#[local] Hint Resolve finishes_dfdrval : finishes.

Lemma finishes_rk4_body (dr : Qc) (r : list Qc) (src : SlopeSource)
  (s : rk4_state) : finishes (rk4_body dr r src s).
Proof.
  unfold rk4_body, rk4_deltar, rk4_advance.
  repeat (apply finishes_bind; [auto with finishes | intro]);
    auto with finishes.
  - repeat (apply finishes_bind; [auto with finishes | intro]).
    destruct (_ || _); auto with finishes.
Qed.

(** ** The integration loop: step cap, clamping, termination *)

Lemma within_init (fi ri dr : Qc) : within dr (rk4_init fi ri).
Proof.
  unfold within; simpl. repeat split.
  - apply Qcle_refl.
  - apply Qcabs_nonneg.
  - left. lia.
Qed.

Lemma within_running (dr : Qc) (s : rk4_state) :
  within dr s -> (Qcabs (stepstotal s) <? Qcabs dr)%Qc = true ->
  (stepstotal s < Qcabs dr)%Qc /\ (stepstaken s <= 101)%nat /\ dr <> 0%Qc.
Proof.
  intros (H0 & H1 & H2) C. apply ltb_true in C.
  rewrite (abs_of_nonneg _ H0) in C. split; [exact C|]. split.
  - destruct H2 as [H2 | [_ H2]]; [exact H2|].
    rewrite H2 in C. exfalso. exact (Qclt_not_le _ _ C (Qcle_refl _)).
  - exact (abs_pos_nonzero _ _ C H0).
Qed.

Lemma within_body (dr : Qc) (r : list Qc) (dfdr : SlopeSource)
  (s s' : rk4_state) :
  within dr s -> (Qcabs (stepstotal s) <? Qcabs dr)%Qc = true ->
  rk4_body dr r dfdr s = Ret s' ->
  within dr s' /\ stepstaken s' = S (stepstaken s).
Proof.
  intros W C B.
  destruct (within_running _ _ W C) as (Hlt & Hn & Hdr).
  destruct W as (H0 & H1 & _).
  unfold rk4_body in B. bind_inv B. bind_inv B. inversion B; subst s'; clear B.
  simpl. split; [|reflexivity].
  unfold rk4_deltar in Ha. bind_inv Ha. bind_inv Ha. bind_inv Ha.
  rewrite (abs_of_nonneg _ H0) in Ha.
  destruct ((stepstotal s + Qcabs (Num.sign dr * Qcabs a3) >? Qcabs dr)%Qc
            || Nat.ltb 100 (stepstaken s)) eqn:E;
    inversion Ha; subst a; clear Ha.
  - (* the clamped step lands on |dr| *)
    assert (D : Qcabs (Num.sign dr * (Qcabs dr - stepstotal s))
                = (Qcabs dr - stepstotal s)%Qc).
    { rewrite Qcabs_Qcmult, (sign_abs _ Hdr), Qcmult_1_l.
      apply abs_of_nonneg, minus_nonneg, Hlt. }
    unfold within; simpl. rewrite D, plus_minus_cancel.
    repeat split.
    + apply Qcabs_nonneg.
    + apply Qcle_refl.
    + destruct (Nat.eq_dec (stepstaken s) 101) as [K | K].
      * right. split; [lia | reflexivity].
      * left. lia.
  - (* the adaptive step stays below |dr| *)
    apply orb_false_iff in E. destruct E as [E1 E2].
    unfold Num.gtb in E1. apply ltb_false in E1.
    apply Nat.ltb_ge in E2.
    unfold within; simpl. repeat split.
    + apply le_plus_nonneg; [exact H0 | apply Qcabs_nonneg].
    + exact E1.
    + left. lia.
Qed.

Lemma within_reaches (dr : Qc) (r : list Qc) (dfdr : SlopeSource)
  (s s' : rk4_state) :
  rk4_reaches dr r dfdr s s' -> within dr s -> within dr s'.
Proof.
  induction 1 as [s | s s1 s2 C B _ IH]; intro W; [exact W|].
  apply IH. exact (proj1 (within_body _ _ _ _ _ W C B)).
Qed.

(** Enough fuel: what is left of the 102 possible sub-steps. *)
Lemma rk4_loop_finishes (dr : Qc) (r : list Qc) (dfdr : SlopeSource)
  (fuel : nat) : forall s : rk4_state,
  within dr s -> (102 <= fuel + stepstaken s)%nat ->
  finishes (rk4_loop fuel dr r dfdr s).
Proof.
  induction fuel as [| fuel IH]; intros s W F; simpl;
    destruct (Qcabs (stepstotal s) <? Qcabs dr)%Qc eqn:C;
    try apply finishes_ret.
  - destruct (within_running _ _ W C) as (_ & Hn & _). lia.
  - destruct (rk4_body dr r dfdr s) as [s1 | e |] eqn:B; simpl.
    + destruct (within_body _ _ _ _ _ W C B) as [W1 N1].
      apply IH; [exact W1 | lia].
    + apply finishes_raise.
    + destruct (finishes_rk4_body _ _ _ _ B).
Qed.

Lemma rk4_loop_more_fuel (dr : Qc) (r : list Qc) (dfdr : SlopeSource)
  (fuel : nat) : forall (fuel' : nat) (s : rk4_state),
  finishes (rk4_loop fuel dr r dfdr s) -> (fuel <= fuel')%nat ->
  rk4_loop fuel' dr r dfdr s = rk4_loop fuel dr r dfdr s.
Proof.
  induction fuel as [| fuel IH]; intros fuel' s; simpl;
    destruct (Qcabs (stepstotal s) <? Qcabs dr)%Qc eqn:C.
  - intro H. exfalso. apply H. reflexivity.
  - intros _ _. destruct fuel'; simpl; rewrite C; reflexivity.
  - intros H L. destruct fuel' as [| fuel']; [lia|]. simpl. rewrite C.
    destruct (rk4_body dr r dfdr s) as [s1 | e |]; simpl in *; trivial.
    apply IH; [exact H | lia].
  - intros _ _. destruct fuel'; simpl; rewrite C; reflexivity.
Qed.

Lemma rk4_loop_reaches (dr : Qc) (r : list Qc) (dfdr : SlopeSource)
  (fuel : nat) : forall s s' : rk4_state,
  rk4_loop fuel dr r dfdr s = Ret s' ->
  rk4_reaches dr r dfdr s s' /\
  (Qcabs (stepstotal s') <? Qcabs dr)%Qc = false.
Proof.
  induction fuel as [| fuel IH]; intros s s'; simpl;
    destruct (Qcabs (stepstotal s) <? Qcabs dr)%Qc eqn:C; intro H;
    try discriminate;
    try (inversion H; subst; split; [constructor | exact C]).
  bind_inv H. destruct (IH _ _ H) as [R E].
  split; [exact (reaches_step _ _ _ _ _ _ C Ha R) | exact E].
Qed.

(** Once the body has run, [ff] is bound. *)
Lemma rk4_body_binds (dr : Qc) (r : list Qc) (dfdr : SlopeSource)
  (s s' : rk4_state) :
  rk4_body dr r dfdr s = Ret s' -> ff s' <> None.
Proof.
  unfold rk4_body. intro B. bind_inv B. bind_inv B.
  inversion B. simpl. discriminate.
Qed.

Lemma rk4_loop_binds (dr : Qc) (r : list Qc) (dfdr : SlopeSource)
  (fuel : nat) : forall s s' : rk4_state,
  ff s <> None -> rk4_loop fuel dr r dfdr s = Ret s' -> ff s' <> None.
Proof.
  induction fuel as [| fuel IH]; intros s s' B; simpl;
    destruct (Qcabs (stepstotal s) <? Qcabs dr)%Qc; intro H;
    try discriminate; try (inversion H; subst; exact B).
  bind_inv H. apply (IH a s'); [|exact H].
  exact (rk4_body_binds _ _ _ _ _ Ha).
Qed.

Lemma abs_zero : Qcabs 0%Qc = 0%Qc.
Proof. apply Qc_decomp. reflexivity. Qed.

Lemma abs_nonzero_pos (dr : Qc) : dr <> 0%Qc -> (0 < Qcabs dr)%Qc.
Proof.
  intro H. destruct (Qcle_lt_or_eq _ _ (Qcabs_nonneg dr)) as [L | E];
    [exact L|].
  exfalso. apply H. apply Qcabs_null. symmetry. exact E.
Qed.

(** ** Which exception: [UnboundLocalError] comes from [rk4] alone *)

Lemma unbound_free_bind {A B : Type} (c : res A) (k : A -> res B) :
  unbound_free c -> (forall a, c = Ret a -> unbound_free (k a)) ->
  unbound_free (bind c k).
Proof.
  unfold unbound_free. destruct c as [a | e |]; simpl; intros Hc Hk.
  - exact (Hk a eq_refl).
  - intro E. apply Hc. congruence.
  - discriminate.
Qed.

Lemma unbound_free_ret {A : Type} (a : A) : unbound_free (Ret a).
Proof. discriminate. Qed.

Lemma unbound_free_div (x y : Qc) : unbound_free (x /! y).
Proof. unfold Num.div. destruct (y =? 0)%Qc; discriminate. Qed.

Lemma unbound_free_interp (x : Qc) (xp fp : list Qc) :
  unbound_free (interp x xp fp).
Proof.
  unfold interp. destruct xp, fp; try discriminate.
  destruct (negb _); [discriminate|]. destruct (_ <=? _)%Qc; discriminate.
Qed.

Lemma unbound_free_index {A : Type} (l : list A) (i : Z) :
  unbound_free (index l i).
Proof.
  unfold index. destruct (_ <? 0)%Z; [discriminate|].
  destruct (nth_error _ _); discriminate.
Qed.

Lemma unbound_free_store {A : Type} (l : list A) (i : Z) (v : A) :
  unbound_free (store l i v).
Proof. unfold store. destruct (_ || _); discriminate. Qed.

Create HintDb unbound.

#[local] Hint Resolve unbound_free_ret unbound_free_div unbound_free_interp
  unbound_free_index unbound_free_store : unbound.

(** Peels the binds of a goal [unbound_free (x <- c ;; k)]. *)
Ltac unbound_step :=
  apply unbound_free_bind; [auto with unbound | intros ? ?].

Lemma unbound_free_dfdrval (u x : Qc) (r : list Qc) (src : SlopeSource) :
  unbound_free (dfdrval u x r src).
Proof.
  destruct src; simpl; auto with unbound.
  repeat unbound_step. auto with unbound.
Qed.

#[local] Hint Resolve unbound_free_dfdrval : unbound.

Lemma unbound_free_rk4_body (dr : Qc) (r : list Qc) (src : SlopeSource)
  (s : rk4_state) : unbound_free (rk4_body dr r src s).
Proof.
  unfold rk4_body, rk4_deltar, rk4_advance.
  apply unbound_free_bind.
  - repeat unbound_step. destruct (_ || _); auto with unbound.
  - intros ? _. repeat unbound_step; auto with unbound.
Qed.

Lemma unbound_free_rk4_loop (dr : Qc) (r : list Qc) (src : SlopeSource)
  (fuel : nat) : forall s : rk4_state,
  unbound_free (rk4_loop fuel dr r src s).
Proof.
  induction fuel as [| fuel IH]; intro s; simpl;
    destruct (Qcabs (stepstotal s) <? Qcabs dr)%Qc; try discriminate.
  apply unbound_free_bind; [apply unbound_free_rk4_body | intros; apply IH].
Qed.

Lemma rk4_unbound_zero (fi ri : Qc) (r : list Qc) (dfdr : SlopeSource) :
  rk4 fi ri 0%Qc r dfdr = Raise UnboundLocalError.
Proof. reflexivity. Qed.

Lemma rk4_loop_first (dr : Qc) (r : list Qc) (dfdr : SlopeSource)
  (fuel : nat) (s s' : rk4_state) :
  (Qcabs (stepstotal s) <? Qcabs dr)%Qc = true ->
  rk4_loop (S fuel) dr r dfdr s = Ret s' -> ff s' <> None.
Proof.
  intros C H. simpl in H. rewrite C in H. bind_inv H.
  exact (rk4_loop_binds _ _ _ _ _ _ (rk4_body_binds _ _ _ _ _ Ha) H).
Qed.

Lemma rk4_bound_nonzero (fi ri dr : Qc) (r : list Qc) (dfdr : SlopeSource) :
  dr <> 0%Qc -> unbound_free (rk4 fi ri dr r dfdr).
Proof.
  intros Hdr. unfold rk4. apply unbound_free_bind.
  - apply unbound_free_rk4_loop.
  - intros s Hs.
    assert (C : (Qcabs (stepstotal (rk4_init fi ri)) <? Qcabs dr)%Qc = true).
    { simpl. rewrite abs_zero. apply ltb_true, abs_nonzero_pos, Hdr. }
    pose proof (rk4_loop_first _ _ _ _ _ _ C Hs) as N.
    destruct (ff s); [discriminate | contradiction].
Qed.

(** ** Consecutive radii of an increasing grid *)

Lemma increasing_from_nth (l : list Qc) : forall (x : Qc) (i : nat) (a b : Qc),
  increasing_from x l = true ->
  nth_error (x :: l) i = Some a -> nth_error (x :: l) (S i) = Some b ->
  (a < b)%Qc.
Proof.
  induction l as [| y l IH]; intros x i a b H Ha Hb.
  - destruct i; simpl in Hb; [discriminate | destruct i; discriminate].
  - simpl in H. apply andb_true_iff in H. destruct H as [Hxy Hl].
    destruct i as [| i].
    + simpl in Ha, Hb. inversion Ha; inversion Hb; subst.
      apply ltb_true, Hxy.
    + exact (IH y i a b Hl Ha Hb).
Qed.

Lemma index_nonneg {A : Type} (l : list A) (k : Z) (a : A) :
  (0 <= k)%Z -> index l k = Ret a -> nth_error l (Z.to_nat k) = Some a.
Proof.
  intros Hk. unfold index, py_pos.
  destruct (k <? 0)%Z eqn:E; [apply Z.ltb_lt in E; lia|]. rewrite E.
  destruct (nth_error l (Z.to_nat k)); intro H; inversion H; reflexivity.
Qed.

Lemma index_consecutive (r : list Qc) (k : Z) (a b : Qc) :
  increasing r = true -> (0 <= k)%Z ->
  index r k = Ret a -> index r (k + 1) = Ret b -> (a < b)%Qc.
Proof.
  intros Hr Hk Ha Hb.
  apply index_nonneg in Ha; [|lia]. apply index_nonneg in Hb; [|lia].
  replace (Z.to_nat (k + 1)) with (S (Z.to_nat k)) in Hb by lia.
  destruct r as [| x l]; [destruct (Z.to_nat k); discriminate|].
  exact (increasing_from_nth l x _ a b Hr Ha Hb).
Qed.

Lemma lt_minus_nonzero (a b : Qc) : (a < b)%Qc -> (b - a)%Qc <> 0%Qc.
Proof.
  intros H E. apply Qclt_minus_iff in H. unfold Qcminus in E.
  rewrite E in H. exact (Qclt_not_le _ _ H (Qcle_refl _)).
Qed.

Lemma gt_minus_nonzero (a b : Qc) : (a < b)%Qc -> (a - b)%Qc <> 0%Qc.
Proof.
  intros H E. apply (lt_minus_nonzero a b H).
  replace (b - a)%Qc with (- (a - b))%Qc by ring. rewrite E. ring.
Qed.

Lemma in_range_up (a b x : Z) : In x (range_up a b) -> (a <= x < b)%Z.
Proof.
  unfold range_up. rewrite in_map_iff. intros (k & <- & Hk).
  apply in_seq in Hk. lia.
Qed.

Lemma in_range_down (a b x : Z) : In x (range_down a b) -> (b < x <= a)%Z.
Proof.
  unfold range_down. rewrite in_map_iff. intros (k & <- & Hk).
  apply in_seq in Hk. lia.
Qed.

Lemma unbound_free_foldM {S X : Type} (f : S -> X -> res S) (l : list X) :
  (forall s x, In x l -> unbound_free (f s x)) ->
  forall s, unbound_free (foldM f l s).
Proof.
  induction l as [| x l IH]; intros H s; simpl; [discriminate|].
  apply unbound_free_bind.
  - apply H. left. reflexivity.
  - intros s' _. apply IH. intros. apply H. right. assumption.
Qed.

(** *** The callers of [rk4] *)

Lemma unbound_free_intRS_step (r RSj intRS : list Qc) (i : Z) :
  increasing r = true -> (0 <= i)%Z ->
  unbound_free (intRS_step r RSj intRS i).
Proof.
  intros Hr Hi. unfold intRS_step. do 4 unbound_step.
  apply unbound_free_bind; [|auto with unbound].
  apply rk4_bound_nonzero, lt_minus_nonzero.
  exact (index_consecutive r i _ _ Hr Hi H0 H).
Qed.

Lemma unbound_free_intRS_row (r : list Qc) (steps : Z) (RSj : list Qc) :
  increasing r = true -> unbound_free (intRS_row r steps RSj).
Proof.
  intro Hr. unfold intRS_row. do 5 unbound_step.
  apply unbound_free_foldM. intros s x Hx. apply in_range_up in Hx.
  apply unbound_free_intRS_step; [exact Hr | lia].
Qed.

Lemma unbound_free_F_step (r : list Qc) (rhs : list (list Qc)) (j : Z)
  (st : list Qc * Qc) (k : Z) :
  increasing r = true -> (0 <= k)%Z -> unbound_free (F_step r rhs j st k).
Proof.
  intros Hr Hk. unfold F_step. destruct st as [Fj fnow]. do 4 unbound_step.
  apply unbound_free_bind.
  - apply rk4_bound_nonzero, lt_minus_nonzero.
    exact (index_consecutive r k _ _ Hr Hk H1 H0).
  - intros. unbound_step. auto with unbound.
Qed.

Lemma unbound_free_F_row (r : list Qc) (nsteps : Z) (rhs : list (list Qc))
  (j : Z) : increasing r = true -> unbound_free (F_row r nsteps rhs j).
Proof.
  intro Hr. unfold F_row. unbound_step.
  apply unbound_free_bind; [|auto with unbound].
  apply unbound_free_foldM. intros s x Hx. apply in_range_up in Hx.
  apply unbound_free_F_step; [exact Hr | lia].
Qed.

Lemma io_unbound_free_bind {A B : Type} (c : io A) (k : A -> io B) :
  io_unbound_free c -> (forall a, fst c = Ret a -> io_unbound_free (k a)) ->
  io_unbound_free (io_bind c k).
Proof.
  unfold io_unbound_free, unbound_free.
  destruct c as [[a | e |] out]; simpl; intros Hc Hk.
  - specialize (Hk a eq_refl). destruct (k a). exact Hk.
  - intro E. apply Hc. congruence.
  - discriminate.
Qed.

Lemma io_unbound_free_lift {A : Type} (c : res A) :
  unbound_free c -> io_unbound_free (lift c).
Proof. intro H. exact H. Qed.

Lemma io_unbound_free_ret {A : Type} (a : A) : io_unbound_free (io_ret a).
Proof. discriminate. Qed.

Lemma io_unbound_free_foldM {S X : Type} (f : S -> X -> io S) (l : list X) :
  (forall s x, In x l -> io_unbound_free (f s x)) ->
  forall s, io_unbound_free (io_foldM f l s).
Proof.
  induction l as [| x l IH]; intros H s; simpl; [discriminate|].
  apply io_unbound_free_bind.
  - apply H. left. reflexivity.
  - intros s' _. apply IH. intros. apply H. right. assumption.
Qed.

Lemma io_unbound_free_shoot_down (r ucrj rhsj u : list Qc) (i : Z) :
  increasing r = true -> (1 <= i)%Z ->
  io_unbound_free (shoot_down r ucrj rhsj u i).
Proof.
  intros Hr Hi. unfold shoot_down.
  apply io_unbound_free_bind.
  - apply io_unbound_free_lift. do 3 unbound_step.
    apply rk4_bound_nonzero, gt_minus_nonzero.
    apply (index_consecutive r (i - 1)); [exact Hr | lia | exact H |].
    replace (i - 1 + 1)%Z with i by lia. exact H0.
  - intros v _. apply io_unbound_free_bind;
      [apply io_unbound_free_lift; auto with unbound|].
    intros u1 _. destruct (v <? 0)%Qc; [|apply io_unbound_free_ret].
    apply io_unbound_free_bind.
    + apply io_unbound_free_lift. unbound_step. auto with unbound.
    + intros. apply io_unbound_free_bind; [discriminate|].
      intros. apply io_unbound_free_ret.
Qed.

Lemma io_unbound_free_shoot_up (r ucrj rhsj u : list Qc) (i : Z) :
  increasing r = true -> (0 <= i)%Z ->
  io_unbound_free (shoot_up r ucrj rhsj u i).
Proof.
  intros Hr Hi. unfold shoot_up.
  apply io_unbound_free_bind.
  - apply io_unbound_free_lift. do 3 unbound_step.
    apply rk4_bound_nonzero, lt_minus_nonzero.
    exact (index_consecutive r i _ _ Hr Hi H0 H).
  - intros v _. apply io_unbound_free_bind;
      [apply io_unbound_free_lift; auto with unbound|].
    intros u1 _. destruct (v <? 0)%Qc; [|apply io_unbound_free_ret].
    apply io_unbound_free_bind.
    + apply io_unbound_free_lift. unbound_step. auto with unbound.
    + intros. apply io_unbound_free_bind; [discriminate|].
      intros. apply io_unbound_free_ret.
Qed.

Lemma io_unbound_free_slope2curve (r : list Qc) (iC : Z) (rpt upt : Qc)
  (dUdrpt : Qc * Qc) (ucrj rhsj : list Qc) :
  increasing r = true -> (0 <= iC)%Z ->
  io_unbound_free (slope2curve r iC rpt upt dUdrpt ucrj rhsj).
Proof.
  intros Hr Hi. unfold slope2curve.
  apply io_unbound_free_bind.
  - apply io_unbound_free_lift. unfold seed.
    repeat unbound_step; auto with unbound.
  - intros u0 _. apply io_unbound_free_bind.
    + apply io_unbound_free_foldM. intros s x Hx.
      apply in_range_down in Hx.
      apply io_unbound_free_shoot_down; [exact Hr | lia].
    + intros u1 _. apply io_unbound_free_foldM. intros s x Hx.
      apply in_range_up in Hx.
      apply io_unbound_free_shoot_up; [exact Hr | lia].
Qed.

(** ** The integrator: claims about [rk4] *)

Lemma rk4_body_increment (dr : Qc) (r : list Qc) (dfdr : SlopeSource)
  (s s' : rk4_state) :
  rk4_body dr r dfdr s = Ret s' ->
  exists deltar k1 k2 k3 k4 : Qc,
    rk4_deltar dr r dfdr s = Ret deltar /\
    dfdrval (fstep s) (rstep s) r dfdr = Ret k1 /\
    dfdrval (fstep s + half * (dr * k1)) (rstep s + half * deltar) r dfdr
      = Ret k2 /\
    dfdrval (fstep s + half * (dr * k2)) (rstep s + half * deltar) r dfdr
      = Ret k3 /\
    dfdrval (fstep s + dr * k3) (rstep s + deltar) r dfdr = Ret k4 /\
    fstep s' = (fstep s + (dr * k1 + dr * k4) / Num.dec 6 1
                        + (dr * k2 + dr * k3) / Num.dec 3 1)%Qc /\
    rstep s' = (rstep s + deltar)%Qc.
Proof.
  unfold rk4_body. intro B. bind_inv B. bind_inv B.
  inversion B; subst s'; clear B. simpl.
  unfold rk4_advance in Ha0.
  bind_inv Ha0. bind_inv Ha0. bind_inv Ha0. bind_inv Ha0.
  inversion Ha0; subst a0; clear Ha0.
  exists a, a1, a2, a3, a4. repeat split; assumption.
Qed.

(** C1: on the grid [0, 1] with the constant slope 1, integrating from the
    value 1 over the distance 1, the integrator takes four sub-steps and
    each adds the slope times the whole distance 1, not times the sub-step:
    it returns 5, where the integrator of the claim (slopes scaled by the
    sub-step's own step size) returns 2.  In general a sub-step of [rk4] adds
    [(pk1 + pk4)/6 + (pk2 + pk3)/3] with every [pk] equal to [dr] times a
    slope. *)
Theorem rk4_slopes_scaled_by_whole_distance :
  (forall (dr : Qc) (r : list Qc) (dfdr : SlopeSource) (s s' : rk4_state),
     rk4_body dr r dfdr s = Ret s' ->
     exists deltar k1 k2 k3 k4 : Qc,
       rk4_deltar dr r dfdr s = Ret deltar /\
       dfdrval (fstep s) (rstep s) r dfdr = Ret k1 /\
       dfdrval (fstep s + half * (dr * k1)) (rstep s + half * deltar) r dfdr
         = Ret k2 /\
       dfdrval (fstep s + half * (dr * k2)) (rstep s + half * deltar) r dfdr
         = Ret k3 /\
       dfdrval (fstep s + dr * k3) (rstep s + deltar) r dfdr = Ret k4 /\
       fstep s' = (fstep s + (dr * k1 + dr * k4) / Num.dec 6 1
                           + (dr * k2 + dr * k3) / Num.dec 3 1)%Qc /\
       rstep s' = (rstep s + deltar)%Qc)
  /\ rk4_substeps (num 1) (num 0) (num 1) [num 0; num 1]
       (Plain [num 1; num 1]) = Ret 4%nat
  /\ show (rk4 (num 1) (num 0) (num 1) [num 0; num 1]
             (Plain [num 1; num 1])) = Ret (5 # 1)%Q
  /\ show (classical_rk4 (num 1) (num 0) (num 1) [num 0; num 1]
             (Plain [num 1; num 1])) = Ret (2 # 1)%Q.
Proof.
  split; [exact rk4_body_increment|].
  repeat split; vm_compute; reflexivity.
Qed.

(** *** The sub-steps in binary64 *)

Section Binary64.
Local Open Scope float_scope.

Lemma b64_checked_ret (x y z v : float) : B64.checked x y z = Ret v -> v = z.
Proof.
  unfold B64.checked. destruct (_ && _); [discriminate|].
  intro H; inversion H; reflexivity.
Qed.

Lemma b64_add_ret (x y v : float) : B64.add x y = Ret v -> v = x + y.
Proof. apply b64_checked_ret. Qed.

Lemma b64_sub_ret (x y v : float) : B64.sub x y = Ret v -> v = x - y.
Proof. apply b64_checked_ret. Qed.

Lemma b64_mul_ret (x y v : float) : B64.mul x y = Ret v -> v = x * y.
Proof. apply b64_checked_ret. Qed.

Lemma b64_div_ret (x y v : float) : B64.div x y = Ret v -> v = x / y.
Proof.
  unfold B64.div. destruct (_ && _); [discriminate | apply b64_checked_ret].
Qed.

(** A sum of two numbers without a sign has none: the distance stepped is
    never negative and never the negative zero. *)
Lemma SFabs_round_aux (mx ex : Z) (lx : location) :
  SFabs (binary_round_aux prec emax false mx ex lx)
  = binary_round_aux prec emax false mx ex lx.
Proof.
  unfold binary_round_aux.
  destruct (shr_fexp prec emax mx ex lx) as [m1 e1].
  destruct (shr_fexp prec emax _ e1 loc_Exact) as [m2 e2].
  destruct (shr_m m2); [reflexivity | | reflexivity].
  destruct (Z.leb _ _); reflexivity.
Qed.

Lemma SFabs_add (a b : spec_float) :
  SFabs a = a -> SFabs (SF64add a (SFabs b)) = SF64add a (SFabs b).
Proof.
  unfold SF64add.
  destruct a as [[|] | [|] | | [|] ma ea]; try discriminate;
    destruct b as [sb | sb | | sb mb eb]; intros _; try reflexivity.
  cbn [SFabs SFadd cond_Zopp].
  destruct (shl_align ma ea _) as [mz ez].
  destruct (shl_align mb eb _) as [mz' ez'].
  cbn [fst Z.add binary_normalize]. unfold binary_round.
  destruct (shl_align _ _ _) as [mz2 ez2].
  apply SFabs_round_aux.
Qed.

Lemma b64_abs_add_abs (x y : float) :
  abs x = x -> abs (x + abs y) = x + abs y.
Proof.
  intro H. apply Prim2SF_inj.
  rewrite abs_spec, add_spec, abs_spec.
  apply SFabs_add. rewrite <- abs_spec, H. reflexivity.
Qed.

(** Two numbers compare one way or the other; a NaN compares in none. *)
Lemma SFcompare_refl (a : spec_float) :
  a <> S754_nan -> SFcompare a a = Some Eq.
Proof.
  destruct a as [s | [|] | | [|] m e]; intro H; try reflexivity;
    try (exfalso; apply H; reflexivity);
    simpl; rewrite Z.compare_refl;
    change (Pos.compare_cont Eq m m) with (Pos.compare m m);
    rewrite Pos.compare_refl; reflexivity.
Qed.

Lemma b64_nan_spec (x : float) : is_nan x = true <-> Prim2SF x = S754_nan.
Proof.
  unfold is_nan. rewrite eqb_spec. unfold SFeqb. split.
  - intro H. destruct (Prim2SF x) eqn:E; try reflexivity;
      rewrite SFcompare_refl in H by discriminate; discriminate.
  - intro E. rewrite E. reflexivity.
Qed.

Lemma SF_tests_complementary (a b : spec_float) :
  a <> S754_nan -> b <> S754_nan -> SFltb a b || SFleb b a = true.
Proof.
  unfold SFltb, SFleb.
  destruct a as [sa | [|] | | [|] ma ea];
    destruct b as [sb | [|] | | [|] mb eb];
    intros Ha Hb; try reflexivity;
    try (exfalso; apply Ha; reflexivity);
    try (exfalso; apply Hb; reflexivity);
    try (destruct sa; reflexivity); try (destruct sb; reflexivity);
    simpl; rewrite (Z.compare_antisym ea eb);
    destruct (Z.compare ea eb); try reflexivity;
    change (Pos.compare_cont Eq mb ma) with (Pos.compare mb ma);
    change (Pos.compare_cont Eq ma mb) with (Pos.compare ma mb);
    rewrite (Pos.compare_antisym ma mb);
    destruct (Pos.compare ma mb); reflexivity.
Qed.

Lemma b64_xion_assigned (a b : float) (xion : option Z) :
  is_nan a = false -> is_nan b = false -> B64.xion_after a b xion <> None.
Proof.
  intros Ha Hb.
  assert (C : (a <? b) || (b <=? a) = true).
  { rewrite ltb_spec, leb_spec. apply SF_tests_complementary; intro E;
      apply b64_nan_spec in E; congruence. }
  unfold B64.xion_after.
  destruct (b <=? a); [discriminate|].
  rewrite orb_false_r in C. rewrite C. discriminate.
Qed.

Lemma b64_xion_unbound (a b : float) (xion : option Z) :
  is_nan a = true \/ is_nan b = true -> B64.xion_after a b xion = xion.
Proof.
  intro H. unfold B64.xion_after. rewrite ltb_spec, leb_spec.
  unfold SFltb, SFleb.
  destruct H as [H | H]; apply b64_nan_spec in H; rewrite H.
  - destruct (Prim2SF b); reflexivity.
  - destruct (Prim2SF a); reflexivity.
Qed.

(** The step size of a pass: the adaptive one, or the forced one. *)
Lemma b64_deltar_shape (slope_at : float -> float -> res float)
  (dr : float) (s : B64.rk4_state) (deltar : float) :
  B64.rk4_deltar slope_at dr s = Ret deltar ->
  ((exists slope : float,
      slope_at (B64.fstep s) (B64.rstep s) = Ret slope /\
      deltar = B64.sign dr
               * abs (B64.adaptiveconstant / (slope / B64.fstep s)) /\
      (B64.stepstaken s <= 100)%nat /\
      (abs dr <? abs (B64.stepstotal s) + abs deltar) = false)
   \/ deltar = B64.sign dr * (abs dr - abs (B64.stepstotal s)))
  /\ ((100 < B64.stepstaken s)%nat ->
      deltar = B64.sign dr * (abs dr - abs (B64.stepstotal s))).
Proof.
  unfold B64.rk4_deltar. intro H.
  bind_inv H. simpl in H. bind_inv H. bind_inv H. simpl in H.
  bind_inv H. simpl in H. bind_inv H.
  apply b64_div_ret in Ha0, Ha1.
  apply b64_mul_ret in Ha2. apply b64_add_ret in Ha3. subst a3.
  destruct ((abs dr <? abs (B64.stepstotal s) + abs a2)
            || Nat.ltb 100 (B64.stepstaken s)) eqn:E.
  - assert (D : deltar = B64.sign dr * (abs dr - abs (B64.stepstotal s))).
    { simpl in H. bind_inv H. apply b64_sub_ret in Ha3. subst a3.
      apply b64_mul_ret in H. exact H. }
    split; [right; exact D | intros _; exact D].
  - inversion H; subst deltar; clear H.
    apply orb_false_iff in E. destruct E as [E1 E2].
    apply Nat.ltb_ge in E2.
    split; [left; exists a | intro K; lia].
    repeat split; try assumption. subst a2 a1 a0. reflexivity.
Qed.

Lemma b64_body_shape (slope_at : float -> float -> res float)
  (dr : float) (s s' : B64.rk4_state) :
  B64.rk4_body slope_at dr s = Ret s' ->
  B64.stepstaken s' = S (B64.stepstaken s) /\
  exists deltar : float,
    B64.rk4_deltar slope_at dr s = Ret deltar /\
    B64.rstep s' = B64.rstep s + deltar /\
    B64.stepstotal s' = B64.stepstotal s + abs deltar.
Proof.
  unfold B64.rk4_body. intro H.
  bind_inv H. bind_inv H. simpl in H. bind_inv H. bind_inv H.
  inversion H; subst s'; clear H. simpl.
  apply b64_add_ret in Ha1, Ha2.
  split; [reflexivity|]. exists a. repeat split; assumption.
Qed.

Lemma b64_total_abs (slope_at : float -> float -> res float) (dr : float)
  (s s' : B64.rk4_state) :
  B64.rk4_reaches slope_at dr s s' ->
  abs (B64.stepstotal s) = B64.stepstotal s ->
  abs (B64.stepstotal s') = B64.stepstotal s'.
Proof.
  induction 1 as [s | s s1 s2 _ B _ IH]; intro A; [exact A|].
  apply IH. destruct (b64_body_shape _ _ _ _ B) as (_ & d & _ & _ & T).
  rewrite T. apply b64_abs_add_abs. exact A.
Qed.

Lemma b64_substep (slope_at : float -> float -> res float)
  (fi ri dr : float) (s s' : B64.rk4_state) :
  B64.rk4_reaches slope_at dr (B64.rk4_init fi ri) s ->
  B64.rk4_body slope_at dr s = Ret s' ->
  B64.stepstaken s' = S (B64.stepstaken s)
  /\ (B64.adaptive slope_at dr s s' \/ B64.forced dr s s')
  /\ ((100 < B64.stepstaken s)%nat -> B64.forced dr s s').
Proof.
  intros R B.
  assert (A : abs (B64.stepstotal s) = B64.stepstotal s).
  { apply (b64_total_abs _ _ _ _ R). reflexivity. }
  destruct (b64_body_shape _ _ _ _ B) as (N & d & D & P & T).
  destruct (b64_deltar_shape _ _ _ _ D) as [C F]. rewrite A in C, F.
  split; [exact N|]. unfold B64.adaptive, B64.forced. split.
  - destruct C as [(k & K & Ed & C1 & C2) | C].
    + left. exists k. split; [exact K|]. cbv zeta. rewrite <- Ed.
      repeat split; try assumption. rewrite T. exact C2.
    + right. subst d. split; assumption.
  - intro K. specialize (F K). subst d. split; assumption.
Qed.

(** Fuel beyond what a call needs changes nothing. *)
Lemma b64_loop_more_fuel (slope_at : float -> float -> res float)
  (dr : float) (fuel : nat) : forall (fuel' : nat) (s s' : B64.rk4_state),
  B64.rk4_loop slope_at fuel dr s = Ret s' -> (fuel <= fuel')%nat ->
  B64.rk4_loop slope_at fuel' dr s = Ret s'.
Proof.
  induction fuel as [| fuel IH]; intros fuel' s s'; simpl;
    destruct (abs (B64.stepstotal s) <? abs dr) eqn:C; intros H L;
    try discriminate.
  - destruct fuel'; simpl; rewrite C; exact H.
  - destruct fuel' as [| fuel']; [lia|]. simpl. rewrite C.
    destruct (B64.rk4_body slope_at dr s) as [s1 | e |]; simpl in *;
      try discriminate.
    apply IH; [exact H | lia].
  - destruct fuel'; simpl; rewrite C; exact H.
Qed.

Lemma b64_exit_more_fuel (fuel fuel' : nat) (fi ri dr : float)
  (r dfdr : list float) (v : nat * float * float) :
  B64.rk4_exit fuel fi ri dr r dfdr = Ret v -> (fuel <= fuel')%nat ->
  B64.rk4_exit fuel' fi ri dr r dfdr = Ret v.
Proof.
  unfold B64.rk4_exit, B64.rk4_run. intros H L. bind_inv H.
  rewrite (b64_loop_more_fuel _ _ _ _ _ _ Ha L). exact H.
Qed.

End Binary64.

(** The loop in exact arithmetic: it ends within the fuel 102, and more
    fuel changes nothing; in every state it passes through the distance
    stepped is between 0 and [|dr|] and at most 102 sub-steps have been
    taken; and the state it ends in has stepped exactly [|dr|]. *)
Lemma rk4_loop_exact (fi ri dr : Qc) (r : list Qc) (dfdr : SlopeSource) :
  finishes (rk4_run fi ri dr r dfdr)
  /\ (forall fuel : nat, (rk4_fuel <= fuel)%nat ->
        rk4_loop fuel dr r dfdr (rk4_init fi ri) = rk4_run fi ri dr r dfdr)
  /\ (forall s : rk4_state,
        rk4_reaches dr r dfdr (rk4_init fi ri) s ->
        (0 <= stepstotal s)%Qc /\ (stepstotal s <= Qcabs dr)%Qc /\
        (stepstaken s <= 102)%nat)
  /\ (forall s : rk4_state,
        rk4_run fi ri dr r dfdr = Ret s ->
        rk4_reaches dr r dfdr (rk4_init fi ri) s /\
        stepstotal s = Qcabs dr).
Proof.
  assert (F : finishes (rk4_run fi ri dr r dfdr)).
  { apply rk4_loop_finishes; [apply within_init | simpl; lia]. }
  split; [exact F|]. split; [|split].
  - intros fuel L. apply rk4_loop_more_fuel; assumption.
  - intros s R.
    destruct (within_reaches _ _ _ _ _ R (within_init fi ri dr))
      as (H0 & H1 & H2).
    repeat split; try assumption. destruct H2 as [H2 | [H2 _]]; lia.
  - intros s H. destruct (rk4_loop_reaches _ _ _ _ _ _ H) as [R E].
    split; [exact R|].
    destruct (within_reaches _ _ _ _ _ R (within_init fi ri dr))
      as (H0 & H1 & _).
    apply ltb_false in E. rewrite (abs_of_nonneg _ H0) in E.
    apply Qcle_antisym; assumption.
Qed.



(** C10: [rk4] called with the distance 0 never enters its loop and fails
    on [return ff] with an unbound local, whatever the other arguments; with
    a distance other than 0 it never fails that way; and on a strictly
    increasing grid no caller ([waveaction], [outflows], [slope2curve])
    passes the distance 0, so none of them fails that way. *)
Theorem rk4_zero_distance_is_unbound :
  (forall (fi ri : Qc) (r : list Qc) (dfdr : SlopeSource),
     rk4 fi ri 0%Qc r dfdr = Raise UnboundLocalError)
  /\ (forall (fi ri dr : Qc) (r : list Qc) (dfdr : SlopeSource),
        dr <> 0%Qc -> unbound_free (rk4 fi ri dr r dfdr))
  /\ (forall r : list Qc, increasing r = true ->
        (forall (k : Z) (a b : Qc), (0 <= k)%Z ->
           index r k = Ret a -> index r (k + 1) = Ret b ->
           (b - a)%Qc <> 0%Qc /\ (a - b)%Qc <> 0%Qc)
        /\ (forall (steps : Z) (RSj : list Qc),
              unbound_free (intRS_row r steps RSj))
        /\ (forall (nsteps : Z) (rhs : list (list Qc)) (j : Z),
              unbound_free (F_row r nsteps rhs j))
        /\ (forall (iC : Z) (rpt upt : Qc) (dUdrpt : Qc * Qc)
                   (ucrj rhsj : list Qc), (0 <= iC)%Z ->
              io_unbound_free (slope2curve r iC rpt upt dUdrpt ucrj rhsj))).
Proof.
  split; [exact rk4_unbound_zero|]. split; [exact rk4_bound_nonzero|].
  intros r Hr. repeat split.
  - apply lt_minus_nonzero. exact (index_consecutive r k a b Hr H H0 H1).
  - apply gt_minus_nonzero. exact (index_consecutive r k a b Hr H H0 H1).
  - intros. apply unbound_free_intRS_row, Hr.
  - intros. apply unbound_free_F_row, Hr.
  - intros. apply io_unbound_free_slope2curve; assumption.
Qed.

(** ** The outer fixed-point loop of [main] *)

Lemma fst_io_bind {A B : Type} (c : io A) (k : A -> io B) :
  fst (io_bind c k) = bind (fst c) (fun a => fst (k a)).
Proof.
  destruct c as [[a | e |] out]; simpl; trivial. destruct (k a); reflexivity.
Qed.

Section MainLoop.

Variable prospero_single : list Qc -> io (list Qc).
Variable power : Qc -> Qc -> res Qc.

Let body := iterate_body prospero_single power.
Let loop := iterate_loop prospero_single power.
Let after := iterate_n prospero_single power.

Lemma iterate_body_counts (s s' : iterate) :
  fst (body s) = Ret s' -> it s' = S (it s).
Proof.
  unfold body, iterate_body. rewrite !fst_io_bind. intro H.
  bind_inv H. rewrite fst_io_bind in H. bind_inv H.
  rewrite fst_io_bind in H. bind_inv H.
  rewrite fst_io_bind in H. bind_inv H.
  simpl in H. inversion H. reflexivity.
Qed.

Lemma continue_below_cap (s : iterate) :
  continue s = true -> (it s < 300)%nat.
Proof.
  unfold continue. intro H. apply orb_true_iff in H.
  destruct H as [H | H].
  - apply andb_true_iff in H. destruct H as [_ H].
    apply Nat.ltb_lt in H. exact H.
  - apply Nat.ltb_lt in H. lia.
Qed.

Lemma continue_false (s : iterate) :
  continue s = false ->
  (10 <= it s)%nat /\
  ((changemodel s <= threshold)%Qc \/ (300 <= it s)%nat).
Proof.
  unfold continue. intro H. apply orb_false_iff in H.
  destruct H as [H1 H2]. apply Nat.ltb_ge in H2. split; [exact H2|].
  apply andb_false_iff in H1. destruct H1 as [H1 | H1].
  - left. unfold Num.gtb in H1. apply ltb_false in H1. exact H1.
  - right. apply Nat.ltb_ge in H1. exact H1.
Qed.

(** What the loop does from a state [s], given fuel for the iterations
    that are left below the cap: either it returns the first state, among
    those after 0, 1, 2, ... passes, in which the loop test fails, or the
    body itself fails in a state in which the test held. *)
Lemma iterate_loop_spec (fuel : nat) : forall s : iterate,
  (300 <= it s + fuel)%nat ->
  (exists n s',
      fst (loop fuel s) = Ret s' /\ fst (after n s) = Ret s' /\
      continue s' = false /\ it s' = (it s + n)%nat /\
      forall m, (m < n)%nat ->
        exists sm, fst (after m s) = Ret sm /\ continue sm = true)
  \/ (exists m sm,
        fst (after m s) = Ret sm /\ continue sm = true /\
        fst (loop fuel s) = fst (body sm) /\
        forall s', fst (body sm) <> Ret s').
Proof.
  induction fuel as [| fuel IH]; intros s F.
  - unfold loop; simpl. destruct (continue s) eqn:C.
    + apply continue_below_cap in C. lia.
    + left. exists 0%nat, s. simpl. repeat split; trivial.
      intros m Hm. lia.
  - unfold loop; simpl. destruct (continue s) eqn:C.
    + fold loop. fold body. rewrite fst_io_bind.
      destruct (fst (body s)) as [s1 | e |] eqn:B; simpl.
      * assert (N : it s1 = S (it s)) by exact (iterate_body_counts _ _ B).
        destruct (IH s1) as [(n & s' & L & A & C' & I & P)
                            | (m & sm & A & C' & L & P)]; [lia | |].
        -- left. exists (S n), s'. unfold after; simpl. fold body.
           rewrite fst_io_bind, B. simpl. fold after.
           repeat split; trivial; [lia|].
           intros [| m] Hm.
           ++ exists s. simpl. split; trivial.
           ++ destruct (P m) as (sm & Am & Cm); [lia|].
              exists sm. simpl. fold body. rewrite fst_io_bind, B. simpl.
              fold after. split; assumption.
        -- right. exists (S m), sm. unfold after; simpl. fold body.
           rewrite fst_io_bind, B. simpl. fold after.
           repeat split; assumption.
      * right. exists 0%nat, s. simpl. rewrite B.
        repeat split; trivial. discriminate.
      * right. exists 0%nat, s. simpl. rewrite B.
        repeat split; trivial. discriminate.
    + left. exists 0%nat, s. simpl. repeat split; trivial.
      intros m Hm. lia.
Qed.

Lemma iterate_n_counts (n : nat) : forall s s' : iterate,
  fst (after n s) = Ret s' -> it s' = (it s + n)%nat.
Proof.
  induction n as [| n IH]; intros s s'; unfold after; simpl.
  - intro H. inversion H. lia.
  - fold body. rewrite fst_io_bind. intro H. bind_inv H. fold after in H.
    rewrite (IH _ _ H), (iterate_body_counts _ _ Ha). lia.
Qed.

End MainLoop.

(** C5: the loop of one model, entered with [it = 0] and the change 1,
    never runs out of the 300 iterations it is given.  Either it returns the
    guess reached after exactly [n] passes through its body, where
    [10 <= n <= 300], the change is at most 0.005 or [n = 300], and after
    every smaller number [m] of passes the loop test still held ([m < 10],
    or the change above 0.005 and [m < 300]); that guess is what
    [uout[j,:]] receives, also when [n = 300].  Or the body itself fails
    (an exception of the solver or of a division) after fewer than 300
    passes. *)
Theorem fixed_point_loop_floor_and_cap :
  forall (prospero_single : list Qc -> io (list Qc))
         (power : Qc -> Qc -> res Qc) (u1j : list Qc),
    (exists (n : nat) (s' : iterate),
        fst (iterate_loop prospero_single power 300
               (mkIterate u1j 1%Qc 0)) = Ret s' /\
        fst (iterate_n prospero_single power n (mkIterate u1j 1%Qc 0))
          = Ret s' /\
        it s' = n /\ (10 <= n <= 300)%nat /\
        ((changemodel s' <= threshold)%Qc \/ n = 300%nat) /\
        (forall m : nat, (m < n)%nat ->
           exists sm : iterate,
             fst (iterate_n prospero_single power m (mkIterate u1j 1%Qc 0))
               = Ret sm /\
             it sm = m /\
             ((m < 10)%nat \/
              ((threshold < changemodel sm)%Qc /\ (m < 300)%nat))) /\
        fst (converge_model prospero_single power u1j)
          = Ret (uinj s', n, changemodel s'))
    \/ (exists (m : nat) (sm : iterate),
          (m < 300)%nat /\
          fst (iterate_n prospero_single power m (mkIterate u1j 1%Qc 0))
            = Ret sm /\
          (forall s', fst (iterate_body prospero_single power sm) <> Ret s') /\
          fst (iterate_loop prospero_single power 300
                 (mkIterate u1j 1%Qc 0))
            = fst (iterate_body prospero_single power sm)).
Proof.
  intros P pw u1j.
  destruct (iterate_loop_spec P pw 300 (mkIterate u1j 1%Qc 0))
    as [(n & s' & L & A & C & I & Q) | (m & sm & A & C & L & Q)];
    [simpl; lia | left | right].
  - simpl in I. exists n, s'.
    assert (M : forall m : nat, (m < n)%nat ->
              exists sm : iterate,
                fst (iterate_n P pw m (mkIterate u1j 1%Qc 0)) = Ret sm /\
                it sm = m /\
                ((m < 10)%nat \/
                 ((threshold < changemodel sm)%Qc /\ (m < 300)%nat))).
    { intros m Hm. destruct (Q m Hm) as (sm & Am & Cm).
      exists sm. split; [exact Am|].
      pose proof (iterate_n_counts P pw m _ _ Am) as Im. simpl in Im.
      split; [exact Im|].
      unfold continue in Cm. apply orb_true_iff in Cm.
      destruct Cm as [Cm | Cm].
      - apply andb_true_iff in Cm. destruct Cm as [C1 C2].
        right. split; [apply ltb_true, C1 | apply Nat.ltb_lt in C2; lia].
      - left. apply Nat.ltb_lt in Cm. lia. }
    destruct (continue_false _ C) as [Hfloor Hstop].
    assert (Hcap : (n <= 300)%nat).
    { destruct n as [| k]; [lia|].
      destruct (M k) as (sk & _ & _ & [Hk | [_ Hk]]); lia. }
    repeat split; trivial; try lia.
    + destruct Hstop as [Hstop | Hstop]; [left; exact Hstop | right; lia].
    + unfold converge_model. rewrite fst_io_bind, L. simpl. congruence.
  - exists m, sm.
    pose proof (iterate_n_counts P pw m _ _ A) as Im. simpl in Im.
    apply continue_below_cap in C.
    repeat split; trivial. lia.
Qed.

(** The floor and the cap at work: a solver that returns its argument stops
    after the 10 iterations of the floor, one whose result always differs
    from its argument stops after the 300 of the cap. *)
Example loop_stops_at_floor :
  show_converged (converge_model solve_same power_one [num 1; num 1])
  = Ret ([1; 1]%Q, 10%nat, 0%Q).
Proof. vm_compute. reflexivity. Qed.

Example loop_stops_at_cap :
  show_converged (converge_model solve_double power_one [num 1; num 1])
  = Ret ([1; 1]%Q, 300%nat, 1%Q).
Proof. vm_compute. reflexivity. Qed.

(** ** Arrays: reading back what was stored *)

Lemma upd_length {A : Type} (l : list A) : forall (n : nat) (v : A),
  length (upd l n v) = length l.
Proof.
  induction l as [| a l IH]; intros [| n] v; simpl; trivial.
  rewrite IH. reflexivity.
Qed.

Lemma upd_same {A : Type} (l : list A) : forall (n : nat) (v : A),
  (n < length l)%nat -> nth_error (upd l n v) n = Some v.
Proof.
  induction l as [| a l IH]; intros [| n] v H; simpl in *; try lia; trivial.
  apply IH. lia.
Qed.

Lemma upd_other {A : Type} (l : list A) : forall (n m : nat) (v : A),
  n <> m -> nth_error (upd l n v) m = nth_error l m.
Proof.
  induction l as [| a l IH]; intros [| n] [| m] v H; simpl; trivial;
    try contradiction.
  apply IH. congruence.
Qed.

Lemma store_ret {A : Type} (l l' : list A) (i : Z) (v : A) :
  store l i v = Ret l' ->
  (0 <= py_pos l i < Z.of_nat (length l))%Z /\
  l' = upd l (Z.to_nat (py_pos l i)) v.
Proof.
  unfold store.
  destruct (py_pos l i <? 0)%Z eqn:E1; simpl; [discriminate|].
  destruct (Z.of_nat (length l) <=? py_pos l i)%Z eqn:E2; [discriminate|].
  intro H. inversion H. apply Z.ltb_ge in E1. apply Z.leb_gt in E2.
  split; [lia | reflexivity].
Qed.

Lemma index_ret {A : Type} (l : list A) (i : Z) (a : A) :
  index l i = Ret a <->
  (0 <= py_pos l i)%Z /\ nth_error l (Z.to_nat (py_pos l i)) = Some a.
Proof.
  unfold index. destruct (py_pos l i <? 0)%Z eqn:E.
  - apply Z.ltb_lt in E. split; [discriminate | lia].
  - apply Z.ltb_ge in E.
    destruct (nth_error l (Z.to_nat (py_pos l i))) as [b |]; split.
    + intro H. inversion H. auto.
    + intros [_ H]. inversion H. reflexivity.
    + discriminate.
    + intros [_ H]. discriminate.
Qed.

Lemma py_pos_nonneg {A : Type} (l : list A) (i : Z) :
  (0 <= i)%Z -> py_pos l i = i.
Proof.
  intro H. unfold py_pos. destruct (i <? 0)%Z eqn:E; trivial.
  apply Z.ltb_lt in E. lia.
Qed.

Lemma py_pos_length {A : Type} (l l' : list A) (i : Z) :
  length l = length l' -> py_pos l i = py_pos l' i.
Proof. unfold py_pos. intros ->. reflexivity. Qed.

Lemma index_store_same {A : Type} (l l' : list A) (i : Z) (v : A) :
  store l i v = Ret l' -> index l' i = Ret v.
Proof.
  intro H. apply store_ret in H. destruct H as [R ->].
  apply index_ret.
  rewrite <- (py_pos_length l (upd l _ v) i)
    by (symmetry; apply upd_length).
  split; [lia|]. apply upd_same. lia.
Qed.

(** ** [argmin] returns a position of the minimum *)

Lemma argmin_from_spec (l : list Qc) : forall (best : Z) (bestv : Qc) (k : Z),
  exists vp : Qc,
    ((argmin_from best bestv k l = best /\ vp = bestv)
     \/ exists n : nat,
          argmin_from best bestv k l = (k + Z.of_nat n)%Z /\
          nth_error l n = Some vp) /\
    (vp <= bestv)%Qc /\
    forall (n : nat) (v : Qc), nth_error l n = Some v -> (vp <= v)%Qc.
Proof.
  induction l as [| x l IH]; intros best bestv k; simpl.
  - exists bestv. split; [left; auto|]. split; [apply Qcle_refl|].
    intros [| n] v H; discriminate.
  - destruct (x <? bestv)%Qc eqn:E.
    + destruct (IH k x (k + 1)%Z) as (vp & W & L & M).
      exists vp. split; [|split].
      * right. destruct W as [[W1 W2] | (n & W1 & W2)].
        -- exists 0%nat. simpl. rewrite W1, W2.
           split; [lia | reflexivity].
        -- exists (S n). simpl. rewrite W1. split; [lia | exact W2].
      * apply ltb_true in E.
        exact (Qcle_trans _ _ _ L (Qclt_le_weak _ _ E)).
      * intros [| n] v H; simpl in H.
        -- inversion H; subst. exact L.
        -- exact (M n v H).
    + destruct (IH best bestv (k + 1)%Z) as (vp & W & L & M).
      exists vp. split; [|split].
      * destruct W as [[W1 W2] | (n & W1 & W2)].
        -- left. auto.
        -- right. exists (S n). simpl. rewrite W1. split; [lia | exact W2].
      * exact L.
      * intros [| n] v H; simpl in H.
        -- inversion H; subst. apply ltb_false in E.
           exact (Qcle_trans _ _ _ L E).
        -- exact (M n v H).
Qed.

Lemma argmin_spec (l : list Qc) (p : Z) :
  argmin l = Ret p ->
  exists vp : Qc,
    (0 <= p)%Z /\ nth_error l (Z.to_nat p) = Some vp /\
    forall (n : nat) (v : Qc), nth_error l n = Some v -> (vp <= v)%Qc.
Proof.
  destruct l as [| x l]; simpl; [discriminate|]. intro H. inversion H.
  destruct (argmin_from_spec l 0 x 1) as (vp & W & L & M).
  exists vp. destruct W as [[W1 W2] | (n & W1 & W2)]; rewrite W1.
  - subst vp. split; [lia|]. split; [reflexivity|].
    intros [| n] v Hn; simpl in Hn;
      [inversion Hn; apply Qcle_refl | exact (M n v Hn)].
  - split; [lia|]. split.
    + replace (Z.to_nat (1 + Z.of_nat n)) with (S n) by lia. exact W2.
    + intros [| m] v Hn; simpl in Hn;
        [inversion Hn; subst; exact L | exact (M m v Hn)].
Qed.

(** ** Element-wise operations *)

Lemma zipM_nth {A B C : Type} (f : A -> B -> res C) (l : list A) :
  forall (m : list B) (cs : list C),
  zipM f l m = Ret cs ->
  length cs = length l /\
  forall (k : nat) (a : A) (b : B),
    nth_error l k = Some a -> nth_error m k = Some b ->
    exists c, f a b = Ret c /\ nth_error cs k = Some c.
Proof.
  induction l as [| a l IH]; intros [| b m] cs H; simpl in H;
    try discriminate.
  - inversion H. split; trivial. intros [| k]; discriminate.
  - bind_inv H. bind_inv H. inversion H; subst cs.
    destruct (IH _ _ Ha0) as [Hl Hn]. split; [simpl; congruence|].
    intros [| k] a' b' H1 H2; simpl in *.
    + inversion H1; inversion H2; subst. eauto.
    + exact (Hn k a' b' H1 H2).
Qed.

Lemma zipM_length {A B C : Type} (f : A -> B -> res C) (l : list A) :
  forall (m : list B) (cs : list C),
  zipM f l m = Ret cs -> length m = length l.
Proof.
  induction l as [| a l IH]; intros [| b m] cs H; simpl in H;
    try discriminate; trivial.
  bind_inv H. bind_inv H. simpl. rewrite (IH _ _ Ha0). reflexivity.
Qed.

(** ** Mass-flux conservation in [fullRHS] *)

Lemma flux_identity (flux b u : Qc) :
  b <> 0%Qc -> u <> 0%Qc -> (flux * (b / u) * u / b)%Qc = flux.
Proof. intros Hb Hu. field. split; assumption. Qed.

(** C4: when the density row of model [j] is computed, there is the index
    [iTR] whose height is nearest the transition-region height of the model
    ([argmin] of the distances), and the flux [rho_TR * u_TR / B_TR] taken
    there, with [rho_TR = 10**(-21.904 - 3.349*log10(zTR))]; the row has
    [steps] entries and at every index where the field is not zero,
    [rho * u / B] is that flux. *)
Theorem mass_flux_is_conserved :
  forall (log10 : Qc -> res Qc) (pow10 : Qc -> Qc) (r : list Qc) (steps : Z)
         (B T : list (list Qc)) (zTR : list Qc) (u : list (list Qc))
         (j : Z) (rho : list Qc),
    density_model log10 pow10 r steps B T zTR u j = Ret rho ->
    exists (iTR : Z) (zTRj zi l uTR BTR flux : Qc) (Bj uj : list Qc),
      index zTR j = Ret zTRj /\ index B j = Ret Bj /\ index u j = Ret uj /\
      argmin (map (fun z => Qcabs (z - zTRj)) (heights r)) = Ret iTR /\
      index (heights r) iTR = Ret zi /\
      (forall (k : Z) (z : Qc), index (heights r) k = Ret z ->
         (Qcabs (zi - zTRj) <= Qcabs (z - zTRj))%Qc) /\
      log10 zTRj = Ret l /\
      index uj iTR = Ret uTR /\ index Bj iTR = Ret BTR /\
      (pow10 (Num.dec (-21904) 1000 - Num.dec 3349 1000 * l)%Qc * uTR)%Qc
        /! BTR = Ret flux /\
      Z.of_nat (length rho) = steps /\
      forall (k : Z) (b : Qc), index Bj k = Ret b -> b <> 0%Qc ->
        exists rk uk : Qc,
          index rho k = Ret rk /\ index uj k = Ret uk /\
          (rk * uk)%Qc /! b = Ret flux.
Proof.
  intros log10 pow10 r steps B T zTR u j rho H.
  unfold density_model in H. bind_split H as anc Hanc.
  destruct anc as [iTR rhoj].
  unfold anchor in Hanc. bind_split Hanc as Tj HTj. bind_split Hanc as c Hc.
  bind_split Hanc as zTRj HzTR. bind_split Hanc as l Hl.
  bind_split Hanc as zTRj' HzTR'. bind_split Hanc as i Hi.
  bind_split Hanc as rhoj' Hst. inversion Hanc; subst i rhoj'; clear Hanc.
  assert (zTRj' = zTRj) by congruence. subst zTRj'.
  bind_split H as rhoTR HrhoTR. bind_split H as uj Huj. bind_split H as uTR HuTR.
  bind_split H as Bj HBj. bind_split H as BTR HBTR. bind_split H as flux Hflux.
  bind_split H as Bj' HBj'. assert (Bj' = Bj) by congruence. subst Bj'.
  bind_split H as uj' Huj'. assert (uj' = uj) by congruence. subst uj'.
  bind_split H as ratio Hratio.
  destruct (negb (Z.of_nat (length ratio) =? steps)%Z) eqn:E;
    [discriminate|].
  inversion H; subst rho; clear H.
  apply negb_false_iff, Z.eqb_eq in E.
  (* the density put at the anchor is read back *)
  rewrite (index_store_same _ _ _ _ Hst) in HrhoTR.
  inversion HrhoTR; subst rhoTR; clear HrhoTR.
  (* the anchor is a nearest index *)
  destruct (argmin_spec _ _ Hi) as (vp & Hp & Hvp & Hmin).
  rewrite nth_error_map in Hvp.
  destruct (nth_error (heights r) (Z.to_nat iTR)) as [zi |] eqn:Ezi;
    [|discriminate].
  simpl in Hvp. inversion Hvp; subst vp; clear Hvp.
  destruct (zipM_nth _ _ _ _ Hratio) as [Hlen Hnth].
  pose proof (zipM_length _ _ _ _ Hratio) as Hlen'.
  exists iTR, zTRj, zi, l, uTR, BTR, flux, Bj, uj.
  repeat (split; [assumption|]).
  split; [apply index_ret; rewrite py_pos_nonneg by exact Hp; auto|].
  split.
  { intros k z Hk. apply index_ret in Hk. destruct Hk as [_ Hk].
    apply (Hmin (Z.to_nat (py_pos (heights r) k))).
    rewrite nth_error_map, Hk. reflexivity. }
  repeat (split; [assumption|]).
  split; [rewrite length_map; exact E|].
  intros k b Hk Hb. apply index_ret in Hk. destruct Hk as [Hk0 Hk].
  destruct (nth_error uj (Z.to_nat (py_pos Bj k))) as [uk |] eqn:Euk.
  2:{ apply nth_error_None in Euk.
      assert (N : nth_error Bj (Z.to_nat (py_pos Bj k)) <> None)
        by congruence.
      apply nth_error_Some in N. lia. }
  destruct (Hnth _ _ _ Hk Euk) as (q & Hq & Hqn).
  apply div_ret in Hq. destruct Hq as [Hu ->].
  exists (flux * (b / uk))%Qc, uk.
  split; [|split].
  - apply index_ret.
    rewrite <- (py_pos_length Bj) by (rewrite length_map; congruence).
    split; [exact Hk0|]. rewrite nth_error_map, Hqn. reflexivity.
  - apply index_ret.
    rewrite <- (py_pos_length Bj uj) by congruence. split; assumption.
  - apply div_ret. split; [exact Hb|].
    symmetry. apply flux_identity; assumption.
Qed.

(** The theorem at work on the three radii of [radii3]. *)
Lemma mass_flux_is_conserved_witness :
  density_model log10_coarse pow10_coarse radii3 3 B3 T3 zTR3 u3 0
    = Ret rho3
  /\ exists (iTR : Z) (zTRj zi l uTR BTR flux : Qc) (Bj uj : list Qc),
      index zTR3 0 = Ret zTRj /\ index B3 0 = Ret Bj /\
      index u3 0 = Ret uj /\
      argmin (map (fun z => Qcabs (z - zTRj)) (heights radii3)) = Ret iTR /\
      index (heights radii3) iTR = Ret zi /\
      (forall (k : Z) (z : Qc), index (heights radii3) k = Ret z ->
         (Qcabs (zi - zTRj) <= Qcabs (z - zTRj))%Qc) /\
      log10_coarse zTRj = Ret l /\
      index uj iTR = Ret uTR /\ index Bj iTR = Ret BTR /\
      (pow10_coarse (Num.dec (-21904) 1000 - Num.dec 3349 1000 * l)%Qc
       * uTR)%Qc /! BTR = Ret flux /\
      Z.of_nat (length rho3) = 3%Z /\
      forall (k : Z) (b : Qc), index Bj k = Ret b -> b <> 0%Qc ->
        exists rk uk : Qc,
          index rho3 k = Ret rk /\ index uj k = Ret uk /\
          (rk * uk)%Qc /! b = Ret flux.
Proof.
  split; [vm_compute; reflexivity|].
  apply (mass_flux_is_conserved log10_coarse pow10_coarse radii3 3 B3 T3
           zTR3 u3 0 rho3).
  vm_compute. reflexivity.
Defined.


Example density_of_three_radii :
  show_list
    (density_model log10_coarse pow10_coarse radii3 3 B3 T3 zTR3 u3 0)
  = Ret [5 # 2251799813685248; 1 # 1125899906842624;
         5 # 18014398509481984]%Q.
Proof. vm_compute. reflexivity. Qed.

(** ** Loops over index ranges *)

Lemma nth_error_range_up (a b : Z) (n : nat) :
  (Z.of_nat n < b - a)%Z ->
  nth_error (range_up a b) n = Some (a + Z.of_nat n)%Z.
Proof.
  intro H. unfold range_up. rewrite nth_error_map.
  rewrite nth_error_seq.
  destruct (Nat.ltb n (Z.to_nat (b - a))) eqn:E; simpl.
  - reflexivity.
  - apply Nat.ltb_ge in E. lia.
Qed.

Lemma mapM_nth {A B : Type} (f : A -> res B) (l : list A) :
  forall out : list B,
  mapM f l = Ret out ->
  length out = length l /\
  forall (n : nat) (x : A), nth_error l n = Some x ->
    exists y, f x = Ret y /\ nth_error out n = Some y.
Proof.
  induction l as [| a l IH]; intros out H; simpl in H.
  - inversion H. split; trivial. intros [| n]; discriminate.
  - bind_split H as b Hb. bind_split H as bs Hbs. inversion H; subst out.
    destruct (IH _ Hbs) as [Hl Hn]. split; [simpl; congruence|].
    intros [| n] x Hx; simpl in *.
    + inversion Hx; subst. eauto.
    + exact (Hn n x Hx).
Qed.

Lemma mapM_range_up {B : Type} (f : Z -> res B) (a b : Z) (out : list B)
  (k : Z) :
  mapM f (range_up a b) = Ret out -> (a <= k < b)%Z ->
  exists y, f k = Ret y /\ nth_error out (Z.to_nat (k - a)) = Some y.
Proof.
  intros H Hk. destruct (mapM_nth _ _ _ H) as [_ Hn].
  destruct (Hn (Z.to_nat (k - a)) k) as (y & Hy & Hy').
  - rewrite nth_error_range_up by lia. f_equal. lia.
  - eauto.
Qed.

(** ** [quickDeriv] inside the grid: the centered difference *)

Lemma quickDeriv_row_centered (f r d : list Qc) (steps k : Z) :
  quickDeriv_row f r steps = Ret d -> (1 <= k <= steps - 2)%Z ->
  exists v, slope_between f r (k + 1) (k - 1) = Ret v /\ index d k = Ret v.
Proof.
  unfold quickDeriv_row. intros H Hk.
  destruct (steps <? 0)%Z; [discriminate|].
  bind_split H as d0 Hd0.
  destruct (steps =? 0)%Z; [discriminate|].
  bind_split H as mids Hmids. bind_split H as dl Hdl.
  destruct (steps =? 1)%Z eqn:E1; [apply Z.eqb_eq in E1; lia|].
  inversion H; subst d; clear H.
  destruct (mapM_range_up _ _ _ _ k Hmids) as (v & Hv & Hn); [lia|].
  exists v. split; [exact Hv|].
  apply index_ret. rewrite py_pos_nonneg by lia. split; [lia|].
  replace (Z.to_nat k) with (S (Z.to_nat (k - 1))) by lia. simpl.
  rewrite nth_error_app1; [exact Hn|].
  apply nth_error_Some. congruence.
Qed.

Lemma quickDeriv_model (f D : list (list Qc)) (r : list Qc)
  (fsets steps j : Z) :
  quickDeriv f r fsets steps = Ret D -> (0 <= j < fsets)%Z ->
  exists fj dj,
    index f j = Ret fj /\ quickDeriv_row fj r steps = Ret dj /\
    index D j = Ret dj.
Proof.
  unfold quickDeriv. intros H Hj.
  destruct ((fsets <? 0)%Z || (steps <? 0)%Z); [discriminate|].
  destruct (mapM_range_up _ _ _ _ j H) as (dj & Hdj & Hn); [lia|].
  bind_split Hdj as fj Hfj. exists fj, dj. repeat split; trivial.
  apply index_ret. rewrite py_pos_nonneg by lia. split; [lia|].
  replace (j - 0)%Z with j in Hn by lia. exact Hn.
Qed.

(** ** Printing computations *)

Lemma io_bind_ret {A B : Type} (c : io A) (k : A -> io B) (b : B)
  (out : list msg) :
  io_bind c k = (Ret b, out) ->
  exists a out1 out2,
    c = (Ret a, out1) /\ k a = (Ret b, out2) /\ out = out1 ++ out2.
Proof.
  destruct c as [[a | e |] out1]; simpl; try discriminate.
  destruct (k a) as [rb out2] eqn:K. intro H. inversion H; subst.
  exists a, out1, out2. auto.
Qed.

Lemma lift_ret {A : Type} (c : res A) (a : A) (out : list msg) :
  lift c = (Ret a, out) -> c = Ret a /\ out = nil.
Proof. unfold lift. intro H. inversion H. auto. Qed.

(** Splits [x <~ c ;; k = (Ret b, out)], and [x <~ lift c ;; k] likewise. *)
Tactic Notation "io_split" hyp(H) "as" ident(a) ident(o) ident(Ha) :=
  let o2 := fresh "out" in
  let E := fresh "E" in
  apply io_bind_ret in H; destruct H as (a & o & o2 & Ha & H & E);
  subst.

Tactic Notation "io_split" hyp(H) "as" ident(a) ident(o) ident(Ha)
  "rest" ident(o2) :=
  let E := fresh "E" in
  apply io_bind_ret in H; destruct H as (a & o & o2 & Ha & H & E);
  subst.

Tactic Notation "lift_split" hyp(H) "as" ident(a) ident(Ha) :=
  let o := fresh "out" in
  let o2 := fresh "out" in
  let E := fresh "E" in
  let E1 := fresh "E" in
  apply io_bind_ret in H; destruct H as (a & o & o2 & Ha & H & E);
  apply lift_ret in Ha; destruct Ha as [Ha E1]; subst; simpl app in *.

Lemma io_mapM_nth {A B : Type} (f : A -> io B) (l : list A) :
  forall (bs : list B) (out : list msg),
  io_mapM f l = (Ret bs, out) ->
  length bs = length l /\
  forall (n : nat) (x : A), nth_error l n = Some x ->
    exists y outx,
      f x = (Ret y, outx) /\ nth_error bs n = Some y /\
      forall m, In m outx -> In m out.
Proof.
  induction l as [| a l IH]; intros bs out H; simpl in H.
  - inversion H. split; trivial. intros [| n]; discriminate.
  - io_split H as b o1 Hb. io_split H as bs' o2 Hbs.
    inversion H; subst; clear H.
    destruct (IH _ _ Hbs) as [Hl Hn]. split; [simpl; congruence|].
    intros [| n] x Hx; simpl in Hx.
    + inversion Hx; subst. exists b, o1. repeat split; trivial.
      intros m Hm. apply in_or_app. left. exact Hm.
    + destruct (Hn n x Hx) as (y & outx & Hy & Hy' & Hin).
      exists y, outx. repeat split; trivial.
      intros m Hm. apply in_or_app. right. apply in_or_app. left. auto.
Qed.

(** ** The critical-slope resolver *)

(** Once its four array reads succeed, the body of [critSlope] returns for
    every sign of the radicand, and prints exactly when the radicand is not
    positive. *)
Lemma critSlope_model_eq (sqrt : Qc -> Qc) (r ucrj dNdrj duCdrj : list Qc)
  (ic : Z) (uC rC dN duC : Qc) :
  index ucrj ic = Ret uC -> index r ic = Ret rC ->
  index dNdrj ic = Ret dN -> index duCdrj ic = Ret duC ->
  critSlope_model sqrt r ucrj dNdrj duCdrj ic
  = (Ret (rC, uC,
          (half * (duC + sqrt (if (duC ^ 2 + Num.dec 2 1 * dN <=? 0)%Qc
                               then 0%Qc
                               else (duC ^ 2 + Num.dec 2 1 * dN)%Qc)))%Qc),
     if (duC ^ 2 + Num.dec 2 1 * dN <=? 0)%Qc then [InvalidSqrt] else []).
Proof.
  intros H1 H2 H3 H4. unfold critSlope_model.
  rewrite H1, H2, H3, H4.
  destruct (duC ^ 2 + Num.dec 2 1 * dN <=? 0)%Qc eqn:E;
    unfold lift, io_bind; rewrite E; reflexivity.
Qed.

Lemma lt_leb (x y : Qc) : (x < y)%Qc -> (x <=? y)%Qc = true.
Proof. intro H. apply leb_true, Qclt_le_weak, H. Qed.


(** ** The shooting propagator *)

Lemma index_nat {A : Type} (l : list A) (k : Z) (a : A) :
  (0 <= k)%Z ->
  (index l k = Ret a <-> nth_error l (Z.to_nat k) = Some a).
Proof.
  intro Hk. rewrite index_ret, py_pos_nonneg by exact Hk.
  split; [intros [_ H]; exact H | intro H; split; [exact Hk | exact H]].
Qed.

Lemma store_nat {A : Type} (l l' : list A) (k : Z) (v : A) :
  (0 <= k)%Z -> store l k v = Ret l' ->
  (Z.to_nat k < length l)%nat /\ l' = upd l (Z.to_nat k) v.
Proof.
  intros Hk H. apply store_ret in H. rewrite py_pos_nonneg in H by exact Hk.
  destruct H as [R E]. split; [lia | exact E].
Qed.

Lemma range_up_cons (a b : Z) :
  (a < b)%Z -> range_up a b = a :: range_up (a + 1) b.
Proof.
  intro H. unfold range_up.
  replace (Z.to_nat (b - a)) with (S (Z.to_nat (b - (a + 1)))) by lia.
  simpl. f_equal; [lia|].
  rewrite <- seq_shift, map_map. apply map_ext. intro k. lia.
Qed.

Lemma range_up_nil (a b : Z) : (b <= a)%Z -> range_up a b = nil.
Proof.
  intro H. unfold range_up.
  replace (Z.to_nat (b - a)) with 0%nat by lia. reflexivity.
Qed.

Lemma range_down_cons (a b : Z) :
  (b < a)%Z -> range_down a b = a :: range_down (a - 1) b.
Proof.
  intro H. unfold range_down.
  replace (Z.to_nat (a - b)) with (S (Z.to_nat (a - 1 - b))) by lia.
  simpl. f_equal; [lia|].
  rewrite <- seq_shift, map_map. apply map_ext. intro k. lia.
Qed.

Lemma range_down_nil (a b : Z) : (a <= b)%Z -> range_down a b = nil.
Proof.
  intro H. unfold range_down.
  replace (Z.to_nat (a - b)) with 0%nat by lia. reflexivity.
Qed.

Lemma shoot_down_shot (r ucrj rhsj u u1 : list Qc) (out : list msg) (i : Z) :
  shoot_down r ucrj rhsj u i = (Ret u1, out) -> (1 <= i)%Z ->
  shot r ucrj rhsj u u1 out i (i - 1) (NegativeDown i).
Proof.
  intros H Hi. unfold shoot_down in H.
  lift_split H as v Hv. bind_split Hv as rlo Hrlo. bind_split Hv as ri Hri.
  bind_split Hv as ui Hui. lift_split H as w Hw.
  apply store_nat in Hw; [|lia]. destruct Hw as [Hlt ->].
  assert (Hne : Z.to_nat (i - 1) <> Z.to_nat i) by lia.
  destruct (v <? 0)%Qc eqn:E.
  - lift_split H as u2 Hu2. bind_split Hu2 as ui' Hui'.
    io_split H as t o Hp. inversion Hp; subst; clear Hp.
    inversion H; subst; clear H.
    apply index_nat in Hui'; [|lia]. rewrite upd_other in Hui' by exact Hne.
    apply index_nat in Hui; [|lia].
    assert (ui' = ui) by congruence. subst ui'.
    apply store_nat in Hu2; [|lia]. destruct Hu2 as [Hlt2 ->].
    unfold shot. rewrite !upd_length. split; [reflexivity|]. split.
    + intros n Hn. rewrite !upd_other by congruence. reflexivity.
    + exists ri, rlo, ui, v. rewrite E.
      repeat split; trivial.
      * apply index_nat; [lia | exact Hui].
      * apply index_nat; [lia|]. apply upd_same.
        rewrite upd_length. exact Hlt.
  - inversion H; subst; clear H.
    unfold shot. rewrite upd_length. split; [reflexivity|]. split.
    + intros n Hn. rewrite upd_other by congruence. reflexivity.
    + exists ri, rlo, ui, v. rewrite E.
      repeat split; trivial.
      apply index_nat; [lia|]. apply upd_same. exact Hlt.
Qed.

Lemma shoot_up_shot (r ucrj rhsj u u1 : list Qc) (out : list msg) (i : Z) :
  shoot_up r ucrj rhsj u i = (Ret u1, out) -> (0 <= i)%Z ->
  shot r ucrj rhsj u u1 out i (i + 1) (NegativeUp i).
Proof.
  intros H Hi. unfold shoot_up in H.
  lift_split H as v Hv. bind_split Hv as rhi Hrhi. bind_split Hv as ri Hri.
  bind_split Hv as ui Hui. lift_split H as w Hw.
  apply store_nat in Hw; [|lia]. destruct Hw as [Hlt ->].
  assert (Hne : Z.to_nat (i + 1) <> Z.to_nat i) by lia.
  destruct (v <? 0)%Qc eqn:E.
  - lift_split H as u2 Hu2. bind_split Hu2 as ui' Hui'.
    io_split H as t o Hp. inversion Hp; subst; clear Hp.
    inversion H; subst; clear H.
    apply index_nat in Hui'; [|lia]. rewrite upd_other in Hui' by exact Hne.
    apply index_nat in Hui; [|lia].
    assert (ui' = ui) by congruence. subst ui'.
    apply store_nat in Hu2; [|lia]. destruct Hu2 as [Hlt2 ->].
    unfold shot. rewrite !upd_length. split; [reflexivity|]. split.
    + intros n Hn. rewrite !upd_other by congruence. reflexivity.
    + exists ri, rhi, ui, v. rewrite E.
      repeat split; trivial.
      * apply index_nat; [lia | exact Hui].
      * apply index_nat; [lia|]. apply upd_same.
        rewrite upd_length. exact Hlt.
  - inversion H; subst; clear H.
    unfold shot. rewrite upd_length. split; [reflexivity|]. split.
    + intros n Hn. rewrite upd_other by congruence. reflexivity.
    + exists ri, rhi, ui, v. rewrite E.
      repeat split; trivial.
      apply index_nat; [lia|]. apply upd_same. exact Hlt.
Qed.

Lemma propagated_later (r ucrj rhsj u u' : list Qc) (log log' : list msg)
  (i i' : Z) (w : msg) :
  propagated r ucrj rhsj u log i i' w ->
  (0 <= i)%Z -> (0 <= i')%Z ->
  nth_error u' (Z.to_nat i) = nth_error u (Z.to_nat i) ->
  nth_error u' (Z.to_nat i') = nth_error u (Z.to_nat i') ->
  (In w log' <-> In w log) ->
  propagated r ucrj rhsj u' log' i i' w.
Proof.
  intros (ri & ri' & ui & v & H1 & H2 & H3 & H4 & H5 & H6) Hi Hi' E E' L.
  exists ri, ri', ui, v. repeat split; trivial.
  - apply index_nat; [exact Hi|]. rewrite E. apply index_nat; assumption.
  - apply index_nat; [exact Hi'|]. rewrite E'. apply index_nat; assumption.
  - intro Hv. apply L, H6, Hv.
  - intro Hw. apply H6, L, Hw.
Qed.

Lemma shot_propagated (r ucrj rhsj u u1 : list Qc) (out : list msg)
  (i i' : Z) (w : msg) :
  shot r ucrj rhsj u u1 out i i' w -> (0 <= i)%Z -> i <> i' -> (0 <= i')%Z ->
  propagated r ucrj rhsj u1 out i i' w.
Proof.
  intros (Hl & Hst & ri & ri' & ui & v & H1 & H2 & H3 & H4 & H5 & H6)
         Hi Hne Hi'.
  exists ri, ri', ui, v. repeat split; trivial.
  - apply index_nat; [exact Hi|]. rewrite Hst by lia.
    apply index_nat; assumption.
  - intro Hv. apply ltb_true in Hv. rewrite Hv in H6. subst out.
    left. reflexivity.
  - intro Hw. subst out. destruct (v <? 0)%Qc eqn:E.
    + apply ltb_true, E.
    + destruct Hw.
Qed.

Lemma down_loop (r ucrj rhsj : list Qc) (n : nat) :
  forall (a : Z) (u0 u' : list Qc) (log : list msg),
  io_foldM (shoot_down r ucrj rhsj) (range_down a (a - Z.of_nat n)) u0
    = (Ret u', log) ->
  (0 <= a - Z.of_nat n)%Z ->
  length u' = length u0 /\
  (forall k : nat, (Z.to_nat a <= k)%nat ->
     nth_error u' k = nth_error u0 k) /\
  (forall i : Z, (a - Z.of_nat n < i <= a)%Z ->
     propagated r ucrj rhsj u' log i (i - 1) (NegativeDown i)) /\
  (forall m : msg, In m log ->
     exists i : Z, m = NegativeDown i /\ (a - Z.of_nat n < i <= a)%Z).
Proof.
  induction n as [| n IH]; intros a u0 u' log H Ha.
  - rewrite range_down_nil in H by lia. inversion H; subst.
    repeat split; trivial; try (intros; lia). intros m [].
  - replace (a - Z.of_nat (S n))%Z with (a - 1 - Z.of_nat n)%Z in *
      by lia.
    rewrite range_down_cons in H by lia. cbn [io_foldM] in H.
    io_split H as u1 o1 Hstep rest o2.
    destruct (IH _ _ _ _ H Ha) as (Hl & Hst & Hp & Hm).
    pose proof (shoot_down_shot _ _ _ _ _ _ _ Hstep ltac:(lia)) as Hshot.
    pose proof (shot_propagated _ _ _ _ _ _ _ _ _ Hshot
                  ltac:(lia) ltac:(lia) ltac:(lia)) as Hprop.
    destruct Hshot as (Hl1 & Hst1 & Hshot).
    assert (Ho1 : forall m, In m o1 -> m = NegativeDown a).
    { destruct Hshot as (? & ? & ? & v & _ & _ & _ & _ & _ & ->).
      destruct (v <? 0)%Qc; intros m Hin;
        [destruct Hin as [<- | []]; reflexivity | destruct Hin]. }
    split; [congruence|]. split; [|split].
    + intros k Hk. rewrite Hst by lia. apply Hst1. lia.
    + intros i Hi. destruct (Z.eq_dec i a) as [-> | Hne].
      * apply (propagated_later _ _ _ u1 u' o1); trivial; try lia.
        -- apply Hst. lia.
        -- apply Hst. lia.
        -- split; [|intro; apply in_or_app; left; assumption].
           intro Hin. apply in_app_or in Hin. destruct Hin as [Hin | Hin];
             [exact Hin|].
           destruct (Hm _ Hin) as (i & Ei & Hi'). inversion Ei. lia.
      * apply (propagated_later _ _ _ u' u' o2); trivial; try lia.
        -- apply Hp. lia.
        -- split; [|intro; apply in_or_app; right; assumption].
           intro Hin. apply in_app_or in Hin. destruct Hin as [Hin | Hin];
             [|exact Hin].
           apply Ho1 in Hin. inversion Hin. contradiction.
    + intros m Hin. apply in_app_or in Hin. destruct Hin as [Hin | Hin].
      * exists a. split; [apply Ho1, Hin | lia].
      * destruct (Hm _ Hin) as (i & Ei & Hi'). exists i. split; [exact Ei | lia].
Qed.

Lemma up_loop (r ucrj rhsj : list Qc) (n : nat) :
  forall (a : Z) (u0 u' : list Qc) (log : list msg),
  io_foldM (shoot_up r ucrj rhsj) (range_up a (a + Z.of_nat n)) u0
    = (Ret u', log) ->
  (0 <= a)%Z ->
  length u' = length u0 /\
  (forall k : nat, (k <= Z.to_nat a)%nat ->
     nth_error u' k = nth_error u0 k) /\
  (forall i : Z, (a <= i < a + Z.of_nat n)%Z ->
     propagated r ucrj rhsj u' log i (i + 1) (NegativeUp i)) /\
  (forall m : msg, In m log ->
     exists i : Z, m = NegativeUp i /\ (a <= i < a + Z.of_nat n)%Z).
Proof.
  induction n as [| n IH]; intros a u0 u' log H Ha.
  - rewrite range_up_nil in H by lia. inversion H; subst.
    repeat split; trivial; try (intros; lia). intros m [].
  - replace (a + Z.of_nat (S n))%Z with (a + 1 + Z.of_nat n)%Z in *
      by lia.
    rewrite range_up_cons in H by lia. cbn [io_foldM] in H.
    io_split H as u1 o1 Hstep rest o2.
    destruct (IH _ _ _ _ H ltac:(lia)) as (Hl & Hst & Hp & Hm).
    pose proof (shoot_up_shot _ _ _ _ _ _ _ Hstep ltac:(lia)) as Hshot.
    pose proof (shot_propagated _ _ _ _ _ _ _ _ _ Hshot
                  ltac:(lia) ltac:(lia) ltac:(lia)) as Hprop.
    destruct Hshot as (Hl1 & Hst1 & Hshot).
    assert (Ho1 : forall m, In m o1 -> m = NegativeUp a).
    { destruct Hshot as (? & ? & ? & v & _ & _ & _ & _ & _ & ->).
      destruct (v <? 0)%Qc; intros m Hin;
        [destruct Hin as [<- | []]; reflexivity | destruct Hin]. }
    split; [congruence|]. split; [|split].
    + intros k Hk. rewrite Hst by lia. apply Hst1. lia.
    + intros i Hi. destruct (Z.eq_dec i a) as [-> | Hne].
      * apply (propagated_later _ _ _ u1 u' o1); trivial; try lia.
        -- apply Hst. lia.
        -- apply Hst. lia.
        -- split; [|intro; apply in_or_app; left; assumption].
           intro Hin. apply in_app_or in Hin. destruct Hin as [Hin | Hin];
             [exact Hin|].
           destruct (Hm _ Hin) as (i & Ei & Hi'). inversion Ei. lia.
      * apply (propagated_later _ _ _ u' u' o2); trivial; try lia.
        -- apply Hp. lia.
        -- split; [|intro; apply in_or_app; right; assumption].
           intro Hin. apply in_app_or in Hin. destruct Hin as [Hin | Hin];
             [|exact Hin].
           apply Ho1 in Hin. inversion Hin. contradiction.
    + intros m Hin. apply in_app_or in Hin. destruct Hin as [Hin | Hin].
      * exists a. split; [apply Ho1, Hin | lia].
      * destruct (Hm _ Hin) as (i & Ei & Hi'). exists i. split; [exact Ei | lia].
Qed.

Lemma down_range (r ucrj rhsj : list Qc) (a b : Z) (u0 u' : list Qc)
  (log : list msg) :
  io_foldM (shoot_down r ucrj rhsj) (range_down a b) u0 = (Ret u', log) ->
  (0 <= b)%Z ->
  length u' = length u0 /\
  (forall k : nat, (Z.to_nat a <= k)%nat ->
     nth_error u' k = nth_error u0 k) /\
  (forall i : Z, (b < i <= a)%Z ->
     propagated r ucrj rhsj u' log i (i - 1) (NegativeDown i)) /\
  (forall m : msg, In m log ->
     exists i : Z, m = NegativeDown i /\ (b < i <= a)%Z).
Proof.
  intros H Hb. destruct (Z_le_gt_dec a b) as [L | G].
  - rewrite range_down_nil in H by exact L. inversion H; subst.
    repeat split; trivial; try (intros; lia). intros m [].
  - replace b with (a - Z.of_nat (Z.to_nat (a - b)))%Z in H by lia.
    destruct (down_loop _ _ _ _ _ _ _ _ H ltac:(lia)) as (H1 & H2 & H3 & H4).
    replace (a - Z.of_nat (Z.to_nat (a - b)))%Z with b in * by lia.
    auto.
Qed.

Lemma up_range (r ucrj rhsj : list Qc) (a b : Z) (u0 u' : list Qc)
  (log : list msg) :
  io_foldM (shoot_up r ucrj rhsj) (range_up a b) u0 = (Ret u', log) ->
  (0 <= a)%Z ->
  length u' = length u0 /\
  (forall k : nat, (k <= Z.to_nat a)%nat ->
     nth_error u' k = nth_error u0 k) /\
  (forall i : Z, (a <= i < b)%Z ->
     propagated r ucrj rhsj u' log i (i + 1) (NegativeUp i)) /\
  (forall m : msg, In m log ->
     exists i : Z, m = NegativeUp i /\ (a <= i < b)%Z).
Proof.
  intros H Ha. destruct (Z_le_gt_dec b a) as [L | G].
  - rewrite range_up_nil in H by exact L. inversion H; subst.
    repeat split; trivial; try (intros; lia). intros m [].
  - replace b with (a + Z.of_nat (Z.to_nat (b - a)))%Z in H by lia.
    destruct (up_loop _ _ _ _ _ _ _ _ H Ha) as (H1 & H2 & H3 & H4).
    replace (a + Z.of_nat (Z.to_nat (b - a)))%Z with b in * by lia.
    auto.
Qed.

Lemma store_length {A : Type} (l l' : list A) (i : Z) (v : A) :
  store l i v = Ret l' -> length l' = length l.
Proof.
  intro H. apply store_ret in H. destruct H as [_ ->]. apply upd_length.
Qed.

Lemma seed_length (r : list Qc) (iC : Z) (rpt upt : Qc) (dUdrpt : Qc * Qc)
  (u : list Qc) :
  seed r iC rpt upt dUdrpt = Ret u -> length u = length r.
Proof.
  unfold seed. intro H.
  bind_split H as r0 H0. bind_split H as u1 H1. bind_split H as r1 H2.
  bind_split H as u2 H3. bind_split H as v0 H4. bind_split H as rm H5.
  bind_split H as r0' H6. bind_split H as u3 H7. bind_split H as v1 H8.
  bind_split H as rp H9. bind_split H as r1' H10.
  rewrite (store_length _ _ _ _ H), (store_length _ _ _ _ H7),
    (store_length _ _ _ _ H3), (store_length _ _ _ _ H1).
  apply repeat_length.
Qed.



(** The inward step of that call: [rk4] integrates from 24/25 to a negative
    value, and the point 0 receives the 24/25 of the point 1 instead. *)
Example negative_velocity_replaced :
  returned (rk4 (Num.dec 24 25) (num 2) (num (-1)) grid6
              (CriticalOde (map (fun _ => 1%Qc) grid6)
                           (map (fun _ => Num.dec 49 7400) grid6))) = true
  /\ show (v <- rk4 (Num.dec 24 25) (num 2) (num (-1)) grid6
                 (CriticalOde (map (fun _ => 1%Qc) grid6)
                              (map (fun _ => Num.dec 49 7400) grid6)) ;;
           Ret (if (v <? 0)%Qc then 1%Qc else 0%Qc)) = Ret 1%Q
  /\ show (index shoot_out 0) = Ret (24 # 25)%Q
  /\ show (index shoot_out 1) = Ret (24 # 25)%Q
  /\ snd shoot_example = [NegativeDown 1].
Proof. repeat split; vm_compute; reflexivity. Qed.


(** At the index 1 of the first model the centered differences are
    [dN = 0.015] and [duC = 0.015], the radicand 0.030225, and the slope
    [0.5*(0.015 + 0.17385)]; with the right-hand side falling instead of
    rising, the radicand is negative, the slope is [0.5*duC] and the
    warning is printed. *)
Example slope_at_index_1 :
  map (fun t => this (snd t)) slopes_out = [3777 # 40000]%Q
  /\ snd slopes_example = []
  /\ (let falling := critSlope sqrt_floor grid5 1 5
                       [map (fun x => (- x)%Qc) rhsA] [ucrA] [1%Z] in
      (l <- fst falling ;; Ret (map (fun t => this (snd t)) l))
        = Ret [3 # 400]%Q
      /\ snd falling = [InvalidSqrt]).
Proof. repeat split; vm_compute; reflexivity. Qed.

(** ** The critical-point locator *)

(** C2: in the batch of the two models [rhsA], [rhsB], the right-hand side
    of the second model passes the sign-change test at no index, that of the
    first at the index 1.  The flags are created once, before the loop over
    the models, and never cleared: the flag the first model set at the index
    1 is still set when the second model is searched, and the second model
    receives the critical index 1.  Searched alone, it receives the
    sentinel. *)
Theorem root_flags_survive_across_models :
  mapM (sign_change rhsA) (range_up 1 (5 - 2)) = Ret [true; false]
  /\ mapM (sign_change rhsB) (range_up 1 (5 - 2)) = Ret [false; false]
  /\ flag_roots 5 [rhsA; rhsB] 0 (repeat false 5)
     = Ret [false; true; false; false; false]
  /\ flag_roots 5 [rhsA; rhsB] 1 [false; true; false; false; false]
     = Ret [false; true; false; false; false]
  /\ flag_roots 5 [rhsA; rhsB] 1 (repeat false 5) = Ret (repeat false 5)
  /\ locate grid5 2 5 [rhsA; rhsB] = (Ret [1; 1]%Z, [])
  /\ locate grid5 1 5 [rhsB]
     = (Ret [(-1)%Z], [NoCriticalPoint 0; IndexCritSentinel]).
Proof. repeat split; vm_compute; reflexivity. Qed.

(** C9: the second model of that batch has no candidate index, yet it is
    not marked with the sentinel and no warning is printed for it; the
    shooting propagator is invoked for it, at the index 1 it inherited, and
    the division by zero it runs into there ends the whole call: the first
    model, which is solved when it is passed alone, gets no result either.
    The sentinel, the warning and the profile left at zero are what the
    second model gets when it is passed alone, or first. *)
Theorem sentinel_missed_after_a_model_with_roots :
  mapM (sign_change rhsB) (range_up 1 (5 - 2)) = Ret [false; false]
  /\ locate grid5 2 5 [rhsA; rhsB] = (Ret [1; 1]%Z, [])
  /\ fst (outflows sqrt_floor grid5 2 5 [rhsA; rhsB] [ones5; ones5])
     = Raise FloatingPointError
  /\ returned (fst (outflows sqrt_floor grid5 1 5 [rhsA] [ones5])) = true
  /\ show_outflows (outflows sqrt_floor grid5 1 5 [rhsB] [ones5])
     = Ret [([0; 0; 0; 0; 0]%Q, 0%Q)]
  /\ locate grid5 2 5 [rhsB; rhsA]
     = (Ret [(-1)%Z; 1%Z], [NoCriticalPoint 0; IndexCritSentinel]).
Proof. repeat split; vm_compute; reflexivity. Qed.


(** *** The running integral, interval by interval *)

Lemma F_loop (r : list Qc) (rhs : list (list Qc)) (j : Z) (n : nat) :
  forall (a : Z) (F0 F' : list Qc) (f0 f' : Qc),
  foldM (F_step r rhs j) (range_up a (a + Z.of_nat n)) (F0, f0)
    = Ret (F', f') ->
  (0 <= a)%Z -> index F0 a = Ret f0 ->
  (forall k : nat, (k <= Z.to_nat a)%nat ->
     nth_error F' k = nth_error F0 k) /\
  (forall k : Z, (a <= k < a + Z.of_nat n)%Z -> integrated r rhs j F' k).
Proof.
  induction n as [| n IH]; intros a F0 F' f0 f' H Ha Hf0.
  - rewrite range_up_nil in H by lia. inversion H; subst.
    split; [reflexivity | intros; lia].
  - replace (a + Z.of_nat (S n))%Z with (a + 1 + Z.of_nat n)%Z in * by lia.
    rewrite range_up_cons in H by lia. cbn [foldM] in H.
    bind_split H as st1 Hstep. destruct st1 as [F1 f1].
    unfold F_step in Hstep.
    bind_split Hstep as rstart Hrs. bind_split Hstep as rnext Hrn.
    bind_split Hstep as rk Hrk. bind_split Hstep as rhsj Hrhsj.
    bind_split Hstep as v Hv. bind_split Hstep as F1' Hst.
    inversion Hstep; subst F1' f1; clear Hstep.
    assert (rk = rstart) by congruence. subst rk.
    pose proof (index_store_same _ _ _ _ Hst) as Hv1.
    apply store_nat in Hst; [|lia]. destruct Hst as [Hlt ->].
    destruct (IH _ _ _ _ _ H ltac:(lia) Hv1) as [Hst' Hint].
    assert (Hk0 : forall k : nat, (k <= Z.to_nat a)%nat ->
              nth_error F' k = nth_error F0 k).
    { intros k Hk. rewrite Hst' by lia. apply upd_other. lia. }
    split; [exact Hk0|].
    intros k Hk. destruct (Z.eq_dec k a) as [-> | Hne].
    + exists rstart, rnext, f0, v, rhsj. repeat split; trivial.
      * apply index_nat; [lia|]. rewrite Hk0 by lia.
        apply index_nat; [lia | exact Hf0].
      * apply index_nat; [lia|]. rewrite Hst' by lia.
        apply index_nat; [lia | exact Hv1].
    + apply Hint. lia.
Qed.

Lemma F_row_integrated (r : list Qc) (nsteps : Z) (rhs : list (list Qc))
  (j : Z) (F : list Qc) :
  F_row r nsteps rhs j = Ret F ->
  index F 0 = Ret 1%Qc /\
  forall k : Z, (0 <= k < nsteps - 1)%Z -> integrated r rhs j F k.
Proof.
  unfold F_row. intro H. bind_split H as F0 HF0. bind_split H as st Hst.
  inversion H; subst F; clear H. destruct st as [F' f'].
  pose proof (index_store_same _ _ _ _ HF0) as H0.
  destruct (Z_le_gt_dec (nsteps - 1) 0) as [L | G].
  - rewrite range_up_nil in Hst by lia. inversion Hst; subst.
    cbn [fst]. split; [exact H0 | intros; lia].
  - replace (nsteps - 1)%Z with (0 + Z.of_nat (Z.to_nat (nsteps - 1)))%Z
      in Hst by lia.
    destruct (F_loop _ _ _ _ _ _ _ _ _ Hst ltac:(lia) H0) as [Hk Hint].
    cbn [fst]. split.
    + apply index_nat; [lia|]. rewrite Hk by lia.
      apply index_nat in H0; [exact H0 | lia].
    + intros k Hk'. apply Hint. lia.
Qed.

(** *** The flags of the sign-change test *)

Lemma flag_loop (nsteps : Z) (rhs : list (list Qc)) (j : Z)
  (rhsj : list Qc) (n : nat) :
  index rhs j = Ret rhsj ->
  forall (a : Z) (fl0 fl : list bool),
  foldM (fun fl k =>
           rhsj <- index rhs j ;;
           t <- sign_change rhsj k ;;
           if t then store fl k true else Ret fl)
        (range_up a (a + Z.of_nat n)) fl0 = Ret fl ->
  (0 <= a)%Z ->
  forall m : nat,
    nth_error fl m = Some true <->
    (nth_error fl0 m = Some true \/
     ((a <= Z.of_nat m < a + Z.of_nat n)%Z /\
      sign_change rhsj (Z.of_nat m) = Ret true)).
Proof.
  intro Hj. induction n as [| n IH]; intros a fl0 fl H Ha m.
  - rewrite range_up_nil in H by lia. inversion H; subst.
    split; [auto | intros [E | [E _]]; [exact E | lia]].
  - replace (a + Z.of_nat (S n))%Z with (a + 1 + Z.of_nat n)%Z in * by lia.
    rewrite range_up_cons in H by lia. cbn [foldM] in H.
    bind_split H as fl1 Hstep. bind_split Hstep as rhsj' Hj'.
    assert (rhsj' = rhsj) by congruence. subst rhsj'.
    bind_split Hstep as t Ht.
    rewrite (IH _ _ _ H ltac:(lia) m). clear IH H.
    destruct t.
    + apply store_nat in Hstep; [|lia]. destruct Hstep as [Hlt ->].
      destruct (Nat.eq_dec m (Z.to_nat a)) as [-> | Hne].
      * rewrite upd_same by exact Hlt. rewrite Z2Nat.id by lia.
        split; [intros _ | auto].
        right. split; [lia | exact Ht].
      * rewrite upd_other by congruence.
        split; (intros [E | [E E']]; [left; exact E | right]);
          (split; [lia | exact E']).
    + inversion Hstep; subst fl1; clear Hstep.
      split; (intros [E | [E E']]; [left; exact E | right]).
      * split; [lia | exact E'].
      * split; [|exact E'].
        destruct (Z.eq_dec (Z.of_nat m) a) as [<- | Hne]; [|lia].
        congruence.
Qed.

Lemma repeat_false_nth (n m : nat) : nth_error (repeat false n) m <> Some true.
Proof.
  revert m. induction n as [| n IH]; intros [| m]; simpl;
    try discriminate. apply IH.
Qed.

Lemma where_from_in (fl : list bool) : forall (base k : Z),
  In k (where_from base fl) <->
  exists m : nat, k = (base + Z.of_nat m)%Z /\ nth_error fl m = Some true.
Proof.
  induction fl as [| b fl IH]; intros base k; simpl.
  - split; [intros [] | intros ([| m] & _ & H); discriminate].
  - assert (T : In k (where_from (base + 1) fl) <->
                exists m : nat, k = (base + Z.of_nat (S m))%Z /\
                                nth_error fl m = Some true).
    { rewrite IH. split; intros (m & E & H); exists m; split; trivial; lia. }
    destruct b; simpl; rewrite T; clear T.
    + split.
      * intros [<- | (m & E & H)];
          [exists 0%nat; split; [lia | reflexivity] | exists (S m); auto].
      * intros ([| m] & E & H); [left; lia | right; exists m; auto].
    + split.
      * intros (m & E & H). exists (S m). auto.
      * intros ([| m] & E & H); [discriminate | exists m; auto].
Qed.

Lemma flag_roots_fresh (nsteps : Z) (rhs : list (list Qc)) (j : Z)
  (rhsj : list Qc) (n : nat) (fl : list bool) :
  index rhs j = Ret rhsj ->
  flag_roots nsteps rhs j (repeat false n) = Ret fl ->
  forall k : Z, In k (where_true fl) <-> candidate nsteps rhsj k.
Proof.
  intros Hj H k. unfold where_true. rewrite where_from_in.
  unfold flag_roots in H. unfold candidate.
  destruct (Z_le_gt_dec (nsteps - 2) 1) as [L | G].
  - rewrite range_up_nil in H by lia. inversion H; subst.
    split; [|intros [R _]; lia].
    intros (m & _ & Hm). destruct (repeat_false_nth _ _ Hm).
  - replace (nsteps - 2)%Z with (1 + Z.of_nat (Z.to_nat (nsteps - 3)))%Z
      in H by lia.
    pose proof (flag_loop nsteps rhs j rhsj _ Hj _ _ _ H ltac:(lia)) as P.
    split.
    + intros (m & -> & Hm). apply P in Hm.
      destruct Hm as [Hm | [R Hm]];
        [destruct (repeat_false_nth _ _ Hm)|].
      split; [lia|]. replace (0 + Z.of_nat m)%Z with (Z.of_nat m) by lia.
      exact Hm.
    + intros [R Hs]. exists (Z.to_nat k). split; [lia|].
      apply P. right. rewrite Z2Nat.id by lia. split; [lia | exact Hs].
Qed.

(** *** The choice among the candidates *)

Lemma locate_model_fresh (nsteps : Z) (rhs F : list (list Qc)) (n : nat)
  (bf : bool) (ic0 : list Z) (j : Z) (st' : locator) (out : list msg)
  (rhsj Fj : list Qc) :
  locate_model nsteps rhs F (mkLocator (repeat false n) bf ic0) j
    = (Ret st', out) ->
  index rhs j = Ret rhsj -> index F j = Ret Fj ->
  forall kc : Z, candidate nsteps rhsj kc ->
  exists (k : Z) (fk : Qc),
    index (icrit st') j = Ret k /\ candidate nsteps rhsj k /\
    index Fj k = Ret fk /\
    forall (k' : Z) (fk' : Qc),
      candidate nsteps rhsj k' -> index Fj k' = Ret fk' -> (fk <= fk')%Qc.
Proof.
  intros H Hj HF kc Hkc. unfold locate_model in H. cbn [rootflag icrit] in H.
  lift_split H as fl Hfl.
  pose proof (flag_roots_fresh _ _ _ _ _ _ Hj Hfl) as Hroots.
  destruct (Nat.eqb (length (where_true fl)) 0) eqn:E.
  - apply Nat.eqb_eq in E. apply Hroots in Hkc.
    destruct (where_true fl); [destruct Hkc | discriminate].
  - lift_split H as ic Hic. inversion H; subst st'; clear H.
    cbn [icrit].
    bind_split Hic as Fj' HFj'. assert (Fj' = Fj) by congruence. subst Fj'.
    bind_split Hic as extrema Hex. bind_split Hic as xpt Hxpt.
    bind_split Hic as k Hk.
    destruct (argmin_spec _ _ Hxpt) as (vp & Hx0 & Hvp & Hmin).
    destruct (mapM_nth _ _ _ Hex) as [_ Hnth].
    apply index_nat in Hk; [|exact Hx0].
    destruct (Hnth _ _ Hk) as (fk & Hfk & Hfk').
    assert (fk = vp) by congruence. subst fk.
    exists k, vp. split; [exact (index_store_same _ _ _ _ Hic)|].
    split; [apply Hroots; exact (nth_error_In _ _ Hk)|].
    split; [exact Hfk|].
    intros k' fk' Hk' Hfk'2. apply Hroots in Hk'.
    destruct (In_nth_error _ _ Hk') as (q & Hq).
    destruct (Hnth _ _ Hq) as (y & Hy & Hy').
    assert (y = fk') by congruence. subst y.
    exact (Hmin _ _ Hy').
Qed.

Lemma locate_model_keeps (nsteps : Z) (rhs F : list (list Qc))
  (st st' : locator) (j : Z) (out : list msg) (m : nat) :
  locate_model nsteps rhs F st j = (Ret st', out) ->
  (0 <= j)%Z -> m <> Z.to_nat j ->
  nth_error (icrit st') m = nth_error (icrit st) m.
Proof.
  intros H Hj Hm. unfold locate_model in H. lift_split H as fl Hfl.
  destruct (Nat.eqb (length (where_true fl)) 0).
  - lift_split H as ic Hic. io_split H as t o Hp.
    inversion H; subst st'; clear H. cbn [icrit].
    apply store_nat in Hic; [|exact Hj]. destruct Hic as [_ ->].
    apply upd_other. congruence.
  - lift_split H as ic Hic. inversion H; subst st'; clear H. cbn [icrit].
    bind_split Hic as Fj HFj. bind_split Hic as extrema Hex.
    bind_split Hic as xpt Hxpt. bind_split Hic as k Hk.
    apply store_nat in Hic; [|exact Hj]. destruct Hic as [_ ->].
    apply upd_other. congruence.
Qed.

Lemma locate_loop_keeps (nsteps : Z) (rhs F : list (list Qc)) (n : nat) :
  forall (a : Z) (st st' : locator) (out : list msg),
  io_foldM (locate_model nsteps rhs F) (range_up a (a + Z.of_nat n)) st
    = (Ret st', out) ->
  (1 <= a)%Z ->
  nth_error (icrit st') 0 = nth_error (icrit st) 0.
Proof.
  induction n as [| n IH]; intros a st st' out H Ha.
  - rewrite range_up_nil in H by lia. inversion H. reflexivity.
  - replace (a + Z.of_nat (S n))%Z with (a + 1 + Z.of_nat n)%Z in * by lia.
    rewrite range_up_cons in H by lia. cbn [io_foldM] in H.
    io_split H as st1 o1 Hstep rest o2.
    rewrite (IH _ _ _ _ H ltac:(lia)).
    apply (locate_model_keeps _ _ _ _ _ _ _ _ Hstep); lia.
Qed.



(** Among the candidates 1, 3 and 5 of that model the running integral is
    0.99, 1 and 0.975: the index 5 is chosen. *)
Example three_candidates :
  mapM (sign_change rhsC) (range_up 1 (9 - 2))
  = Ret [true; false; true; false; true; false]
  /\ show_list (F_row grid9 9 [rhsC] 0)
     = Ret [1; 99 # 100; 99 # 100; 1; 199 # 200; 39 # 40; 97 # 100;
            49 # 50; 99 # 100]%Q
  /\ locate grid9 1 9 [rhsC] = (Ret [5%Z], []).
Proof. repeat split; vm_compute; reflexivity. Qed.

(** * Further properties of the code *)

(** ** [rk4]: where the integration ends, and when it is one classical step *)

Lemma sign_mul_abs (dr : Qc) : (Num.sign dr * Qcabs dr)%Qc = dr.
Proof.
  unfold Num.sign. destruct (dr ?= 0)%Qc eqn:E.
  - apply Qceq_alt in E. subst dr. rewrite abs_zero. ring.
  - apply Qclt_alt in E. rewrite Qcabs_neg by (apply Qclt_le_weak, E). ring.
  - apply Qcgt_alt in E. rewrite Qcabs_pos by (apply Qclt_le_weak, E). ring.
Qed.

Lemma abs_abs (x : Qc) : Qcabs (Qcabs x) = Qcabs x.
Proof. apply abs_of_nonneg, Qcabs_nonneg. Qed.

(** The step of one pass is the sign of [dr] times a distance. *)
Lemma rk4_deltar_signed (dr : Qc) (r : list Qc) (dfdr : SlopeSource)
  (s : rk4_state) (d : Qc) :
  within dr s -> (Qcabs (stepstotal s) <? Qcabs dr)%Qc = true ->
  rk4_deltar dr r dfdr s = Ret d ->
  d = (Num.sign dr * Qcabs d)%Qc.
Proof.
  intros W C H.
  destruct (within_running _ _ W C) as (Hlt & _ & Hdr).
  destruct W as (H0 & _ & _).
  unfold rk4_deltar in H.
  bind_split H as k Hk. bind_split H as dlnf Hd. bind_split H as q Hq.
  rewrite (abs_of_nonneg _ H0) in H.
  destruct ((stepstotal s + Qcabs (Num.sign dr * Qcabs q) >? Qcabs dr)%Qc
            || Nat.ltb 100 (stepstaken s));
    inversion H; subst d; clear H;
    rewrite Qcabs_Qcmult, (sign_abs _ Hdr), Qcmult_1_l.
  - rewrite (abs_of_nonneg _ (minus_nonneg _ _ Hlt)). reflexivity.
  - rewrite abs_abs. reflexivity.
Qed.

Lemma rk4_body_track (ri dr : Qc) (r : list Qc) (dfdr : SlopeSource)
  (s s' : rk4_state) :
  within dr s -> (Qcabs (stepstotal s) <? Qcabs dr)%Qc = true ->
  rk4_body dr r dfdr s = Ret s' ->
  rstep s = (ri + Num.sign dr * stepstotal s)%Qc ->
  rstep s' = (ri + Num.sign dr * stepstotal s')%Qc /\
  ff s' = Some (fstep s').
Proof.
  intros W C B T. unfold rk4_body in B.
  bind_split B as d Hd. bind_split B as fnew Hf.
  inversion B; subst s'; clear B. simpl. split; [|reflexivity].
  rewrite T. rewrite (rk4_deltar_signed _ _ _ _ _ W C Hd) at 1. ring.
Qed.

Lemma rk4_loop_track (ri dr : Qc) (r : list Qc) (dfdr : SlopeSource)
  (fuel : nat) : forall s s' : rk4_state,
  rk4_loop fuel dr r dfdr s = Ret s' -> within dr s ->
  rstep s = (ri + Num.sign dr * stepstotal s)%Qc ->
  rstep s' = (ri + Num.sign dr * stepstotal s')%Qc /\
  (s' = s \/ ff s' = Some (fstep s')).
Proof.
  induction fuel as [| fuel IH]; intros s s' H W T; simpl in H;
    destruct (Qcabs (stepstotal s) <? Qcabs dr)%Qc eqn:C;
    try discriminate;
    try (inversion H; subst s'; split; [exact T | left; reflexivity]).
  bind_split H as s1 B.
  destruct (rk4_body_track ri _ _ _ _ _ W C B T) as [T1 F1].
  destruct (within_body _ _ _ _ _ W C B) as [W1 _].
  destruct (IH _ _ H W1 T1) as [T' [-> | F']].
  - split; [exact T' | right; exact F1].
  - split; [exact T' | right; exact F'].
Qed.

(** In exact arithmetic the integration of [rk4] ends at [ri + dr], over
    the distance [|dr|]. *)
Lemma rk4_exact_target :
  forall (fi ri dr : Qc) (r : list Qc) (dfdr : SlopeSource) (s : rk4_state),
    rk4_run fi ri dr r dfdr = Ret s ->
    rstep s = (ri + dr)%Qc /\ stepstotal s = Qcabs dr /\
    (dr <> 0%Qc -> rk4 fi ri dr r dfdr = Ret (fstep s)) /\
    (dr = 0%Qc -> s = rk4_init fi ri).
Proof.
  intros fi ri dr r dfdr s H.
  destruct (rk4_loop_reaches _ _ _ _ _ _ H) as [R E].
  pose proof (within_reaches _ _ _ _ _ R (within_init fi ri dr))
    as (H0 & H1 & _).
  assert (St : stepstotal s = Qcabs dr).
  { apply ltb_false in E. rewrite (abs_of_nonneg _ H0) in E.
    apply Qcle_antisym; assumption. }
  destruct (rk4_loop_track ri _ _ _ _ _ _ H (within_init fi ri dr))
    as [T F]; [simpl; ring|].
  split; [rewrite T, St; f_equal; apply sign_mul_abs|].
  split; [exact St|]. split.
  - intro Hdr. unfold rk4. rewrite H. simpl.
    destruct F as [-> | F].
    + simpl in St. exfalso. apply Hdr. apply Qcabs_null. symmetry. exact St.
    + rewrite F. reflexivity.
  - intros ->. revert H. unfold rk4_run, rk4_fuel. simpl.
    intro H. inversion H. reflexivity.
Qed.

(** X1. The integration of [rk4] ends at [ri + dr] only up to the rounding
    of its sub-steps: in binary64 the call [rk4(1, 1, -1, [0, 1], [1, 1])]
    ends after six sub-steps at the position 5.55e-17, not 0, and the call
    [rk4(9.03125, 0, 1.99, [0, 64], [1, 1])] at 1.9900000000000002, not
    1.99.  In exact arithmetic it ends at [ri + dr], over the distance
    [|dr|], and the value returned is the last one computed; over the
    distance 0 nothing is computed. *)
Theorem rk4_ends_at_target :
  (forall fuel : nat, (6 <= fuel)%nat ->
     B64.rk4_exit fuel 1 1 (-1) [0; 1]%float [1; 1]%float
     = Ret (6%nat, 1%float, 5.5511151231257827e-17%float))
  /\ (forall fuel : nat, (2 <= fuel)%nat ->
        B64.rk4_exit fuel 9.03125 0 1.99 [0; 64]%float [1; 1]%float
        = Ret (2%nat, 1.9900000000000002%float, 1.9900000000000002%float))
  /\ (forall (fi ri dr : Qc) (r : list Qc) (dfdr : SlopeSource)
             (s : rk4_state),
        rk4_run fi ri dr r dfdr = Ret s ->
        rstep s = (ri + dr)%Qc /\ stepstotal s = Qcabs dr /\
        (dr <> 0%Qc -> rk4 fi ri dr r dfdr = Ret (fstep s)) /\
        (dr = 0%Qc -> s = rk4_init fi ri)).
Proof.
  split; [|split; [|exact rk4_exact_target]]; intros fuel L.
  - apply (b64_exit_more_fuel 6); [vm_compute; reflexivity | exact L].
  - apply (b64_exit_more_fuel 2); [vm_compute; reflexivity | exact L].
Qed.

Lemma rk4_loop_unfold (fuel : nat) (dr : Qc) (r : list Qc)
  (dfdr : SlopeSource) (s : rk4_state) :
  rk4_loop (S fuel) dr r dfdr s =
  if (Qcabs (stepstotal s) <? Qcabs dr)%Qc
  then s' <- rk4_body dr r dfdr s ;; rk4_loop fuel dr r dfdr s'
  else Ret s.
Proof. reflexivity. Qed.

Lemma rk4_loop_stop (fuel : nat) (dr : Qc) (r : list Qc)
  (dfdr : SlopeSource) (s : rk4_state) :
  (Qcabs (stepstotal s) <? Qcabs dr)%Qc = false ->
  rk4_loop fuel dr r dfdr s = Ret s.
Proof. intro C. destruct fuel; simpl; rewrite C; reflexivity. Qed.

Lemma classical_loop_stop (fuel : nat) (dr : Qc) (r : list Qc)
  (dfdr : SlopeSource) (s : rk4_state) :
  (Qcabs (stepstotal s) <? Qcabs dr)%Qc = false ->
  classical_loop fuel dr r dfdr s = Ret s.
Proof. intro C. destruct fuel; simpl; rewrite C; reflexivity. Qed.

Lemma div_of (x y : Qc) : y <> 0%Qc -> x /! y = Ret (x / y)%Qc.
Proof. intro H. apply div_ret. split; [exact H | reflexivity]. Qed.

Lemma div_by_zero (x : Qc) : x /! 0%Qc = Raise FloatingPointError.
Proof. reflexivity. Qed.

Lemma quotient_nonzero (x y : Qc) :
  x <> 0%Qc -> y <> 0%Qc -> (x / y)%Qc <> 0%Qc.
Proof.
  intros Hx Hy E. apply Hx.
  replace x with ((x / y) * y)%Qc by (field; exact Hy).
  rewrite E. ring.
Qed.

Lemma start_is_running (fi ri dr : Qc) :
  dr <> 0%Qc ->
  (Qcabs (stepstotal (rk4_init fi ri)) <? Qcabs dr)%Qc = true.
Proof.
  intro H. apply ltb_true. simpl. rewrite abs_zero.
  apply abs_nonzero_pos, H.
Qed.

Lemma done_after_whole_distance (dr : Qc) :
  (Qcabs (0 + Qcabs dr) <? Qcabs dr)%Qc = false.
Proof.
  apply ltb_false. rewrite Qcplus_0_l, abs_abs. apply Qcle_refl.
Qed.

(** The first step is the whole distance when the adaptive step is at least
    as long. *)
Lemma rk4_first_step_whole (fi ri dr k : Qc) (r : list Qc)
  (dfdr : SlopeSource) :
  dr <> 0%Qc -> dfdrval fi ri r dfdr = Ret k -> fi <> 0%Qc -> k <> 0%Qc ->
  (Qcabs dr <= Qcabs (adaptiveconstant / (k / fi)))%Qc ->
  rk4_deltar dr r dfdr (rk4_init fi ri) = Ret dr.
Proof.
  intros Hdr Hk Hfi Hk0 Hle. unfold rk4_deltar.
  cbn [rk4_init fstep rstep stepstotal stepstaken].
  rewrite Hk. cbn [bind]. rewrite (div_of _ _ Hfi). cbn [bind].
  rewrite (div_of _ _ (quotient_nonzero _ _ Hk0 Hfi)). cbn [bind].
  rewrite abs_zero, Qcabs_Qcmult, (sign_abs _ Hdr), Qcmult_1_l, abs_abs.
  rewrite Qcplus_0_l.
  change (Nat.ltb 100 0) with false. rewrite orb_false_r.
  destruct (_ >? _)%Qc eqn:E.
  - f_equal. replace (Qcabs dr - 0)%Qc with (Qcabs dr) by ring.
    apply sign_mul_abs.
  - unfold Num.gtb in E. apply ltb_false in E.
    rewrite (Qcle_antisym _ _ E Hle). f_equal. apply sign_mul_abs.
Qed.

(** X2. When the adaptive step at the start is at least as long as the
    whole distance [dr], [rk4] takes one step over [dr]: its result is the
    fourth-order combination of the four slopes at [ri], twice at
    [ri + dr/2] and at [ri + dr], and the integrator whose slopes are scaled
    by the step size of the sub-step gives the same. *)
Theorem rk4_one_step_is_classical :
  forall (fi ri dr k : Qc) (r : list Qc) (dfdr : SlopeSource),
    dr <> 0%Qc ->
    dfdrval fi ri r dfdr = Ret k -> fi <> 0%Qc -> k <> 0%Qc ->
    (Qcabs dr <= Qcabs (adaptiveconstant / (k / fi)))%Qc ->
    rk4 fi ri dr r dfdr = rk4_advance dr r dfdr (rk4_init fi ri) dr /\
    classical_rk4 fi ri dr r dfdr = rk4 fi ri dr r dfdr.
Proof.
  intros fi ri dr k r dfdr Hdr Hk Hfi Hk0 Hle.
  pose proof (rk4_first_step_whole _ _ _ _ _ _ Hdr Hk Hfi Hk0 Hle) as Hd.
  assert (E : rk4 fi ri dr r dfdr
              = rk4_advance dr r dfdr (rk4_init fi ri) dr).
  { unfold rk4, rk4_run, rk4_fuel.
    rewrite rk4_loop_unfold, (start_is_running _ _ _ Hdr).
    unfold rk4_body. rewrite Hd. cbn [bind].
    destruct (rk4_advance dr r dfdr (rk4_init fi ri) dr) as [v | e |];
      cbn [bind]; try reflexivity.
    rewrite rk4_loop_stop by (exact (done_after_whole_distance dr)).
    reflexivity. }
  split; [exact E|]. rewrite E.
  unfold classical_rk4, rk4_fuel.
  change (classical_loop 102 dr r dfdr (rk4_init fi ri))
    with (if (Qcabs (stepstotal (rk4_init fi ri)) <? Qcabs dr)%Qc
          then s' <- classical_body dr r dfdr (rk4_init fi ri) ;;
               classical_loop 101 dr r dfdr s'
          else Ret (rk4_init fi ri)).
  rewrite (start_is_running _ _ _ Hdr).
  unfold classical_body. rewrite Hd. cbn [bind].
  destruct (rk4_advance dr r dfdr (rk4_init fi ri) dr) as [v | e |];
    cbn [bind]; try reflexivity.
  rewrite classical_loop_stop by (exact (done_after_whole_distance dr)).
  reflexivity.
Qed.

(** X3. A start value of 0, or a slope of 0 at the start, ends [rk4] with
    the exception of a division by zero: the step size is the ratio of the
    adaptiveness constant to [slope / value]. *)
Theorem rk4_zero_value_or_slope_raises :
  forall (fi ri dr k : Qc) (r : list Qc) (dfdr : SlopeSource),
    dr <> 0%Qc -> dfdrval fi ri r dfdr = Ret k ->
    fi = 0%Qc \/ k = 0%Qc ->
    rk4 fi ri dr r dfdr = Raise FloatingPointError.
Proof.
  intros fi ri dr k r dfdr Hdr Hk H0.
  unfold rk4, rk4_run, rk4_fuel.
  rewrite rk4_loop_unfold, (start_is_running _ _ _ Hdr).
  unfold rk4_body, rk4_deltar.
  cbn [rk4_init fstep rstep stepstotal stepstaken].
  rewrite Hk. cbn [bind].
  destruct (Qc_eq_dec fi 0) as [-> | Hfi]; [reflexivity|].
  destruct H0 as [H0 | ->]; [contradiction|].
  rewrite (div_of _ _ Hfi). cbn [bind].
  replace (0 / fi)%Qc with 0%Qc by (field; exact Hfi).
  reflexivity.
Qed.

(** ** [dfdrval]: the slope of the critical equation *)


(** ** Interpolation at the radii of the grid *)

Lemma increasing_from_gt (l : list Qc) : forall (x y : Qc) (n : nat),
  increasing_from x l = true -> nth_error l n = Some y -> (x < y)%Qc.
Proof.
  induction l as [| z l IH]; intros x y n H Hn; [destruct n; discriminate|].
  simpl in H. apply andb_true_iff in H. destruct H as [Hxz Hl].
  apply ltb_true in Hxz. destruct n as [| n]; simpl in Hn.
  - inversion Hn; subst. exact Hxz.
  - exact (Qclt_trans _ _ _ Hxz (IH _ _ _ Hl Hn)).
Qed.

Lemma increasing_from_tail (l : list Qc) (x : Qc) :
  increasing_from x l = true -> increasing l = true.
Proof.
  destruct l as [| y l]; [reflexivity|]. simpl.
  intro H. apply andb_true_iff in H. exact (proj2 H).
Qed.

Lemma increasing_lt (r : list Qc) : forall (i j : nat) (a b : Qc),
  increasing r = true -> (i < j)%nat ->
  nth_error r i = Some a -> nth_error r j = Some b -> (a < b)%Qc.
Proof.
  induction r as [| x l IH]; intros i j a b H Hij Ha Hb;
    [destruct i; discriminate|].
  destruct j as [| j]; [lia|]. simpl in Hb. destruct i as [| i].
  - simpl in Ha. inversion Ha; subst. exact (increasing_from_gt _ _ _ _ H Hb).
  - simpl in Ha. apply (IH i j); trivial; [|lia].
    exact (increasing_from_tail _ _ H).
Qed.

Lemma interp_from_start (x0 f0 : Qc) (xs fs : list Qc) :
  increasing_from x0 xs = true -> interp_from x0 x0 f0 xs fs = f0.
Proof.
  destruct xs as [| x1 xs], fs as [| f1 fs]; simpl; trivial.
  intro H. apply andb_true_iff in H. rewrite (proj1 H).
  replace (x0 - x0)%Qc with 0%Qc by ring. ring.
Qed.

Lemma ltb_irrefl_ge (x y : Qc) : (x <= y)%Qc -> (y <? x)%Qc = false.
Proof. intro H. apply ltb_false, H. Qed.

Lemma interp_from_sample (xs : list Qc) :
  forall (fs : list Qc) (x0 f0 : Qc) (n : nat) (xk fk : Qc),
  increasing_from x0 xs = true ->
  nth_error xs n = Some xk -> nth_error fs n = Some fk ->
  interp_from xk x0 f0 xs fs = fk.
Proof.
  induction xs as [| x1 xs IH]; intros fs x0 f0 n xk fk H Hx Hf;
    [destruct n; discriminate|].
  destruct fs as [| f1 fs]; [destruct n; discriminate|].
  simpl in H. apply andb_true_iff in H. destruct H as [_ Hl].
  destruct n as [| n]; simpl in Hx, Hf.
  - inversion Hx; inversion Hf; subst. simpl.
    rewrite (ltb_irrefl_ge _ _ (Qcle_refl _)).
    apply interp_from_start, Hl.
  - simpl.
    rewrite (ltb_irrefl_ge _ _
               (Qclt_le_weak _ _ (increasing_from_gt _ _ _ _ Hl Hx))).
    exact (IH _ _ _ _ _ _ Hl Hx Hf).
Qed.

Lemma interp_sample (r d : list Qc) (k : nat) (rk dk : Qc) :
  increasing r = true -> length r = length d ->
  nth_error r k = Some rk -> nth_error d k = Some dk ->
  interp rk r d = Ret dk.
Proof.
  intros Hr Hl Hrk Hdk. unfold interp.
  destruct r as [| x0 xs]; [destruct k; discriminate|].
  destruct d as [| f0 fs]; [destruct k; discriminate|].
  simpl in Hl. injection Hl as Hl. rewrite Hl, Nat.eqb_refl. simpl negb.
  cbv iota. destruct k as [| k]; simpl in Hrk, Hdk.
  - inversion Hrk; inversion Hdk; subst.
    rewrite (proj2 (leb_true _ _) (Qcle_refl _)). reflexivity.
  - pose proof (increasing_from_gt _ _ _ _ Hr Hrk) as Hlt.
    destruct (rk <=? x0)%Qc eqn:E.
    + apply leb_true in E. exfalso. exact (Qclt_not_le _ _ Hlt E).
    + f_equal. exact (interp_from_sample _ _ _ _ _ _ _ Hr Hrk Hdk).
Qed.

(** X5. On a strictly increasing grid the slope evaluator, in its plain
    mode, returns at a radius of the grid the slope stored for it,
    whatever the value [u] it is asked at. *)
Theorem dfdrval_at_grid_radius :
  forall (u rk dk : Qc) (r d : list Qc) (k : Z),
    increasing r = true -> length r = length d -> (0 <= k)%Z ->
    index r k = Ret rk -> index d k = Ret dk ->
    dfdrval u rk r (Plain d) = Ret dk.
Proof.
  intros u rk dk r d k Hr Hl Hk Hrk Hdk. simpl.
  apply (interp_sample r d (Z.to_nat k)); trivial;
    apply index_nonneg; trivial.
Qed.

(** ** [quickDeriv]: the whole row *)

Lemma index_in_range {A : Type} (l : list A) (k : Z) :
  (0 <= k < Z.of_nat (length l))%Z -> exists a, index l k = Ret a.
Proof.
  intro H. destruct (nth_error l (Z.to_nat k)) as [a |] eqn:E.
  - exists a. apply index_ret. rewrite py_pos_nonneg by lia.
    split; [lia | exact E].
  - apply nth_error_None in E. lia.
Qed.

Lemma slope_between_total (f r : list Qc) (hi lo : Z) :
  increasing r = true -> length f = length r ->
  (0 <= lo < hi)%Z -> (hi < Z.of_nat (length r))%Z ->
  exists fhi flo rhi rlo : Qc,
    index f hi = Ret fhi /\ index f lo = Ret flo /\
    index r hi = Ret rhi /\ index r lo = Ret rlo /\ (rlo < rhi)%Qc /\
    slope_between f r hi lo = Ret ((fhi - flo) / (rhi - rlo))%Qc.
Proof.
  intros Hr Hl Hlo Hhi.
  destruct (index_in_range f hi) as [fhi Hfhi]; [lia|].
  destruct (index_in_range f lo) as [flo Hflo]; [lia|].
  destruct (index_in_range r hi) as [rhi Hrhi]; [lia|].
  destruct (index_in_range r lo) as [rlo Hrlo]; [lia|].
  assert (Hlt : (rlo < rhi)%Qc).
  { apply (increasing_lt r (Z.to_nat lo) (Z.to_nat hi)); trivial;
      [lia | |]; apply index_nonneg; trivial; lia. }
  exists fhi, flo, rhi, rlo. repeat (split; [assumption|]).
  unfold slope_between. rewrite Hfhi, Hflo, Hrhi, Hrlo. cbn [bind].
  apply div_of, lt_minus_nonzero, Hlt.
Qed.

Lemma mapM_total {A B : Type} (f : A -> res B) (l : list A) :
  (forall x, In x l -> exists y, f x = Ret y) ->
  exists out, mapM f l = Ret out.
Proof.
  induction l as [| a l IH]; intro H; simpl; [eauto|].
  destruct (H a) as [b Hb]; [left; reflexivity|].
  destruct IH as [bs Hbs]; [intros x Hx; apply H; right; exact Hx|].
  rewrite Hb, Hbs. simpl. eauto.
Qed.

Lemma mapM_in {A B : Type} (f : A -> res B) (l : list A) :
  forall (out : list B) (y : B),
  mapM f l = Ret out -> In y out -> exists x, In x l /\ f x = Ret y.
Proof.
  induction l as [| a l IH]; intros out y H Hy; simpl in H.
  - inversion H; subst. destruct Hy.
  - bind_split H as b Hb. bind_split H as bs Hbs. inversion H; subst out.
    destruct Hy as [<- | Hy].
    + exists a. split; [left; reflexivity | exact Hb].
    + destruct (IH _ _ Hbs Hy) as (x & Hx & Hfx).
      exists x. split; [right; exact Hx | exact Hfx].
Qed.

Lemma range_up_length (a b : Z) :
  length (range_up a b) = Z.to_nat (b - a).
Proof. unfold range_up. rewrite length_map, length_seq. reflexivity. Qed.

(** X6. On a strictly increasing grid of [steps >= 2] radii [quickDeriv]
    divides by no zero: the row has [steps] entries, the first and the last
    being the one-sided slopes to the neighbour. *)
Theorem quickDeriv_row_on_increasing_grid :
  forall (f r : list Qc) (steps : Z),
    increasing r = true -> length f = length r ->
    Z.of_nat (length r) = steps -> (2 <= steps)%Z ->
    exists d : list Qc,
      quickDeriv_row f r steps = Ret d /\ Z.of_nat (length d) = steps /\
      index d 0 = slope_between f r 1 0 /\
      index d (steps - 1) = slope_between f r (steps - 1) (steps - 2).
Proof.
  intros f r steps Hr Hl Hs H2.
  destruct (slope_between_total f r 1 0 Hr Hl)
    as (a1 & a0 & b1 & b0 & _ & _ & _ & _ & _ & Hd0); [lia | lia |].
  destruct (slope_between_total f r (steps - 1) (steps - 2) Hr Hl)
    as (c1 & c0 & e1 & e0 & _ & _ & _ & _ & _ & Hdl); [lia | lia |].
  destruct (mapM_total (fun k => slope_between f r (k + 1) (k - 1))
              (range_up 1 (steps - 1))) as [mids Hm].
  { intros k Hk. apply in_range_up in Hk.
    destruct (slope_between_total f r (k + 1) (k - 1) Hr Hl)
      as (? & ? & ? & ? & _ & _ & _ & _ & _ & Hv); [lia | lia |].
    eauto. }
  pose proof (proj1 (mapM_nth _ _ _ Hm)) as Lm.
  rewrite range_up_length in Lm.
  unfold quickDeriv_row.
  destruct (steps <? 0)%Z eqn:E0; [apply Z.ltb_lt in E0; lia|].
  rewrite Hd0. cbn [bind].
  destruct (steps =? 0)%Z eqn:E1; [apply Z.eqb_eq in E1; lia|].
  rewrite Hm. cbn [bind]. rewrite Hdl. cbn [bind].
  destruct (steps =? 1)%Z eqn:E2; [apply Z.eqb_eq in E2; lia|].
  eexists. split; [reflexivity|].
  split; [simpl; rewrite length_app; simpl; lia|]. split.
  - reflexivity.
  - apply index_ret. rewrite py_pos_nonneg by lia.
    split; [lia|].
    replace (Z.to_nat (steps - 1)) with (S (length mids)) by lia.
    simpl. rewrite nth_error_app2 by lia.
    rewrite Nat.sub_diag. reflexivity.
Qed.

Lemma slope_between_linear (f r : list Qc) (hi lo : Z) (a b v : Qc) :
  length f = length r ->
  (forall (k : nat) (fk rk : Qc),
     nth_error f k = Some fk -> nth_error r k = Some rk ->
     fk = (a * rk + b)%Qc) ->
  slope_between f r hi lo = Ret v -> v = a.
Proof.
  intros Hl Hlin H. unfold slope_between in H.
  bind_split H as fhi Hfhi. bind_split H as flo Hflo.
  bind_split H as rhi Hrhi. bind_split H as rlo Hrlo.
  apply div_ret in H. destruct H as [Hne ->].
  apply index_ret in Hfhi, Hflo, Hrhi, Hrlo.
  rewrite (py_pos_length f r hi Hl) in Hfhi.
  rewrite (py_pos_length f r lo Hl) in Hflo.
  rewrite (Hlin _ _ _ (proj2 Hfhi) (proj2 Hrhi)).
  rewrite (Hlin _ _ _ (proj2 Hflo) (proj2 Hrlo)).
  field. exact Hne.
Qed.

(** X7. The derivative [quickDeriv] computes of a profile that is linear
    in the radius, [f[k] = a*r[k] + b], is the slope [a] at every point of
    the row, the two ends included. *)
Theorem quickDeriv_row_exact_on_linear :
  forall (f r d : list Qc) (steps : Z) (a b : Qc),
    quickDeriv_row f r steps = Ret d -> length f = length r ->
    (forall (k : nat) (fk rk : Qc),
       nth_error f k = Some fk -> nth_error r k = Some rk ->
       fk = (a * rk + b)%Qc) ->
    forall v : Qc, In v d -> v = a.
Proof.
  intros f r d steps a b H Hl Hlin v Hv. unfold quickDeriv_row in H.
  destruct (steps <? 0)%Z; [discriminate|].
  bind_split H as d0 Hd0.
  destruct (steps =? 0)%Z; [discriminate|].
  bind_split H as mids Hmids. bind_split H as dl Hdl.
  assert (E0 : d0 = a) by exact (slope_between_linear _ _ _ _ _ _ _ Hl Hlin Hd0).
  assert (El : dl = a) by exact (slope_between_linear _ _ _ _ _ _ _ Hl Hlin Hdl).
  assert (Em : forall m, In m mids -> m = a).
  { intros m Hin. destruct (mapM_in _ _ _ _ Hmids Hin) as (k & _ & Hk).
    exact (slope_between_linear _ _ _ _ _ _ _ Hl Hlin Hk). }
  destruct (steps =? 1)%Z; inversion H; subst d; clear H.
  - destruct Hv as [<- | []]. exact El.
  - destruct Hv as [<- | Hv]; [exact E0|].
    apply in_app_or in Hv. destruct Hv as [Hv | [<- | []]];
      [exact (Em _ Hv) | exact El].
Qed.

(** ** The critical-point locator over a batch of models *)

Lemma flag_roots_spec (nsteps : Z) (rhs : list (list Qc)) (j : Z)
  (fl0 fl : list bool) :
  flag_roots nsteps rhs j fl0 = Ret fl ->
  forall m : nat,
    nth_error fl m = Some true <->
    (nth_error fl0 m = Some true \/
     exists rhsj : list Qc,
       index rhs j = Ret rhsj /\ candidate nsteps rhsj (Z.of_nat m)).
Proof.
  intros H m. unfold flag_roots in H. unfold candidate.
  destruct (Z_le_gt_dec (nsteps - 2) 1) as [L | G].
  - rewrite range_up_nil in H by lia. inversion H; subst.
    split; [auto|]. intros [E | (rhsj & _ & R & _)]; [exact E | lia].
  - assert (Hj : exists rhsj, index rhs j = Ret rhsj).
    { pose proof H as H'. rewrite range_up_cons in H' by lia.
      cbn [foldM] in H'. bind_split H' as fl1 H1.
      bind_split H1 as rhsj Hj. eauto. }
    destruct Hj as [rhsj Hj].
    replace (nsteps - 2)%Z with (1 + Z.of_nat (Z.to_nat (nsteps - 3)))%Z
      in H by lia.
    rewrite (flag_loop nsteps rhs j rhsj _ Hj _ _ _ H ltac:(lia) m).
    split; (intros [E | E]; [left; exact E | right]).
    + destruct E as [R E]. exists rhsj.
      split; [exact Hj|]. split; [lia | exact E].
    + destruct E as (rhsj' & Hj' & R & E).
      assert (rhsj' = rhsj) by congruence. subst.
      split; [lia | exact E].
Qed.

Lemma where_true_nil (fl : list bool) :
  length (where_true fl) = 0%nat ->
  forall m : nat, nth_error fl m <> Some true.
Proof.
  intros E m Hm.
  assert (Hin : In (0 + Z.of_nat m)%Z (where_true fl)).
  { apply where_from_in. exists m. split; [reflexivity | exact Hm]. }
  destruct (where_true fl); [destruct Hin | discriminate].
Qed.

(** One model of the batch: the flags grow by the candidates of the model,
    and its critical index is -1 when no flag is set, the position of a
    flag otherwise. *)
Lemma locate_model_step (nsteps : Z) (rhs F : list (list Qc))
  (st st' : locator) (j : Z) (out : list msg) :
  locate_model nsteps rhs F st j = (Ret st', out) -> (0 <= j)%Z ->
  (forall m : nat,
     nth_error (rootflag st') m = Some true <->
     (nth_error (rootflag st) m = Some true \/
      exists rhsj : list Qc,
        index rhs j = Ret rhsj /\ candidate nsteps rhsj (Z.of_nat m))) /\
  length (icrit st') = length (icrit st) /\
  exists k : Z,
    nth_error (icrit st') (Z.to_nat j) = Some k /\
    ((k = (-1)%Z /\ (forall m : nat, nth_error (rootflag st') m <> Some true) /\
      out = [NoCriticalPoint j] /\ badflag st' = true) \/
     ((0 <= k)%Z /\ nth_error (rootflag st') (Z.to_nat k) = Some true /\
      out = [] /\ badflag st' = badflag st)).
Proof.
  intros H Hj. unfold locate_model in H. lift_split H as fl Hfl.
  pose proof (flag_roots_spec _ _ _ _ _ Hfl) as Hspec.
  destruct (Nat.eqb (length (where_true fl)) 0) eqn:E.
  - apply Nat.eqb_eq in E.
    lift_split H as ic Hic. io_split H as t o Hp.
    inversion Hp; subst; clear Hp. inversion H; subst; clear H.
    cbn [rootflag icrit badflag].
    apply store_nat in Hic; [|exact Hj]. destruct Hic as [Hlt ->].
    split; [exact Hspec|]. split; [apply upd_length|].
    exists (-1)%Z. split; [apply upd_same, Hlt|]. left.
    repeat split. exact (where_true_nil _ E).
  - lift_split H as ic Hic. inversion H; subst; clear H.
    cbn [rootflag icrit badflag].
    bind_split Hic as Fj HFj. bind_split Hic as extrema Hex.
    bind_split Hic as xpt Hxpt. bind_split Hic as k Hk.
    destruct (argmin_spec _ _ Hxpt) as (vp & Hx0 & _ & _).
    apply index_nat in Hk; [|exact Hx0].
    apply nth_error_In in Hk. unfold where_true in Hk.
    apply where_from_in in Hk. destruct Hk as (m & -> & Hm).
    apply store_nat in Hic; [|exact Hj]. destruct Hic as [Hlt ->].
    split; [exact Hspec|]. split; [apply upd_length|].
    exists (0 + Z.of_nat m)%Z. split; [apply upd_same, Hlt|]. right.
    repeat split; [lia|].
    replace (Z.to_nat (0 + Z.of_nat m)) with m by lia. exact Hm.
Qed.

Lemma locate_loop_inv (nsteps : Z) (rhs F : list (list Qc)) (n : nat) :
  forall (a : Z) (st st' : locator) (out : list msg),
  io_foldM (locate_model nsteps rhs F) (range_up a (a + Z.of_nat n)) st
    = (Ret st', out) ->
  (0 <= a)%Z ->
  (forall m : nat,
     nth_error (rootflag st') m = Some true <->
     (nth_error (rootflag st) m = Some true \/
      exists (j : Z) (rhsj : list Qc),
        (a <= j < a + Z.of_nat n)%Z /\ index rhs j = Ret rhsj /\
        candidate nsteps rhsj (Z.of_nat m))) /\
  length (icrit st') = length (icrit st) /\
  (forall m : nat, (m < Z.to_nat a)%nat ->
     nth_error (icrit st') m = nth_error (icrit st) m) /\
  (forall j : Z, (a <= j < a + Z.of_nat n)%Z ->
     exists k : Z,
       nth_error (icrit st') (Z.to_nat j) = Some k /\
       ((k = (-1)%Z /\ In (NoCriticalPoint j) out /\
         (forall m : nat, nth_error (rootflag st) m <> Some true) /\
         (forall (j' : Z) (rhsj : list Qc) (m : Z),
            (a <= j' <= j)%Z -> index rhs j' = Ret rhsj ->
            ~ candidate nsteps rhsj m)) \/
        ((0 <= k)%Z /\ ~ In (NoCriticalPoint j) out /\
         (nth_error (rootflag st) (Z.to_nat k) = Some true \/
          exists (j' : Z) (rhsj : list Qc),
            (a <= j' <= j)%Z /\ index rhs j' = Ret rhsj /\
            candidate nsteps rhsj k)))) /\
  (badflag st' = true <->
   (badflag st = true \/
    exists j : Z, (a <= j < a + Z.of_nat n)%Z /\
                  nth_error (icrit st') (Z.to_nat j) = Some (-1)%Z)) /\
  (forall m : msg, In m out ->
     exists j : Z, (a <= j < a + Z.of_nat n)%Z /\ m = NoCriticalPoint j).
Proof.
  induction n as [| n IH]; intros a st st' out H Ha.
  - rewrite range_up_nil in H by lia. inversion H; subst; clear H.
    repeat split; trivial; try tauto.
    + intros [E | (j & _ & R & _)]; [exact E | lia].
    + intros j R. lia.
    + intros [E | (j & R & _)]; [exact E | lia].
    + intros m [].
  - replace (a + Z.of_nat (S n))%Z with (a + 1 + Z.of_nat n)%Z in * by lia.
    rewrite range_up_cons in H by lia. cbn [io_foldM] in H.
    io_split H as st1 o1 Hstep rest o2.
    destruct (locate_model_step _ _ _ _ _ _ _ Hstep Ha)
      as (A1 & B1 & k1 & K1 & C1).
    destruct (IH _ _ _ _ H ltac:(lia)) as (A2 & B2 & C2 & D2 & E2 & F2).
    clear IH H.
    assert (Cand : forall (rhsj : list Qc) (m : Z),
               index rhs a = Ret rhsj -> candidate nsteps rhsj m ->
               nth_error (rootflag st1) (Z.to_nat m) = Some true).
    { intros rhsj m Hj Hc. apply A1. right. exists rhsj.
      split; [exact Hj|]. rewrite Z2Nat.id by (destruct Hc; lia). exact Hc. }
    split; [|split; [|split; [|split; [|split]]]].
    + intro m. rewrite (A2 m), (A1 m). split.
      * intros [[E | (rhsj & Hj & Hc)] | (j & rhsj & R & Hj & Hc)].
        -- left. exact E.
        -- right. exists a, rhsj. split; [lia | auto].
        -- right. exists j, rhsj. split; [lia | auto].
      * intros [E | (j & rhsj & R & Hj & Hc)]; [left; left; exact E|].
        destruct (Z.eq_dec j a) as [-> | Hne].
        -- left. right. exists rhsj. auto.
        -- right. exists j, rhsj. split; [lia | auto].
    + congruence.
    + intros m Hm. rewrite C2 by lia.
      apply (locate_model_keeps _ _ _ _ _ _ _ _ Hstep); lia.
    + intros j R. destruct (Z.eq_dec j a) as [-> | Hne].
      * exists k1. split; [rewrite C2 by lia; exact K1|].
        destruct C1 as [(-> & None1 & -> & _) | (K0 & T1 & -> & _)].
        -- left. split; [reflexivity|]. split; [left; reflexivity|]. split.
           ++ intros m E. apply (None1 m), A1. left. exact E.
           ++ intros j' rhsj m R' Hj' Hc.
              assert (j' = a) by lia. subst j'.
              exact (None1 _ (Cand _ _ Hj' Hc)).
        -- right. split; [exact K0|]. split.
           ++ intro Hin. simpl in Hin. apply F2 in Hin.
              destruct Hin as (j & Rj & E). inversion E. lia.
           ++ apply A1 in T1. destruct T1 as [E | (rhsj & Hj & Hc)];
                [left; exact E | right].
              exists a, rhsj. rewrite Z2Nat.id in Hc by lia.
              split; [lia | auto].
      * destruct (D2 j ltac:(lia)) as (k & K & D).
        exists k. split; [exact K|].
        destruct D as [(-> & Hin & None1 & NoC) | (K0 & Hnin & T)].
        -- left. split; [reflexivity|].
           split; [apply in_or_app; right; exact Hin|]. split.
           ++ intros m E. apply (None1 m), A1. left. exact E.
           ++ intros j' rhsj m R' Hj' Hc.
              destruct (Z.eq_dec j' a) as [-> | Hne'].
              ** exact (None1 _ (Cand _ _ Hj' Hc)).
              ** apply (NoC j' rhsj m); [lia | exact Hj' | exact Hc].
        -- right. split; [exact K0|]. split.
           ++ intro Hin. apply in_app_or in Hin.
              destruct Hin as [Hin | Hin]; [|exact (Hnin Hin)].
              destruct C1 as [(_ & _ & -> & _) | (_ & _ & -> & _)];
                simpl in Hin; [|destruct Hin].
              destruct Hin as [E | []]. inversion E. lia.
           ++ destruct T as [T | (j' & rhsj & R' & Hj' & Hc)].
              ** apply A1 in T. destruct T as [E | (rhsj & Hj & Hc)];
                   [left; exact E | right].
                 exists a, rhsj. rewrite Z2Nat.id in Hc by lia.
                 split; [lia | auto].
              ** right. exists j', rhsj. split; [lia | auto].
    + rewrite E2. split.
      * intros [Eb | (j & R & Hj)].
        -- destruct C1 as [(-> & _ & _ & _) | (K0 & _ & _ & Eb1)].
           ++ right. exists a. split; [lia|].
              rewrite C2 by lia. exact K1.
           ++ left. congruence.
        -- right. exists j. split; [lia | exact Hj].
      * intros [Eb | (j & R & Hj)].
        -- left. destruct C1 as [(_ & _ & _ & Eb1) | (_ & _ & _ & Eb1)];
             congruence.
        -- destruct (Z.eq_dec j a) as [-> | Hne].
           ++ rewrite C2 in Hj by lia. rewrite K1 in Hj.
              inversion Hj; subst k1.
              destruct C1 as [(_ & _ & _ & Eb1) | (K0 & _)];
                [left; exact Eb1 | lia].
           ++ right. exists j. split; [lia | exact Hj].
    + intros m Hin. apply in_app_or in Hin. destruct Hin as [Hin | Hin].
      * destruct C1 as [(_ & _ & -> & _) | (_ & _ & -> & _)];
          simpl in Hin; [|destruct Hin].
        destruct Hin as [<- | []]. exists a. split; [lia | reflexivity].
      * destruct (F2 _ Hin) as (j & R & E). exists j. split; [lia | exact E].
Qed.

Lemma locate_spec (r : list Qc) (nmods nsteps : Z) (rhs : list (list Qc))
  (ic : list Z) (log : list msg) :
  locate r nmods nsteps rhs = (Ret ic, log) ->
  (0 <= nmods)%Z /\ length ic = Z.to_nat nmods /\
  (forall j : Z, (0 <= j < nmods)%Z ->
     exists k : Z,
       index ic j = Ret k /\
       ((k = (-1)%Z /\ In (NoCriticalPoint j) log /\
         (forall (j' : Z) (rhsj : list Qc) (m : Z),
            (0 <= j' <= j)%Z -> index rhs j' = Ret rhsj ->
            ~ candidate nsteps rhsj m)) \/
        ((0 <= k)%Z /\ ~ In (NoCriticalPoint j) log /\
         exists (j' : Z) (rhsj : list Qc),
           (0 <= j' <= j)%Z /\ index rhs j' = Ret rhsj /\
           candidate nsteps rhsj k))) /\
  (In IndexCritSentinel log <->
   exists j : Z, (0 <= j < nmods)%Z /\ index ic j = Ret (-1)%Z) /\
  (forall m : msg, In m log ->
     m = IndexCritSentinel \/
     exists j : Z, (0 <= j < nmods)%Z /\ m = NoCriticalPoint j).
Proof.
  intro H. unfold locate in H.
  destruct ((nsteps <? 0)%Z || (nmods <? 0)%Z) eqn:E0; [discriminate|].
  apply orb_false_iff in E0. destruct E0 as [_ E0]. apply Z.ltb_ge in E0.
  lift_split H as F HF. io_split H as st o Hloop rest o2.
  io_split H as t o3 Hp rest o4. inversion H; subst; clear H.
  replace (range_up 0 nmods)
    with (range_up 0 (0 + Z.of_nat (Z.to_nat nmods))) in Hloop
    by (f_equal; lia).
  destruct (locate_loop_inv _ _ _ _ _ _ _ _ Hloop ltac:(lia))
    as (_ & B & _ & D & E & Fm).
  cbn [rootflag icrit badflag] in *.
  assert (Hsent : In IndexCritSentinel (o ++ o3 ++ []) <-> badflag st = true).
  { rewrite app_nil_r. split.
    - intro Hin. apply in_app_or in Hin. destruct Hin as [Hin | Hin].
      + destruct (Fm _ Hin) as (j & _ & Ej). discriminate.
      + destruct (badflag st); [reflexivity|].
        inversion Hp; subst. destruct Hin.
    - intro Eb. rewrite Eb in Hp. inversion Hp; subst.
      apply in_or_app. right. left. reflexivity. }
  assert (Hno : forall j, In (NoCriticalPoint j) (o ++ o3 ++ [])
                          <-> In (NoCriticalPoint j) o).
  { intro j. rewrite app_nil_r. split.
    - intro Hin. apply in_app_or in Hin. destruct Hin as [Hin | Hin];
        [exact Hin|].
      destruct (badflag st); inversion Hp; subst;
        [destruct Hin as [Ej | []]; discriminate | destruct Hin].
    - intro Hin. apply in_or_app. left. exact Hin. }
  split; [exact E0|]. split; [rewrite B; apply repeat_length|].
  split; [|split].
  - intros j R. destruct (D j ltac:(lia)) as (k & K & C).
    exists k. split; [apply index_nat; [lia | exact K]|].
    destruct C as [(-> & Hin & _ & NoC) | (K0 & Hnin & T)].
    + left. split; [reflexivity|]. split; [apply Hno, Hin|].
      intros j' rhsj m R'. apply NoC. lia.
    + right. split; [exact K0|]. split; [rewrite Hno; exact Hnin|].
      destruct T as [T | (j' & rhsj & R' & Hj' & Hc)].
      * destruct (repeat_false_nth _ _ T).
      * exists j', rhsj. split; [lia | auto].
  - rewrite Hsent, E. split.
    + intros [Eb | (j & R & Hj)]; [discriminate|].
      exists j. split; [lia|]. apply index_nat; [lia | exact Hj].
    + intros (j & R & Hj). right. exists j. split; [lia|].
      apply index_nat in Hj; [exact Hj | lia].
  - intros m Hin. rewrite app_nil_r in Hin. apply in_app_or in Hin.
    destruct Hin as [Hin | Hin].
    + right. destruct (Fm _ Hin) as (j & R & Ej). exists j.
      split; [lia | exact Ej].
    + left. destruct (badflag st); inversion Hp; subst;
        [destruct Hin as [Ej | []]; auto | destruct Hin].
Qed.

(** X8. The critical index [outflows] gives a model is -1 or an index of
    the search range, [1 <= k <= nsteps-3], so that the four points
    [k-1 .. k+2] the later steps read lie on the grid; there is one index
    per model. *)
Theorem locate_index_in_search_range :
  forall (r : list Qc) (nmods nsteps : Z) (rhs : list (list Qc))
         (ic : list Z) (log : list msg),
    locate r nmods nsteps rhs = (Ret ic, log) ->
    Z.of_nat (length ic) = nmods /\
    forall j k : Z, (0 <= j < nmods)%Z -> index ic j = Ret k ->
      k = (-1)%Z \/ (1 <= k <= nsteps - 3)%Z.
Proof.
  intros r nmods nsteps rhs ic log H.
  destruct (locate_spec _ _ _ _ _ _ H) as (H0 & L & D & _).
  split; [lia|]. intros j k R Hk.
  destruct (D j R) as (k' & Hk' & C).
  assert (k' = k) by congruence. subst k'.
  destruct C as [(-> & _) | (_ & _ & j' & rhsj & _ & _ & Rk & _)];
    [left; reflexivity | right; exact Rk].
Qed.

(** A batch whose first model has no candidate and whose second has one. *)
Lemma locate_index_in_search_range_witness :
  locate grid5 2 5 [rhsB; rhsA]
    = (Ret [(-1)%Z; 1%Z], [NoCriticalPoint 0; IndexCritSentinel])
  /\ Z.of_nat (length [(-1)%Z; 1%Z]) = 2%Z
  /\ forall j k : Z, (0 <= j < 2)%Z -> index [(-1)%Z; 1%Z] j = Ret k ->
       k = (-1)%Z \/ (1 <= k <= 5 - 3)%Z.
Proof.
  assert (E : locate grid5 2 5 [rhsB; rhsA]
              = (Ret [(-1)%Z; 1%Z], [NoCriticalPoint 0; IndexCritSentinel]))
    by (vm_compute; reflexivity).
  split; [exact E|].
  exact (locate_index_in_search_range _ _ _ _ _ _ E).
Defined.

(** X9. In a batch, a model gets the index -1 exactly when neither it nor
    any model before it in the batch has a candidate; the index it gets
    otherwise is a candidate of itself or of a model before it (the flags
    of the sign-change test are kept from one model to the next). *)
Theorem locate_sentinel_iff_no_candidate_so_far :
  forall (r : list Qc) (nmods nsteps : Z) (rhs : list (list Qc))
         (ic : list Z) (log : list msg),
    locate r nmods nsteps rhs = (Ret ic, log) ->
    forall j k : Z, (0 <= j < nmods)%Z -> index ic j = Ret k ->
      (k = (-1)%Z <->
       forall (j' : Z) (rhsj : list Qc) (m : Z),
         (0 <= j' <= j)%Z -> index rhs j' = Ret rhsj ->
         ~ candidate nsteps rhsj m) /\
      (k <> (-1)%Z ->
       exists (j' : Z) (rhsj : list Qc),
         (0 <= j' <= j)%Z /\ index rhs j' = Ret rhsj /\
         candidate nsteps rhsj k).
Proof.
  intros r nmods nsteps rhs ic log H j k R Hk.
  destruct (locate_spec _ _ _ _ _ _ H) as (_ & _ & D & _).
  destruct (D j R) as (k' & Hk' & C).
  assert (k' = k) by congruence. subst k'.
  destruct C as [(-> & _ & NoC) | (K0 & _ & j' & rhsj & R' & Hj' & Hc)].
  - split; [split; [intros _; exact NoC | reflexivity]|].
    intro Hne. contradiction.
  - split; [split|].
    + intros ->. lia.
    + intro NoC. destruct (NoC j' rhsj k R' Hj' Hc).
    + intros _. exists j', rhsj. auto.
Qed.

Lemma locate_sentinel_iff_no_candidate_so_far_witness :
  locate grid5 2 5 [rhsA; rhsB] = (Ret [1%Z; 1%Z], [])
  /\ (0 <= 1 < 2)%Z /\ index [1%Z; 1%Z] 1 = Ret 1%Z
  /\ (1%Z = (-1)%Z <->
      forall (j' : Z) (rhsj : list Qc) (m : Z),
        (0 <= j' <= 1)%Z -> index [rhsA; rhsB] j' = Ret rhsj ->
        ~ candidate 5 rhsj m)
  /\ (1%Z <> (-1)%Z ->
      exists (j' : Z) (rhsj : list Qc),
        (0 <= j' <= 1)%Z /\ index [rhsA; rhsB] j' = Ret rhsj /\
        candidate 5 rhsj 1).
Proof.
  assert (E : locate grid5 2 5 [rhsA; rhsB] = (Ret [1%Z; 1%Z], []))
    by (vm_compute; reflexivity).
  split; [exact E|]. split; [lia|]. split; [reflexivity|].
  apply (locate_sentinel_iff_no_candidate_so_far _ _ _ _ _ _ E 1%Z 1%Z);
    [lia | reflexivity].
Defined.

(** X10. The lines the locator prints: 'No critical point for model j'
    for exactly the models that get the index -1, then 'indexCrit set to
    -1 for failed models' exactly when some model got it, and nothing
    else. *)
Theorem locate_warnings_match_sentinels :
  forall (r : list Qc) (nmods nsteps : Z) (rhs : list (list Qc))
         (ic : list Z) (log : list msg),
    locate r nmods nsteps rhs = (Ret ic, log) ->
    (forall j : Z, (0 <= j < nmods)%Z ->
       (In (NoCriticalPoint j) log <-> index ic j = Ret (-1)%Z)) /\
    (In IndexCritSentinel log <->
     exists j : Z, (0 <= j < nmods)%Z /\ index ic j = Ret (-1)%Z) /\
    (forall m : msg, In m log ->
       m = IndexCritSentinel \/
       exists j : Z, (0 <= j < nmods)%Z /\ m = NoCriticalPoint j).
Proof.
  intros r nmods nsteps rhs ic log H.
  destruct (locate_spec _ _ _ _ _ _ H) as (_ & _ & D & S & M).
  split; [|split; [exact S | exact M]].
  intros j R. destruct (D j R) as (k & Hk & C).
  destruct C as [(-> & Hin & _) | (K0 & Hnin & _)].
  - split; [intros _; exact Hk | intros _; exact Hin].
  - split; [intro Hin; contradiction|].
    intro Hk'. rewrite Hk in Hk'. inversion Hk'. lia.
Qed.

Lemma locate_warnings_match_sentinels_witness :
  locate grid5 2 5 [rhsB; rhsA]
    = (Ret [(-1)%Z; 1%Z], [NoCriticalPoint 0; IndexCritSentinel])
  /\ (forall j : Z, (0 <= j < 2)%Z ->
        (In (NoCriticalPoint j) [NoCriticalPoint 0; IndexCritSentinel]
         <-> index [(-1)%Z; 1%Z] j = Ret (-1)%Z))
  /\ (In IndexCritSentinel [NoCriticalPoint 0; IndexCritSentinel] <->
      exists j : Z, (0 <= j < 2)%Z /\ index [(-1)%Z; 1%Z] j = Ret (-1)%Z)
  /\ (forall m : msg, In m [NoCriticalPoint 0; IndexCritSentinel] ->
        m = IndexCritSentinel \/
        exists j : Z, (0 <= j < 2)%Z /\ m = NoCriticalPoint j).
Proof.
  assert (E : locate grid5 2 5 [rhsB; rhsA]
              = (Ret [(-1)%Z; 1%Z], [NoCriticalPoint 0; IndexCritSentinel]))
    by (vm_compute; reflexivity).
  split; [exact E|].
  exact (locate_warnings_match_sentinels _ _ _ _ _ _ E).
Defined.

(** ** The shooting propagator: the seeds and the sign of the profile *)

Lemma seed_values (r : list Qc) (iC : Z) (rpt upt : Qc) (dUdrpt : Qc * Qc)
  (u : list Qc) :
  seed r iC rpt upt dUdrpt = Ret u -> (1 <= iC)%Z ->
  exists rm r0 r1 rp : Qc,
    index r (iC - 1) = Ret rm /\ index r iC = Ret r0 /\
    index r (iC + 1) = Ret r1 /\ index r (iC + 2) = Ret rp /\
    index u iC = Ret (upt + (r0 - rpt) * fst dUdrpt)%Qc /\
    index u (iC + 1) = Ret (upt + (r1 - rpt) * snd dUdrpt)%Qc /\
    index u (iC - 1)
    = Ret (upt + (r0 - rpt) * fst dUdrpt + (rm - r0) * fst dUdrpt)%Qc /\
    index u (iC + 2)
    = Ret (upt + (r1 - rpt) * snd dUdrpt + (rp - r1) * snd dUdrpt)%Qc.
Proof.
  unfold seed. intros H HiC.
  bind_split H as r0 H0. bind_split H as u1 H1. bind_split H as r1 H2.
  bind_split H as u2 H3. bind_split H as v0 H4. bind_split H as rm H5.
  bind_split H as r0' H6. bind_split H as u3 H7. bind_split H as v1 H8.
  bind_split H as rp H9. bind_split H as r1' H10.
  assert (r0' = r0) by congruence. assert (r1' = r1) by congruence.
  subst r0' r1'.
  apply store_nat in H1; [|lia]. destruct H1 as [L1 ->].
  apply store_nat in H3; [|lia]. destruct H3 as [L3 ->].
  apply index_nat in H4; [|lia].
  rewrite upd_other, upd_same in H4 by (trivial; lia).
  inversion H4; subst v0; clear H4.
  apply store_nat in H7; [|lia]. destruct H7 as [L7 ->].
  apply index_nat in H8; [|lia].
  rewrite upd_other, upd_same in H8 by (trivial; lia).
  inversion H8; subst v1; clear H8.
  apply store_nat in H; [|lia]. destruct H as [L ->].
  exists rm, r0, r1, rp. repeat (split; [assumption|]).
  rewrite !upd_length in *.
  repeat split; (apply index_nat; [lia|]).
  - rewrite !upd_other by lia. apply upd_same. exact L1.
  - rewrite !upd_other by lia. apply upd_same. rewrite upd_length. exact L3.
  - rewrite upd_other by lia. apply upd_same. rewrite !upd_length. exact L7.
  - apply upd_same. rewrite !upd_length. exact L.
Qed.

(** What [slope2curve] returns, pass by pass. *)
Lemma slope2curve_passes (r : list Qc) (iC : Z) (rpt upt : Qc)
  (dUdrpt : Qc * Qc) (ucrj rhsj u : list Qc) (log : list msg) :
  slope2curve r iC rpt upt dUdrpt ucrj rhsj = (Ret u, log) ->
  (0 <= iC)%Z ->
  exists u0 : list Qc,
    seed r iC rpt upt dUdrpt = Ret u0 /\ length u = length r /\
    (forall k : nat, (Z.to_nat (iC - 1) <= k <= Z.to_nat (iC + 2))%nat ->
       nth_error u k = nth_error u0 k) /\
    (forall i : Z, (1 <= i <= iC - 1)%Z ->
       exists ui v : Qc,
         index u i = Ret ui /\
         index u (i - 1) = Ret (if (v <? 0)%Qc then ui else v)) /\
    (forall i : Z, (iC + 2 <= i <= Z.of_nat (length r) - 2)%Z ->
       exists ui v : Qc,
         index u i = Ret ui /\
         index u (i + 1) = Ret (if (v <? 0)%Qc then ui else v)).
Proof.
  intros H HiC. unfold slope2curve in H. lift_split H as u0 Hseed.
  io_split H as u1 o1 Hdown rest o2.
  destruct (down_range _ _ _ _ _ _ _ _ Hdown ltac:(lia))
    as (Dl & Dst & Dp & _).
  destruct (up_range _ _ _ _ _ _ _ _ H ltac:(lia)) as (Ul & Ust & Up & _).
  exists u0. split; [exact Hseed|].
  split; [rewrite Ul, Dl; exact (seed_length _ _ _ _ _ _ Hseed)|].
  split; [|split].
  - intros k Hk. rewrite Ust by lia. apply Dst. lia.
  - intros i Hi.
    destruct (Dp i ltac:(lia)) as (ri & ri' & ui & v & _ & _ & Hu & _ & Hu' & _).
    exists ui, v. split; (apply index_nat; [lia|]); rewrite Ust by lia;
      apply index_nat; trivial; lia.
  - intros i Hi.
    destruct (Up i ltac:(lia)) as (ri & ri' & ui & v & _ & _ & Hu & _ & Hu' & _).
    exists ui, v. split; assumption.
Qed.

(** X11. The four points next to the critical point keep, in the profile
    [slope2curve] returns, the values they are seeded with: the linear
    extrapolation from the critical point with the slope below it for
    [iC] and [iC-1], with the slope above it for [iC+1] and [iC+2]; the
    two passes write none of them. *)
Theorem slope2curve_keeps_seeds :
  forall (r : list Qc) (iC : Z) (rpt upt : Qc) (dUdrpt : Qc * Qc)
         (ucrj rhsj u : list Qc) (log : list msg),
    slope2curve r iC rpt upt dUdrpt ucrj rhsj = (Ret u, log) ->
    (1 <= iC)%Z ->
    exists rm r0 r1 rp : Qc,
      index r (iC - 1) = Ret rm /\ index r iC = Ret r0 /\
      index r (iC + 1) = Ret r1 /\ index r (iC + 2) = Ret rp /\
      index u iC = Ret (upt + (r0 - rpt) * fst dUdrpt)%Qc /\
      index u (iC + 1) = Ret (upt + (r1 - rpt) * snd dUdrpt)%Qc /\
      index u (iC - 1)
      = Ret (upt + (r0 - rpt) * fst dUdrpt + (rm - r0) * fst dUdrpt)%Qc /\
      index u (iC + 2)
      = Ret (upt + (r1 - rpt) * snd dUdrpt + (rp - r1) * snd dUdrpt)%Qc.
Proof.
  intros r iC rpt upt dUdrpt ucrj rhsj u log H HiC.
  destruct (slope2curve_passes _ _ _ _ _ _ _ _ _ H ltac:(lia))
    as (u0 & Hseed & _ & Keep & _).
  destruct (seed_values _ _ _ _ _ _ Hseed HiC)
    as (rm & r0 & r1 & rp & Hm & H0 & H1 & Hp & S0 & S1 & Sm & Sp).
  exists rm, r0, r1, rp. repeat (split; [assumption|]).
  repeat split; (apply index_nat; [lia|]); rewrite Keep by lia;
    apply index_nat; trivial; lia.
Qed.

(** X12. The returned profile is negative nowhere below the seed [iC-1]
    and nowhere above the seed [iC+2] when it is not negative at these two
    seeds: every pass stores a value that is not negative, or repeats the
    value of the point it started from. *)
Theorem slope2curve_profile_not_negative :
  forall (r : list Qc) (iC : Z) (rpt upt : Qc) (dUdrpt : Qc * Qc)
         (ucrj rhsj u : list Qc) (log : list msg) (a b : Qc),
    slope2curve r iC rpt upt dUdrpt ucrj rhsj = (Ret u, log) ->
    (1 <= iC)%Z ->
    index u (iC - 1) = Ret a -> index u (iC + 2) = Ret b ->
    (0 <= a)%Qc -> (0 <= b)%Qc ->
    forall (k : Z) (v : Qc),
      (0 <= k <= iC - 1)%Z \/ (iC + 2 <= k)%Z ->
      index u k = Ret v -> (0 <= v)%Qc.
Proof.
  intros r iC rpt upt dUdrpt ucrj rhsj u log a b H HiC Ha Hb Ha0 Hb0.
  destruct (slope2curve_passes _ _ _ _ _ _ _ _ _ H ltac:(lia))
    as (u0 & _ & Len & _ & Down & Up).
  assert (Step : forall ui w x : Qc,
             (0 <= ui)%Qc -> x = (if (w <? 0)%Qc then ui else w) ->
             (0 <= x)%Qc).
  { intros ui w x Hui ->. destruct (w <? 0)%Qc eqn:E; [exact Hui|].
    apply ltb_false, E. }
  assert (D : forall (n : nat) (k : Z) (v : Qc),
             k = (iC - 1 - Z.of_nat n)%Z -> (0 <= k)%Z ->
             index u k = Ret v -> (0 <= v)%Qc).
  { induction n as [| n IH]; intros k v Ek Hk Hv.
    - replace k with (iC - 1)%Z in Hv by lia. congruence.
    - destruct (Down (k + 1)%Z ltac:(lia)) as (ui & w & Hui & Hw).
      replace (k + 1 - 1)%Z with k in Hw by lia.
      apply (Step ui w); [|congruence].
      apply (IH (k + 1)%Z); [lia | lia | exact Hui]. }
  assert (U : forall (n : nat) (k : Z) (v : Qc),
             k = (iC + 2 + Z.of_nat n)%Z ->
             index u k = Ret v -> (0 <= v)%Qc).
  { induction n as [| n IH]; intros k v Ek Hv.
    - replace k with (iC + 2)%Z in Hv by lia. congruence.
    - assert (Hlt : (k < Z.of_nat (length r))%Z).
      { apply index_nat in Hv; [|lia].
        assert (Z.to_nat k < length u)%nat
          by (apply nth_error_Some; congruence).
        lia. }
      destruct (Up (k - 1)%Z ltac:(lia)) as (ui & w & Hui & Hw).
      replace (k - 1 + 1)%Z with k in Hw by lia.
      apply (Step ui w); [|congruence].
      apply (IH (k - 1)%Z); [lia | exact Hui]. }
  intros k v [Hk | Hk] Hv.
  - apply (D (Z.to_nat (iC - 1 - k)) k v); [lia | lia | exact Hv].
  - apply (U (Z.to_nat (k - iC - 2)) k v); [lia | exact Hv].
Qed.

(** ** The seeding at the edge of the grid, and after the locator *)

Lemma index_cases {A : Type} (l : list A) (i : Z) :
  (exists a, index l i = Ret a) \/ index l i = Raise IndexError.
Proof.
  unfold index. destruct (py_pos l i <? 0)%Z; [right; reflexivity|].
  destruct (nth_error l (Z.to_nat (py_pos l i))); eauto.
Qed.

Lemma store_cases {A : Type} (l : list A) (i : Z) (v : A) :
  (exists l', store l i v = Ret l') \/ store l i v = Raise IndexError.
Proof. unfold store. destruct (_ || _); eauto. Qed.

Lemma store_in_range {A : Type} (l : list A) (k : Z) (v : A) :
  (0 <= k < Z.of_nat (length l))%Z ->
  store l k v = Ret (upd l (Z.to_nat k) v).
Proof.
  intro H. unfold store. rewrite py_pos_nonneg by lia.
  destruct (k <? 0)%Z eqn:E1; [apply Z.ltb_lt in E1; lia|].
  destruct (Z.of_nat (length l) <=? k)%Z eqn:E2;
    [apply Z.leb_le in E2; lia | reflexivity].
Qed.

Lemma store_out_of_range {A : Type} (l : list A) (k : Z) (v : A) :
  (0 <= k)%Z -> (Z.of_nat (length l) <= k)%Z ->
  store l k v = Raise IndexError.
Proof.
  intros H0 H. unfold store. rewrite py_pos_nonneg by lia.
  destruct (Z.of_nat (length l) <=? k)%Z eqn:E2;
    [rewrite orb_true_r; reflexivity | apply Z.leb_gt in E2; lia].
Qed.

Ltac seed_step :=
  let E := fresh "E" in
  match goal with
  | |- bind (index ?l ?i) _ = _ =>
      destruct (index_cases l i) as [[? E] | E]; rewrite E; cbn [bind];
      [|reflexivity]
  | |- bind (store ?l ?i ?v) _ = _ =>
      destruct (store_cases l i v) as [[? E] | E]; rewrite E; cbn [bind];
      [|reflexivity]
  end.

Lemma seed_index_error (r : list Qc) (iC : Z) (rpt upt : Qc)
  (dUdrpt : Qc * Qc) :
  (0 <= iC)%Z -> (Z.of_nat (length r) <= iC + 2)%Z ->
  seed r iC rpt upt dUdrpt = Raise IndexError.
Proof.
  intros H0 H. unfold seed. cbv zeta. repeat seed_step.
  apply store_out_of_range; [lia|].
  repeat match goal with
         | S : store _ _ _ = Ret _ |- _ => apply store_length in S
         end.
  rewrite repeat_length in *. lia.
Qed.

Lemma seed_total (r : list Qc) (iC : Z) (rpt upt : Qc) (dUdrpt : Qc * Qc) :
  (1 <= iC)%Z -> (iC + 2 < Z.of_nat (length r))%Z ->
  exists u : list Qc, seed r iC rpt upt dUdrpt = Ret u.
Proof.
  intros H1 H. unfold seed. cbv zeta.
  destruct (index_in_range r iC) as [r0 E0]; [lia|].
  destruct (index_in_range r (iC + 1)) as [r1 E1]; [lia|].
  destruct (index_in_range r (iC - 1)) as [rm Em]; [lia|].
  destruct (index_in_range r (iC + 2)) as [rp Ep]; [lia|].
  rewrite E0. cbn [bind].
  rewrite store_in_range by (rewrite repeat_length; lia). cbn [bind].
  rewrite E1. cbn [bind].
  rewrite store_in_range by (rewrite upd_length, repeat_length; lia).
  cbn [bind].
  match goal with
  | |- context [bind (index ?l iC) _] =>
      destruct (index_in_range l iC) as [v0 ->];
      [rewrite !upd_length, repeat_length; lia|]
  end.
  cbn [bind]. rewrite Em. cbn [bind].
  rewrite store_in_range by (rewrite !upd_length, repeat_length; lia).
  cbn [bind].
  match goal with
  | |- context [bind (index ?l (iC + 1)%Z) _] =>
      destruct (index_in_range l (iC + 1)) as [v1 ->];
      [rewrite !upd_length, repeat_length; lia|]
  end.
  cbn [bind]. rewrite Ep. cbn [bind].
  rewrite store_in_range by (rewrite !upd_length, repeat_length; lia).
  eauto.
Qed.

(** X13. With a critical index less than three points from the outer end
    of the grid, [iC + 2 >= len(r)], [slope2curve] ends with [IndexError]
    while it seeds the profile, before any integration and with nothing
    printed. *)
Theorem slope2curve_index_error_at_outer_edge :
  forall (r : list Qc) (iC : Z) (rpt upt : Qc) (dUdrpt : Qc * Qc)
         (ucrj rhsj : list Qc),
    (0 <= iC)%Z -> (Z.of_nat (length r) <= iC + 2)%Z ->
    slope2curve r iC rpt upt dUdrpt ucrj rhsj = (Raise IndexError, []).
Proof.
  intros r iC rpt upt dUdrpt ucrj rhsj H0 H. unfold slope2curve.
  rewrite (seed_index_error _ _ _ _ _ H0 H). reflexivity.
Qed.

Lemma locate_grid_long_enough (r : list Qc) (nmods nsteps : Z)
  (rhs : list (list Qc)) (ic : list Z) (log : list msg) :
  locate r nmods nsteps rhs = (Ret ic, log) ->
  (1 <= nmods)%Z -> (2 <= nsteps)%Z -> (nsteps <= Z.of_nat (length r))%Z.
Proof.
  intros H Hm Hs. unfold locate in H.
  destruct ((nsteps <? 0)%Z || (nmods <? 0)%Z); [discriminate|].
  lift_split H as F HF.
  destruct (mapM_range_up _ _ _ _ 0%Z HF) as (F0 & HF0 & _); [lia|].
  destruct (F_row_integrated _ _ _ _ _ HF0) as [_ Hint].
  destruct (Hint (nsteps - 2)%Z ltac:(lia))
    as (rk & rk1 & _ & _ & _ & _ & Hr & _).
  apply index_nat in Hr; [|lia].
  assert (Z.to_nat (nsteps - 2 + 1) < length r)%nat
    by (apply nth_error_Some; congruence).
  lia.
Qed.

(** X14. The seeding of [slope2curve] succeeds at every critical index
    other than -1 that the locator returns: the four points [k-1 .. k+2]
    it writes lie on the grid. *)
Theorem seed_succeeds_at_located_index :
  forall (r : list Qc) (nmods nsteps : Z) (rhs : list (list Qc))
         (ic : list Z) (log : list msg) (j k : Z)
         (rpt upt : Qc) (dUdrpt : Qc * Qc),
    locate r nmods nsteps rhs = (Ret ic, log) ->
    (0 <= j < nmods)%Z -> index ic j = Ret k -> k <> (-1)%Z ->
    exists u : list Qc, seed r k rpt upt dUdrpt = Ret u.
Proof.
  intros r nmods nsteps rhs ic log j k rpt upt dUdrpt H Hj Hk Hne.
  destruct (locate_spec _ _ _ _ _ _ H) as (_ & _ & D & _).
  destruct (D j Hj) as (k' & Hk' & C).
  assert (k' = k) by congruence. subst k'.
  destruct C as [(-> & _) | (_ & _ & j' & rhsj & _ & _ & Rk & _)];
    [contradiction|].
  pose proof (locate_grid_long_enough _ _ _ _ _ _ H ltac:(lia) ltac:(lia)).
  apply seed_total; lia.
Qed.

(** ** The density of [fullRHS]: failures and the anchor *)

Lemma where_from_none {A : Type} (f : A -> bool) (l : list A) :
  forall k : Z,
  (forall x, In x l -> f x = false) -> where_from k (map f l) = nil.
Proof.
  induction l as [| a l IH]; intros k H; simpl; [reflexivity|].
  rewrite (H a) by (left; reflexivity).
  apply IH. intros x Hx. apply H. right. exact Hx.
Qed.

(** X15. [fullRHS] looks up the last index at which the temperature is
    below [1.1*TTR] before it computes the density (the value is
    overwritten at once): when the temperature row of the model has no
    such sample the lookup ends the call with [IndexError], whatever the
    other arguments are. *)
Theorem density_needs_a_chromospheric_sample :
  forall (log10 : Qc -> res Qc) (pow10 : Qc -> Qc) (r : list Qc) (steps : Z)
         (B T : list (list Qc)) (zTR : list Qc) (u : list (list Qc))
         (j : Z) (Tj : list Qc),
    index T j = Ret Tj ->
    (forall t : Qc, In t Tj -> (Num.dec 11 10 * TTR <= t)%Qc) ->
    density_model log10 pow10 r steps B T zTR u j = Raise IndexError.
Proof.
  intros log10 pow10 r steps B T zTR u j Tj HT Hall.
  unfold density_model, anchor. rewrite HT. cbn [bind].
  unfold where_true. rewrite where_from_none; [reflexivity|].
  intros t Ht. apply ltb_false, Hall, Ht.
Qed.

Lemma zipM_div_zero (b : list Qc) : forall u : list Qc,
  length b = length u -> In 0%Qc u ->
  zipM Num.div b u = Raise FloatingPointError.
Proof.
  induction b as [| x b IH]; intros [| y u] Hl Hin; simpl in *;
    try discriminate; try contradiction.
  destruct (Qc_eq_dec y 0) as [-> | Hy].
  - rewrite div_by_zero. reflexivity.
  - rewrite (div_of _ _ Hy). cbn [bind].
    rewrite IH; [reflexivity | congruence |].
    destruct Hin as [E | Hin]; [contradiction | exact Hin].
Qed.

Lemma anchor_index (log10 : Qc -> res Qc) (pow10 : Qc -> Qc) (r : list Qc)
  (steps : Z) (T : list (list Qc)) (zTR : list Qc) (j iTR : Z)
  (rhoj : list Qc) :
  anchor log10 pow10 r steps T zTR j = Ret (iTR, rhoj) ->
  (0 <= iTR < Z.of_nat (length r))%Z /\
  exists zTRj l : Qc,
    index zTR j = Ret zTRj /\ log10 zTRj = Ret l /\
    index rhoj iTR
    = Ret (pow10 (Num.dec (-21904) 1000 - Num.dec 3349 1000 * l)%Qc).
Proof.
  intro Ha. unfold anchor in Ha. bind_split Ha as Tj HTj.
  bind_split Ha as c Hc. bind_split Ha as z Hz. bind_split Ha as l Hl.
  bind_split Ha as z' Hz'. bind_split Ha as i Hi. bind_split Ha as rh Hst.
  inversion Ha; subst i rh; clear Ha.
  destruct (argmin_spec _ _ Hi) as (vp & Hp & Hvp & _).
  split.
  - split; [exact Hp|].
    assert (Z.to_nat iTR < length (map (fun z0 => Qcabs (z0 - z')) (heights r)))%nat
      by (apply nth_error_Some; congruence).
    unfold heights in H. rewrite !length_map in H. lia.
  - exists z, l. repeat (split; [assumption|]).
    exact (index_store_same _ _ _ _ Hst).
Qed.

(** X16. A velocity profile with an entry 0 (the row [outflows] returns
    for a model without critical point is 0 throughout) ends the density
    computation, and with it [fullRHS], with the exception of a division by
    zero, once the anchor of the model is found. *)
Theorem density_zero_velocity_raises :
  forall (log10 : Qc -> res Qc) (pow10 : Qc -> Qc) (r : list Qc) (steps : Z)
         (B T : list (list Qc)) (zTR : list Qc) (u : list (list Qc))
         (j iTR : Z) (rhoj Bj uj : list Qc),
    anchor log10 pow10 r steps T zTR j = Ret (iTR, rhoj) ->
    index B j = Ret Bj -> index u j = Ret uj ->
    length Bj = length r -> length uj = length r -> In 0%Qc uj ->
    density_model log10 pow10 r steps B T zTR u j
    = Raise FloatingPointError.
Proof.
  intros log10 pow10 r steps B T zTR u j iTR rhoj Bj uj Ha HB Hu HlB Hlu H0.
  destruct (anchor_index _ _ _ _ _ _ _ _ _ Ha) as (R & z & l & _ & _ & Hrho).
  unfold density_model. rewrite Ha. cbn [bind]. rewrite Hrho. cbn [bind].
  rewrite Hu. cbn [bind].
  destruct (index_in_range uj iTR) as [uTR ->]; [lia|]. cbn [bind].
  rewrite HB. cbn [bind].
  destruct (index_in_range Bj iTR) as [BTR ->]; [lia|]. cbn [bind].
  destruct (Qc_eq_dec BTR 0) as [-> | HBTR]; [reflexivity|].
  rewrite (div_of _ _ HBTR). cbn [bind].
  rewrite (zipM_div_zero Bj uj) by (trivial; congruence). reflexivity.
Qed.


(** ** The critical-slope resolver over a batch, and what [outflows] reports *)

Lemma critSlope_model_ret (sqrt : Qc -> Qc) (r ucrj dNdrj duCdrj : list Qc)
  (ic : Z) (t : Qc * Qc * Qc) (out : list msg) :
  critSlope_model sqrt r ucrj dNdrj duCdrj ic = (Ret t, out) ->
  (exists (rC uC s : Qc),
     index r ic = Ret rC /\ index ucrj ic = Ret uC /\ t = (rC, uC, s)) /\
  (forall m : msg, In m out -> m = InvalidSqrt).
Proof.
  intro H. unfold critSlope_model in H.
  lift_split H as uC HuC. lift_split H as rC HrC.
  lift_split H as dN HdN. lift_split H as duC HduC.
  io_split H as rad o1 Hrad rest o2. inversion H; subst; clear H.
  split; [exists rC, uC; eauto|].
  intros m Hin. rewrite app_nil_r in Hin.
  destruct (_ <=? _)%Qc.
  - io_split Hrad as t0 o3 Hp rest o4. inversion Hp; subst; clear Hp.
    inversion Hrad; subst; clear Hrad.
    destruct Hin as [<- | []]. reflexivity.
  - inversion Hrad; subst. destruct Hin.
Qed.

Lemma io_mapM_msgs {A B : Type} (f : A -> io B) (l : list A) :
  forall (bs : list B) (out : list msg),
  io_mapM f l = (Ret bs, out) ->
  forall m : msg, In m out ->
    exists (x : A) (y : B) (outx : list msg),
      In x l /\ f x = (Ret y, outx) /\ In m outx.
Proof.
  induction l as [| a l IH]; intros bs out H m Hin; simpl in H.
  - inversion H; subst. destruct Hin.
  - io_split H as b o1 Hb rest o2. io_split H as bs' o3 Hbs rest o4.
    inversion H; subst; clear H. rewrite app_nil_r in Hin.
    apply in_app_or in Hin. destruct Hin as [Hin | Hin].
    + exists a, b, o1. split; [left; reflexivity | auto].
    + destruct (IH _ _ Hbs m Hin) as (x & y & outx & Hx & Hfx & Hm).
      exists x, y, outx. split; [right; exact Hx | auto].
Qed.

Lemma list_min_le (l : list Qc) : forall x : Qc,
  (list_min x l <= x)%Qc /\
  forall y : Qc, In y l -> (list_min x l <= y)%Qc.
Proof.
  induction l as [| z l IH]; intro x; simpl.
  - split; [apply Qcle_refl | intros y []].
  - destruct (IH (if (z <? x)%Qc then z else x)) as [Hm Hl].
    assert (Hx : ((if (z <? x)%Qc then z else x) <= x)%Qc /\
                 ((if (z <? x)%Qc then z else x) <= z)%Qc).
    { destruct (z <? x)%Qc eqn:E.
      - apply ltb_true in E.
        split; [apply Qclt_le_weak, E | apply Qcle_refl].
      - apply ltb_false in E. split; [apply Qcle_refl | exact E]. }
    split; [exact (Qcle_trans _ _ _ Hm (proj1 Hx))|].
    intros y [<- | Hy]; [exact (Qcle_trans _ _ _ Hm (proj2 Hx)) | auto].
Qed.

Lemma list_max_ge (l : list Qc) : forall x : Qc,
  (x <= list_max x l)%Qc /\
  forall y : Qc, In y l -> (y <= list_max x l)%Qc.
Proof.
  induction l as [| z l IH]; intro x; simpl.
  - split; [apply Qcle_refl | intros y []].
  - destruct (IH (if (x <? z)%Qc then z else x)) as [Hm Hl].
    assert (Hx : (x <= (if (x <? z)%Qc then z else x))%Qc /\
                 (z <= (if (x <? z)%Qc then z else x))%Qc).
    { destruct (x <? z)%Qc eqn:E.
      - apply ltb_true in E.
        split; [apply Qclt_le_weak, E | apply Qcle_refl].
      - apply ltb_false in E. split; [apply Qcle_refl | exact E]. }
    split; [exact (Qcle_trans _ _ _ (proj1 Hx) Hm)|].
    intros y [<- | Hy]; [exact (Qcle_trans _ _ _ (proj2 Hx) Hm) | auto].
Qed.

(** The entry of model [j] in what [critSlope] returns. *)
Lemma critSlope_entry (sqrt : Qc -> Qc) (r : list Qc) (models steps : Z)
  (rhs ucr : list (list Qc)) (indexcrit : list Z)
  (out : list (Qc * Qc * Qc)) (log : list msg) (j ic : Z) :
  critSlope sqrt r models steps rhs ucr indexcrit = (Ret out, log) ->
  (0 <= j < models)%Z -> index indexcrit j = Ret ic ->
  (ic = (-1)%Z -> index out j = Ret (0%Qc, 0%Qc, 0%Qc)) /\
  (ic <> (-1)%Z ->
   exists (ucrj : list Qc) (rC uC s : Qc),
     index ucr j = Ret ucrj /\ index r ic = Ret rC /\
     index ucrj ic = Ret uC /\ index out j = Ret (rC, uC, s)).
Proof.
  intros H Hj Hic. unfold critSlope in H.
  lift_split H as dNdr HdN. lift_split H as duCdr HduC.
  io_split H as out' o1 Hout. io_split H as t o2 Hrange.
  inversion H; subst out'; clear H.
  destruct (io_mapM_nth _ _ _ _ Hout) as [_ Hn].
  destruct (Hn (Z.to_nat j) j) as (y & outj & Hy & Hyn & _).
  { rewrite nth_error_range_up by lia. f_equal. lia. }
  lift_split Hy as ic' Hic'. assert (ic' = ic) by congruence. subst ic'.
  assert (Hidx : index out j = Ret y) by (apply index_nat; [lia | exact Hyn]).
  destruct (ic =? -1)%Z eqn:E.
  - apply Z.eqb_eq in E. inversion Hy; subst y.
    split; [intros _; exact Hidx | intro Hne; contradiction].
  - apply Z.eqb_neq in E. split; [intro; contradiction|]. intros _.
    lift_split Hy as ucrj Hucrj. lift_split Hy as dNdrj HdNj.
    lift_split Hy as duCdrj HduCj.
    destruct (critSlope_model_ret _ _ _ _ _ _ _ _ Hy)
      as [(rC & uC & sl & HrC & HuC & ->) _].
    exists ucrj, rC, uC, sl. auto.
Qed.

(** X18. For every model [critSlope] returns the radius and the critical
    speed at the index it is given for the model, [r[ic]] and
    [ucr[j,ic]]; a model whose index is -1 keeps the three zeros. *)
Theorem critSlope_returns_point_at_index :
  forall (sqrt : Qc -> Qc) (r : list Qc) (models steps : Z)
         (rhs ucr : list (list Qc)) (indexcrit : list Z)
         (out : list (Qc * Qc * Qc)) (log : list msg) (j ic : Z),
    critSlope sqrt r models steps rhs ucr indexcrit = (Ret out, log) ->
    (0 <= j < models)%Z -> index indexcrit j = Ret ic ->
    (ic = (-1)%Z -> index out j = Ret (0%Qc, 0%Qc, 0%Qc)) /\
    (ic <> (-1)%Z ->
     exists (ucrj : list Qc) (rC uC s : Qc),
       index ucr j = Ret ucrj /\ index r ic = Ret rC /\
       index ucrj ic = Ret uC /\ index out j = Ret (rC, uC, s)).
Proof.
  intros sqrt r models steps rhs ucr indexcrit out log j ic.
  apply critSlope_entry.
Qed.

(** X19. The line 'range of slopes' is printed exactly for a batch of more
    than one model, after the warnings of the square root; its two numbers
    bracket the slope of every model of the batch (the 0 of a model whose
    index is -1 included). *)
Theorem critSlope_range_of_slopes :
  forall (sqrt : Qc -> Qc) (r : list Qc) (models steps : Z)
         (rhs ucr : list (list Qc)) (indexcrit : list Z)
         (out : list (Qc * Qc * Qc)) (log : list msg),
    critSlope sqrt r models steps rhs ucr indexcrit = (Ret out, log) ->
    Z.of_nat (length out) = models /\
    ((1 < models)%Z ->
     exists lo hi : Qc,
       In (RangeOfSlopes lo hi) log /\
       forall t : Qc * Qc * Qc, In t out ->
         (lo <= snd t)%Qc /\ (snd t <= hi)%Qc) /\
    ((models <= 1)%Z -> forall m : msg, In m log -> m = InvalidSqrt).
Proof.
  intros sqrt r models steps rhs ucr indexcrit out log H.
  unfold critSlope in H.
  lift_split H as dNdr HdN. lift_split H as duCdr HduC.
  io_split H as out' o1 Hout rest o2. io_split H as t o3 Hrange rest o4.
  inversion H; subst; clear H.
  assert (H0 : (0 <= models)%Z).
  { unfold quickDeriv in HdN.
    destruct ((models <? 0)%Z || (steps <? 0)%Z) eqn:E; [discriminate|].
    apply orb_false_iff in E. destruct E as [E _].
    apply Z.ltb_ge in E. exact E. }
  destruct (io_mapM_nth _ _ _ _ Hout) as [Hlen _].
  rewrite range_up_length in Hlen.
  assert (Hmsgs : forall m, In m o1 -> m = InvalidSqrt).
  { intros m Hin.
    destruct (io_mapM_msgs _ _ _ _ Hout m Hin)
      as (x & y & outx & _ & Hfx & Hm).
    lift_split Hfx as ic Hic.
    destruct (ic =? -1)%Z; [inversion Hfx; subst; destruct Hm|].
    lift_split Hfx as ucrj Hucrj. lift_split Hfx as dNdrj HdNj.
    lift_split Hfx as duCdrj HduCj.
    exact (proj2 (critSlope_model_ret _ _ _ _ _ _ _ _ Hfx) m Hm). }
  split; [lia|]. split.
  - intro Hm. destruct (1 <? models)%Z eqn:E;
      [|apply Z.ltb_ge in E; lia].
    destruct out as [| [[rC uC] d] out]; [simpl in Hlen; lia|].
    simpl map in Hrange. inversion Hrange; subst; clear Hrange.
    exists (list_min d (map snd out)), (list_max d (map snd out)).
    split; [apply in_or_app; right; left; reflexivity|].
    destruct (list_min_le (map snd out) d) as [Hmin Hminl].
    destruct (list_max_ge (map snd out) d) as [Hmax Hmaxl].
    intros t0 [<- | Hin]; simpl.
    + split; assumption.
    + split; [apply Hminl | apply Hmaxl]; apply in_map; exact Hin.
  - intros Hm m Hin. destruct (1 <? models)%Z eqn:E;
      [apply Z.ltb_lt in E; lia|].
    inversion Hrange; subst. rewrite !app_nil_r in Hin.
    exact (Hmsgs m Hin).
Qed.

Lemma index_map {A B : Type} (f : A -> B) (l : list A) (i : Z) (a : A) :
  index l i = Ret a -> index (map f l) i = Ret (f a).
Proof.
  intro H. apply index_ret in H. destruct H as [H0 H].
  apply index_ret.
  assert (E : py_pos (map f l) i = py_pos l i)
    by (unfold py_pos; rewrite length_map; reflexivity).
  rewrite E. split; [exact H0|]. rewrite nth_error_map, H. reflexivity.
Qed.

(** X20. What [outflows] returns for the models of a batch: one pair per
    model; for a model the locator gave the index -1, the velocity row of
    zeros and the location 0; for a model with the critical index [k], a
    velocity row of [nsteps] entries and, as its location, the mean of the
    radii [r[k]] and [r[k+1]] less 1. *)
Theorem outflows_rows_and_locations :
  forall (sqrt : Qc -> Qc) (r : list Qc) (nmods nsteps : Z)
         (rhs ucr : list (list Qc)) (out : list (list Qc * Qc))
         (log : list msg),
    outflows sqrt r nmods nsteps rhs ucr = (Ret out, log) ->
    exists (ic : list Z) (log0 : list msg),
      locate r nmods nsteps rhs = (Ret ic, log0) /\
      Z.of_nat (length out) = nmods /\
      forall j k : Z, (0 <= j < nmods)%Z -> index ic j = Ret k ->
        (k = (-1)%Z -> index out j = Ret (zeros nsteps, 0%Qc)) /\
        (k <> (-1)%Z ->
         exists (uj : list Qc) (ra rb : Qc),
           index r k = Ret ra /\ index r (k + 1) = Ret rb /\
           index out j = Ret (uj, ((ra + rb) / Num.dec 2 1 - 1)%Qc) /\
           Z.of_nat (length uj) = nsteps).
Proof.
  intros sqrt r nmods nsteps rhs ucr out log H. unfold outflows in H.
  io_split H as ic o1 Hloc rest o2. io_split H as plus o3 Hplus rest o4.
  io_split H as minus o5 Hminus rest o6.
  exists ic, o1. split; [exact Hloc|].
  destruct (locate_spec _ _ _ _ _ _ Hloc) as (H0 & _ & D & _).
  destruct (io_mapM_nth _ _ _ _ H) as [Hlen Hn].
  rewrite range_up_length in Hlen. split; [lia|].
  intros j k Hj Hk.
  destruct (Hn (Z.to_nat j) j) as (y & outj & Hy & Hyn & _).
  { rewrite nth_error_range_up by lia. f_equal. lia. }
  assert (Hidx : index out j = Ret y) by (apply index_nat; [lia | exact Hyn]).
  unfold outflow_model in Hy.
  lift_split Hy as tm Htm. destruct tm as [[rCm uCm] dm].
  lift_split Hy as tp Htp. destruct tp as [[rCp uCp] dp].
  lift_split Hy as k' Hk'. assert (k' = k) by congruence. subst k'.
  destruct (k =? -1)%Z eqn:E.
  - apply Z.eqb_eq in E. inversion Hy; subst y.
    split; [intros _; exact Hidx | intro; contradiction].
  - apply Z.eqb_neq in E. split; [intro; contradiction|]. intros _.
    assert (K0 : (0 <= k)%Z).
    { destruct (D j Hj) as (k' & Hk2 & [(-> & _) | (K0 & _)]);
        [congruence|]. congruence. }
    destruct (proj2 (critSlope_entry _ _ _ _ _ _ _ _ _ _ _ Hminus Hj Hk) E)
      as (ucrj & ra & uC & sl & _ & Hra & _ & Hm).
    destruct (proj2 (critSlope_entry _ _ _ _ _ _ _ _ _ _ _ Hplus Hj
                       (index_map (Z.add 1) _ _ _ Hk)) ltac:(lia))
      as (ucrj' & rb & uC' & sl' & _ & Hrb & _ & Hp).
    replace (1 + k)%Z with (k + 1)%Z in Hrb by lia.
    rewrite Hm in Htm. inversion Htm; subst; clear Htm.
    rewrite Hp in Htp. inversion Htp; subst; clear Htp.
    lift_split Hy as ucrj2 Hucrj2. lift_split Hy as rhsj Hrhsj.
    io_split Hy as uj o7 Hs rest o8.
    destruct (negb (Z.of_nat (length uj) =? nsteps)%Z) eqn:L;
      [discriminate|].
    apply negb_false_iff, Z.eqb_eq in L.
    inversion Hy; subst y.
    exists uj, rCm, rCp. auto.
Qed.

(** ** [read_bzin]: the refined heights *)

Lemma refine_inner (ozx : list Qc) (multiple hi lo i : Z) (n : nat) :
  forall (a : Z) (zx zx' : list Qc) (flag flag' : Z),
  foldM (refine_point ozx multiple hi lo i) (range_up a (a + Z.of_nat n))
        (zx, flag) = Ret (zx', flag') ->
  (0 <= flag)%Z ->
  flag' = (flag + Z.of_nat n)%Z /\ length zx' = length zx /\
  ((0 < n)%nat -> (flag + Z.of_nat n <= Z.of_nat (length zx))%Z) /\
  (forall p : nat, (p < Z.to_nat flag)%nat ->
     nth_error zx' p = nth_error zx p) /\
  (forall l : Z, (a <= l < a + Z.of_nat n)%Z ->
     exists vhi vlo vi : Qc,
       index ozx hi = Ret vhi /\ index ozx lo = Ret vlo /\
       index ozx i = Ret vi /\ Q2Qc (multiple # 1) <> 0%Qc /\
       nth_error zx' (Z.to_nat (flag + (l - a)))
       = Some (vi + (vhi - vlo) / Q2Qc (multiple # 1) * Q2Qc (l # 1))%Qc).
Proof.
  induction n as [| n IH]; intros a zx zx' flag flag' H Hf.
  - rewrite range_up_nil in H by lia. inversion H; subst.
    repeat split; trivial; try lia.
  - replace (a + Z.of_nat (S n))%Z with (a + 1 + Z.of_nat n)%Z in * by lia.
    rewrite range_up_cons in H by lia. cbn [foldM] in H.
    bind_split H as st1 Hstep. destruct st1 as [zx1 flag1].
    unfold refine_point in Hstep.
    bind_split Hstep as vhi Hhi. bind_split Hstep as vlo Hlo.
    bind_split Hstep as delz Hdelz. bind_split Hstep as vi Hvi.
    bind_split Hstep as zx1' Hst. inversion Hstep; subst zx1' flag1.
    clear Hstep. apply div_ret in Hdelz. destruct Hdelz as [Hm ->].
    apply store_nat in Hst; [|exact Hf]. destruct Hst as [Hlt ->].
    destruct (IH _ _ _ _ _ H ltac:(lia)) as (Ef & El & Eb & Ek & Ev).
    rewrite upd_length in El, Eb.
    split; [lia|]. split; [exact El|]. split.
    { intros _. destruct n as [| n']; [lia|].
      pose proof (Eb ltac:(lia)). lia. }
    split.
    + intros p Hp. rewrite Ek by lia. apply upd_other. lia.
    + intros l Hl. destruct (Z.eq_dec l a) as [-> | Hne].
      * exists vhi, vlo, vi. repeat (split; [assumption|]).
        replace (flag + (a - a))%Z with flag by lia.
        rewrite Ek by lia. apply upd_same. exact Hlt.
      * destruct (Ev l ltac:(lia))
          as (vhi' & vlo' & vi' & H1 & H2 & H3 & H4 & H5).
        exists vhi', vlo', vi'. repeat (split; [assumption|]).
        replace (flag + (l - a))%Z with (flag + 1 + (l - (a + 1)))%Z by lia.
        exact H5.
Qed.

Lemma refine_outer (ozx : list Qc) (multiple : Z) (n : nat) :
  (0 <= multiple)%Z ->
  forall (a : Z) (zx zx' : list Qc) (flag flag' : Z),
  foldM (fun st i =>
           foldM (refine_point ozx multiple (i + 1) i i)
                 (range_up 0 multiple) st)
        (range_up a (a + Z.of_nat n)) (zx, flag) = Ret (zx', flag') ->
  (0 <= flag)%Z ->
  flag' = (flag + Z.of_nat n * multiple)%Z /\ length zx' = length zx /\
  (forall p : nat, (p < Z.to_nat flag)%nat ->
     nth_error zx' p = nth_error zx p) /\
  (forall i l : Z, (a <= i < a + Z.of_nat n)%Z -> (0 <= l < multiple)%Z ->
     exists vhi vi : Qc,
       index ozx (i + 1) = Ret vhi /\ index ozx i = Ret vi /\
       nth_error zx' (Z.to_nat (flag + (i - a) * multiple + l))
       = Some (vi + (vhi - vi) / Q2Qc (multiple # 1) * Q2Qc (l # 1))%Qc).
Proof.
  intro Hm. induction n as [| n IH]; intros a zx zx' flag flag' H Hf.
  - rewrite (range_up_nil a) in H by lia. inversion H; subst.
    repeat split; trivial; try lia.
  - replace (a + Z.of_nat (S n))%Z with (a + 1 + Z.of_nat n)%Z in * by lia.
    rewrite (range_up_cons a) in H by lia. cbn [foldM] in H.
    bind_split H as st1 Hin. destruct st1 as [zx1 flag1].
    replace (range_up 0 multiple)
      with (range_up 0 (0 + Z.of_nat (Z.to_nat multiple))) in Hin
      by (f_equal; lia).
    destruct (refine_inner _ _ _ _ _ _ _ _ _ _ _ Hin Hf)
      as (Ef1 & El1 & _ & Ek1 & Ev1).
    destruct (IH _ _ _ _ _ H ltac:(lia)) as (Ef & El & Ek & Ev).
    split; [nia|]. split; [congruence|]. split.
    + intros p Hp. rewrite Ek by lia. apply Ek1. exact Hp.
    + intros i l Hi Hl. destruct (Z.eq_dec i a) as [-> | Hne].
      * destruct (Ev1 l ltac:(lia))
          as (vhi & vlo & vi & H1 & H2 & H3 & _ & H5).
        assert (vlo = vi) by congruence. subst vlo.
        exists vhi, vi. repeat (split; [assumption|]).
        replace (flag + (a - a) * multiple + l)%Z
          with (flag + (l - 0))%Z by lia.
        rewrite Ek by lia. exact H5.
      * destruct (Ev i l ltac:(lia) Hl) as (vhi & vi & H1 & H2 & H3).
        exists vhi, vi. repeat (split; [assumption|]).
        replace (flag + (i - a) * multiple + l)%Z
          with (flag1 + (i - (a + 1)) * multiple + l)%Z by nia.
        exact H3.
Qed.

Lemma range_up_to_nat (a b : Z) :
  range_up a b = range_up a (a + Z.of_nat (Z.to_nat (b - a))).
Proof. unfold range_up. do 2 f_equal. lia. Qed.

Lemma refine_heights_spec :
  forall (ozx zx : list Qc) (nsteps multiple : Z),
    refine_heights ozx nsteps multiple = Ret zx -> (1 <= multiple)%Z ->
    (1 <= nsteps)%Z /\ Z.of_nat (length zx) = (nsteps * multiple)%Z /\
    (forall i l : Z, (0 <= i < nsteps - 1)%Z -> (0 <= l < multiple)%Z ->
       exists a b : Qc,
         index ozx i = Ret a /\ index ozx (i + 1) = Ret b /\
         index zx (i * multiple + l)
         = Ret (a + (b - a) / Q2Qc (multiple # 1) * Q2Qc (l # 1))%Qc) /\
    (forall l : Z, (0 <= l < multiple)%Z ->
       exists a b : Qc,
         index ozx (nsteps - 2) = Ret a /\ index ozx (nsteps - 1) = Ret b /\
         index zx ((nsteps - 1) * multiple + l)
         = Ret (b + (b - a) / Q2Qc (multiple # 1) * Q2Qc (l # 1))%Qc).
Proof.
  intros ozx zx nsteps multiple H Hm. unfold refine_heights in H.
  destruct (nsteps * multiple <? 0)%Z eqn:E0; [discriminate|].
  apply Z.ltb_ge in E0.
  bind_split H as st1 Hout. destruct st1 as [zx1 flag1].
  bind_split H as st2 Hlast. destruct st2 as [zx2 flag2].
  inversion H; subst zx; clear H. cbn [fst].
  rewrite (range_up_to_nat 0 (nsteps - 1)) in Hout.
  assert (Hm0 : (0 <= multiple)%Z) by lia.
  destruct (refine_outer _ _ _ Hm0 _ _ _ _ _ Hout ltac:(lia))
    as (Ef1 & El1 & _ & Ev1).
  rewrite (range_up_to_nat 0 multiple) in Hlast.
  destruct (refine_inner _ _ _ _ _ _ _ _ _ _ _ Hlast ltac:(nia))
    as (Ef2 & El2 & Eb2 & Ek2 & Ev2).
  unfold zeros in El1. rewrite repeat_length in El1.
  pose proof (Eb2 ltac:(lia)) as Hb.
  assert (Hn : (1 <= nsteps)%Z).
  { destruct (Z_le_gt_dec nsteps 0) as [L | G]; [|lia]. exfalso.
    assert (nsteps * multiple <= 0)%Z by nia.
    assert (flag1 = 0%Z) by nia. lia. }
  split; [exact Hn|]. split; [lia|]. split.
  - intros i l Hi Hl. destruct (Ev1 i l ltac:(lia) Hl)
      as (vhi & vi & H1 & H2 & H3).
    exists vi, vhi. repeat (split; [assumption|]).
    apply index_nat; [nia|]. rewrite Ek2 by nia.
    replace (i * multiple + l)%Z with (0 + (i - 0) * multiple + l)%Z by lia.
    exact H3.
  - intros l Hl. destruct (Ev2 l ltac:(lia))
      as (vhi & vlo & vi & H1 & H2 & H3 & _ & H5).
    assert (vi = vhi) by congruence. subst vi.
    exists vlo, vhi. repeat (split; [assumption|]).
    apply index_nat; [nia|].
    replace ((nsteps - 1) * multiple + l)%Z with (flag1 + (l - 0))%Z by nia.
    exact H5.
Qed.


(** X21. The heights [read_bzin] returns for a factor [multiple >= 1]:
    [nsteps*multiple] of them; the height [ozx[i]] of the file is the first
    of its block of [multiple], followed by equal sub-steps towards
    [ozx[i+1]]; the block of the last height continues beyond it with the
    sub-step of the last interval. *)
Theorem refine_heights_blocks :
  forall (ozx zx : list Qc) (nsteps multiple : Z),
    refine_heights ozx nsteps multiple = Ret zx -> (1 <= multiple)%Z ->
    (1 <= nsteps)%Z /\ Z.of_nat (length zx) = (nsteps * multiple)%Z /\
    (forall i l : Z, (0 <= i < nsteps - 1)%Z -> (0 <= l < multiple)%Z ->
       exists a b : Qc,
         index ozx i = Ret a /\ index ozx (i + 1) = Ret b /\
         index zx (i * multiple + l)
         = Ret (a + (b - a) / Q2Qc (multiple # 1) * Q2Qc (l # 1))%Qc) /\
    (forall l : Z, (0 <= l < multiple)%Z ->
       exists a b : Qc,
         index ozx (nsteps - 2) = Ret a /\ index ozx (nsteps - 1) = Ret b /\
         index zx ((nsteps - 1) * multiple + l)
         = Ret (b + (b - a) / Q2Qc (multiple # 1) * Q2Qc (l # 1))%Qc).
Proof. exact refine_heights_spec. Qed.

Lemma whole_nonzero (m : Z) : m <> 0%Z -> Q2Qc (m # 1) <> 0%Qc.
Proof.
  intros Hm E. change 0%Qc with (Q2Qc 0) in E.
  apply Q2Qc_eq_iff in E. unfold Qeq in E. simpl in E. lia.
Qed.

Lemma refine_inner_total (ozx : list Qc) (multiple hi lo i : Z)
  (vhi vlo vi : Qc) (n : nat) :
  index ozx hi = Ret vhi -> index ozx lo = Ret vlo -> index ozx i = Ret vi ->
  multiple <> 0%Z ->
  forall (a : Z) (zx : list Qc) (flag : Z),
  (0 <= flag)%Z -> (flag + Z.of_nat n <= Z.of_nat (length zx))%Z ->
  exists st : list Qc * Z,
    foldM (refine_point ozx multiple hi lo i) (range_up a (a + Z.of_nat n))
          (zx, flag) = Ret st.
Proof.
  intros Hhi Hlo Hi Hm. induction n as [| n IH]; intros a zx flag Hf Hb.
  - rewrite range_up_nil by lia. simpl. eauto.
  - replace (a + Z.of_nat (S n))%Z with (a + 1 + Z.of_nat n)%Z by lia.
    rewrite range_up_cons by lia. cbn [foldM]. unfold refine_point at 1.
    rewrite Hhi, Hlo. cbn [bind].
    rewrite (div_of _ _ (whole_nonzero _ Hm)). cbn [bind].
    rewrite Hi. cbn [bind]. rewrite store_in_range by lia. cbn [bind].
    apply IH; [lia | rewrite upd_length; lia].
Qed.

Lemma refine_outer_total (ozx : list Qc) (multiple : Z) (n : nat) :
  (1 <= multiple)%Z ->
  forall (a : Z) (zx : list Qc) (flag : Z),
  (0 <= a)%Z -> (a + Z.of_nat n + 1 <= Z.of_nat (length ozx))%Z ->
  (0 <= flag)%Z ->
  (flag + Z.of_nat n * multiple <= Z.of_nat (length zx))%Z ->
  exists st : list Qc * Z,
    foldM (fun st i =>
             foldM (refine_point ozx multiple (i + 1) i i)
                   (range_up 0 multiple) st)
          (range_up a (a + Z.of_nat n)) (zx, flag) = Ret st.
Proof.
  intro Hm. induction n as [| n IH]; intros a zx flag Ha Hl Hf Hb.
  - rewrite (range_up_nil a) by lia. simpl. eauto.
  - replace (a + Z.of_nat (S n))%Z with (a + 1 + Z.of_nat n)%Z by lia.
    rewrite (range_up_cons a) by lia. cbn [foldM].
    destruct (index_in_range ozx (a + 1)) as [vhi Hhi]; [lia|].
    destruct (index_in_range ozx a) as [vi Hi]; [lia|].
    rewrite (range_up_to_nat 0 multiple).
    destruct (refine_inner_total ozx multiple (a + 1) a a vhi vi vi
                (Z.to_nat (multiple - 0)) Hhi Hi Hi ltac:(lia) 0%Z zx flag
                Hf ltac:(nia)) as [[zx1 flag1] Hin].
    rewrite Hin. cbn [bind].
    destruct (refine_inner _ _ _ _ _ _ _ _ _ _ _ Hin Hf)
      as (Ef1 & El1 & _).
    rewrite <- (range_up_to_nat 0 multiple).
    apply IH; [lia | lia | lia | nia].
Qed.

Lemma index_before_last (l : list Qc) :
  (1 <= length l)%nat ->
  exists a, index l (Z.of_nat (length l) - 2) = Ret a.
Proof.
  intro H. destruct (Nat.eq_dec (length l) 1) as [E | E].
  - destruct l as [| x [| y l]]; try discriminate. exists x. reflexivity.
  - apply index_in_range. lia.
Qed.

Lemma refine_heights_total (ozx : list Qc) (nsteps multiple : Z) :
  Z.of_nat (length ozx) = nsteps -> (1 <= nsteps)%Z -> (1 <= multiple)%Z ->
  exists zx : list Qc, refine_heights ozx nsteps multiple = Ret zx.
Proof.
  intros Hl Hn Hm. unfold refine_heights.
  destruct (nsteps * multiple <? 0)%Z eqn:E0; [apply Z.ltb_lt in E0; nia|].
  rewrite (range_up_to_nat 0 (nsteps - 1)).
  destruct (refine_outer_total ozx multiple (Z.to_nat (nsteps - 1 - 0)) Hm
              0%Z (zeros (nsteps * multiple)) 0%Z)
    as [[zx1 flag1] Hout]; try lia.
  { unfold zeros. rewrite repeat_length. nia. }
  rewrite Hout. cbn [bind].
  assert (Hm0 : (0 <= multiple)%Z) by lia.
  destruct (refine_outer _ _ _ Hm0 _ _ _ _ _ Hout ltac:(lia))
    as (Ef1 & El1 & _).
  unfold zeros in El1. rewrite repeat_length in El1.
  destruct (index_in_range ozx (nsteps - 1)) as [vhi Hhi]; [lia|].
  destruct (index_before_last ozx ltac:(lia)) as [vlo Hlo].
  rewrite Hl in Hlo.
  rewrite (range_up_to_nat 0 multiple).
  destruct (refine_inner_total ozx multiple (nsteps - 1) (nsteps - 2)
              (nsteps - 1) vhi vlo vhi (Z.to_nat (multiple - 0))
              Hhi Hlo Hhi ltac:(lia) 0%Z zx1 flag1 ltac:(nia) ltac:(nia))
    as [[zx2 flag2] Hlast].
  rewrite Hlast. cbn [bind fst]. eauto.
Qed.

Lemma mapM_tabulate {B : Type} (f : Z -> res B) (l : list B) :
  forall a : Z,
  (forall (n : nat) (y : B),
     nth_error l n = Some y -> f (a + Z.of_nat n)%Z = Ret y) ->
  mapM f (range_up a (a + Z.of_nat (length l))) = Ret l.
Proof.
  induction l as [| y l IH]; intros a H.
  - rewrite range_up_nil by (simpl; lia). reflexivity.
  - replace (a + Z.of_nat (length (y :: l)))%Z
      with (a + 1 + Z.of_nat (length l))%Z by (simpl length; lia).
    rewrite range_up_cons by lia. cbn [mapM].
    pose proof (H 0%nat y eq_refl) as H0.
    replace (a + Z.of_nat 0)%Z with a in H0 by lia. rewrite H0. cbn [bind].
    rewrite IH; [reflexivity|].
    intros n z Hn. replace (a + 1 + Z.of_nat n)%Z
      with (a + Z.of_nat (S n))%Z by lia.
    apply H. exact Hn.
Qed.

(** X22. With the factor 1, as [main] calls it, [read_bzin] gives back the
    heights and the field rows of the file unchanged, on a strictly
    increasing grid of heights. *)
Theorem read_bzin_round_trip :
  forall (ozx : list Qc) (oB : list (list Qc)) (nmods nsteps : Z),
    increasing ozx = true ->
    Z.of_nat (length ozx) = nsteps -> (1 <= nsteps)%Z ->
    Z.of_nat (length oB) = nmods ->
    (forall row : list Qc, In row oB -> length row = length ozx) ->
    read_bzin ozx oB nmods nsteps 1 = Ret (nmods, nsteps, oB, ozx).
Proof.
  intros ozx oB nmods nsteps Hinc Hl Hn Hmods Hrows.
  destruct (refine_heights_total ozx nsteps 1 Hl Hn ltac:(lia)) as [zx Hzx].
  destruct (refine_heights_spec _ _ _ _ Hzx ltac:(lia))
    as (_ & Len & Blocks & Last).
  assert (E : zx = ozx).
  { apply nth_error_ext. intro p.
    destruct (Z_lt_ge_dec (Z.of_nat p) (nsteps - 1)) as [L | G].
    - destruct (Blocks (Z.of_nat p) 0%Z ltac:(lia) ltac:(lia))
        as (a & b & Ha & _ & Hv).
      apply index_nat in Ha, Hv; try lia.
      replace (Z.to_nat (Z.of_nat p * 1 + 0)) with p in Hv by lia.
      rewrite Nat2Z.id in Ha. rewrite Ha, Hv. f_equal.
      change (Q2Qc (0 # 1)) with 0%Qc. ring.
    - destruct (Z.eq_dec (Z.of_nat p) (nsteps - 1)) as [Ep | Np].
      + destruct (Last 0%Z ltac:(lia)) as (a & b & _ & Hb & Hv).
        apply index_nat in Hb, Hv; try lia.
        replace (Z.to_nat ((nsteps - 1) * 1 + 0)) with p in Hv by lia.
        replace (Z.to_nat (nsteps - 1)) with p in Hb by lia.
        rewrite Hb, Hv. f_equal.
        change (Q2Qc (0 # 1)) with 0%Qc. ring.
      + assert (N1 : nth_error zx p = None) by (apply nth_error_None; lia).
        assert (N2 : nth_error ozx p = None) by (apply nth_error_None; lia).
        congruence. }
  subst zx. unfold read_bzin. rewrite Hzx. cbn [bind].
  destruct (nmods <? 0)%Z eqn:E0; [apply Z.ltb_lt in E0; lia|].
  replace (range_up 0 nmods) with (range_up 0 (0 + Z.of_nat (length oB)))
    by (f_equal; lia).
  rewrite mapM_tabulate; [rewrite Hl; reflexivity|].
  intros j oBj Hj. rewrite Z.add_0_l.
  pose proof (Hrows _ (nth_error_In _ _ Hj)) as Hrow.
  replace (range_up 0 (Z.of_nat (length ozx)))
    with (range_up 0 (0 + Z.of_nat (length oBj))) by (f_equal; lia).
  apply mapM_tabulate. intros k y Hy. rewrite Z.add_0_l.
  destruct (index_in_range ozx (Z.of_nat k)) as [rk Hrk].
  { assert (k < length oBj)%nat by (apply nth_error_Some; congruence). lia. }
  rewrite Hrk. cbn [bind].
  rewrite (proj2 (index_nat oB (Z.of_nat j) oBj ltac:(lia)))
    by (rewrite Nat2Z.id; exact Hj).
  cbn [bind].
  apply (interp_sample ozx oBj k); trivial; [congruence|].
  apply index_nat in Hrk; [|lia]. rewrite Nat2Z.id in Hrk. exact Hrk.
Qed.

(** ** [main]: the grid of radii *)

Lemma Rsun_positive : (0 < Rsun)%Qc.
Proof. reflexivity. Qed.

Lemma Rsun_nonzero : Rsun <> 0%Qc.
Proof. apply whole_nonzero. lia. Qed.

Lemma increasing_from_map (f : Qc -> Qc) (l : list Qc) :
  (forall x y : Qc, (x < y)%Qc -> (f x < f y)%Qc) ->
  forall x : Qc,
  increasing_from x l = true -> increasing_from (f x) (map f l) = true.
Proof.
  intro Hf. induction l as [| y l IH]; intros x H; simpl in *; trivial.
  apply andb_true_iff in H. destruct H as [Hxy Hl].
  apply andb_true_iff. split; [|exact (IH _ Hl)].
  apply ltb_true, Hf, ltb_true, Hxy.
Qed.

Lemma increasing_map (f : Qc -> Qc) (l : list Qc) :
  (forall x y : Qc, (x < y)%Qc -> (f x < f y)%Qc) ->
  increasing l = true -> increasing (map f l) = true.
Proof.
  intros Hf H. destruct l as [| x l]; [reflexivity|].
  exact (increasing_from_map f l Hf x H).
Qed.

Lemma radius_monotone (x y : Qc) :
  (x < y)%Qc -> ((x + 1) * Rsun < (y + 1) * Rsun)%Qc.
Proof.
  intro H. apply Qcmult_lt_compat_r; [exact Rsun_positive|].
  unfold Qclt in *. rewrite !this_plus. lra.
Qed.

(** The heights after the first one is kept away from 0. *)
Lemma main_grid_heights (zx zx' rm : list Qc) :
  main_grid zx = Ret (zx', rm) ->
  exists (z0 : Qc) (tl : list Qc),
    zx = z0 :: tl /\
    zx' = (if (z0 =? 0)%Qc then Num.dec 1 10000000000 else z0) :: tl /\
    rm = map (fun z => ((z + 1) * Rsun)%Qc) zx'.
Proof.
  intro H. unfold main_grid in H. bind_split H as z0 Hz0.
  bind_split H as zx1 Hzx1. inversion H; subst zx' rm; clear H.
  destruct zx as [| z tl]; [discriminate|].
  inversion Hz0; subst z. exists z0, tl. split; [reflexivity|].
  rewrite map_map. split; [|reflexivity].
  destruct (z0 =? 0)%Qc; inversion Hzx1; reflexivity.
Qed.


Lemma heights_exact (zx zx' rm : list Qc) :
  main_grid zx = Ret (zx', rm) -> heights rm = zx'.
Proof.
  intro H.
  destruct (main_grid_heights _ _ _ H) as (z0 & tl & _ & _ & ->).
  unfold heights. rewrite map_map. rewrite <- (map_id zx') at 2.
  apply map_ext. intro z. field. exact Rsun_nonzero.
Qed.

(** X24. The heights [fullRHS] and [waveaction] compute back from the
    radii, [zx = r/Rsun - 1], are the heights [main] built the radii from
    only up to rounding: in binary64 the height [10**-10] that [main] puts
    first comes back as 1.000000082740371e-10, and 0.01 as
    0.010000000000000009.  In exact arithmetic they are the same. *)
Theorem heights_of_main_grid :
  B64.recomputed_height 1e-10 = Ret 1.000000082740371e-10%float
  /\ (1e-10 =? 1.000000082740371e-10)%float = false
  /\ B64.recomputed_height 0.01 = Ret 0.010000000000000009%float
  /\ (0.01 =? 0.010000000000000009)%float = false
  /\ (forall zx zx' rm : list Qc,
        main_grid zx = Ret (zx', rm) -> heights rm = zx').
Proof.
  repeat split; try (vm_compute; reflexivity). exact heights_exact.
Qed.

(** ** [miranda]: the right-hand side at a point of the grid *)

Lemma mH_nonzero : mH <> 0%Qc.
Proof.
  intro E. assert (H : this mH = this 0%Qc) by (rewrite E; reflexivity).
  vm_compute in H. discriminate.
Qed.

Lemma leb_false (x y : Qc) : (x <=? y)%Qc = false <-> (y < x)%Qc.
Proof.
  split; intro H.
  - apply Qcnot_le_lt. intro L. apply leb_true in L. congruence.
  - destruct (x <=? y)%Qc eqn:E; trivial.
    apply leb_true in E. exfalso. exact (Qclt_not_le _ _ H E).
Qed.

(** The two tests that assign [xion] are complementary: whatever value the
    variable had, it is 0 below the transition region and 1 from it on. *)
Lemma xion_assigned (q z : Qc) (xion : option Qc) :
  (if (z <=? q)%Qc then Some 1%Qc
   else if (q <? z)%Qc then Some 0%Qc else xion)
  = Some (if (q <? z)%Qc then 0%Qc else 1%Qc).
Proof.
  destruct (z <=? q)%Qc eqn:E2, (q <? z)%Qc eqn:E1; trivial.
  - apply leb_true in E2. apply ltb_true in E1.
    exfalso. exact (Qclt_not_le _ _ E1 E2).
  - apply leb_false in E2. apply ltb_false in E1.
    exfalso. exact (Qclt_not_le _ _ E2 E1).
Qed.

(** X25. At a point of the grid [miranda] stores the critical speed
    [sqrt((1+xion)*k*T/mH)], with [xion] 0 below the height of the
    transition region and 1 from it on, and, when the square of that root is
    its argument, the right-hand side
    [-G*Msun/r^2 - (1+xion)*(k/mH)*(T*(dB/dr)/B + dT/dr)]; the radius, the
    field and the temperature are then not 0 and the temperature is not
    negative. *)
Theorem miranda_rhs_closed_form :
  forall (sqrt : Qc -> Qc) (rm : list Qc) (B dBdr T dTdr : list (list Qc))
         (zTR : list Qc) (j k : Z) (xion xion' : option Qc)
         (ucrj rhsj ucrj' rhsj' : list Qc),
    miranda_point sqrt rm B dBdr T dTdr zTR j (xion, ucrj, rhsj) k
    = Ret (xion', ucrj', rhsj') ->
    exists (Bj dBj Tj dTj : list Qc) (rk zTRj Tjk Bjk dBjk dTjk x : Qc),
      index B j = Ret Bj /\ index dBdr j = Ret dBj /\
      index T j = Ret Tj /\ index dTdr j = Ret dTj /\
      index rm k = Ret rk /\ index zTR j = Ret zTRj /\
      index Tj k = Ret Tjk /\ index Bj k = Ret Bjk /\
      index dBj k = Ret dBjk /\ index dTj k = Ret dTjk /\
      x = (if (rk / Rsun <? zTRj + 1)%Qc then 0%Qc else 1%Qc) /\
      xion' = Some x /\
      rk <> 0%Qc /\ Bjk <> 0%Qc /\ Tjk <> 0%Qc /\
      (0 <= (1 + x) * boltzk * Tjk / mH)%Qc /\
      index ucrj' k = Ret (sqrt ((1 + x) * boltzk * Tjk / mH)%Qc) /\
      ((sqrt ((1 + x) * boltzk * Tjk / mH) * sqrt ((1 + x) * boltzk * Tjk / mH)
        = (1 + x) * boltzk * Tjk / mH)%Qc ->
       index rhsj' k
       = Ret (- G * Msun / (rk * rk)
              - (1 + x) * boltzk / mH * (Tjk * (dBjk / Bjk) + dTjk))%Qc).
Proof.
  intros sqrt rm B dBdr T dTdr zTR j k xion xion' ucrj rhsj ucrj' rhsj' H.
  unfold miranda_point in H. cbv zeta in H.
  bind_split H as rk Hrk. bind_split H as zTRj Hz.
  bind_split H as rk' Hrk'. bind_split H as zTRj' Hz'.
  assert (rk' = rk) by congruence. assert (zTRj' = zTRj) by congruence.
  subst rk' zTRj'. rewrite xion_assigned in H.
  set (x := if (rk / Rsun <? zTRj + 1)%Qc then 0%Qc else 1%Qc) in *.
  bind_split H as Tj HTj. bind_split H as Tjk HTjk.
  bind_split H as c Hc. bind_split H as ucrj1 Hst1.
  bind_split H as rk2 Hrk2. assert (rk2 = rk) by congruence. subst rk2.
  bind_split H as grav Hgrav. bind_split H as c1 Hc1.
  bind_split H as dBj HdBj. bind_split H as dBjk HdBjk.
  bind_split H as Bj HBj. bind_split H as Bjk HBjk.
  bind_split H as qB HqB. bind_split H as c2 Hc2.
  bind_split H as dTj HdTj. bind_split H as dTjk HdTjk.
  bind_split H as Tj' HTj'. assert (Tj' = Tj) by congruence. subst Tj'.
  bind_split H as Tjk' HTjk'. assert (Tjk' = Tjk) by congruence.
  subst Tjk'. bind_split H as qT HqT. bind_split H as rhsj1 Hst2.
  inversion H; subst xion' ucrj' rhsj'; clear H.
  unfold np_sqrt in Hc.
  destruct (_ <? 0)%Qc eqn:Erad in Hc; [discriminate|].
  inversion Hc; subst c; clear Hc. apply ltb_false in Erad.
  pose proof (index_store_same _ _ _ _ Hst1) as Hu.
  assert (c1 = sqrt ((1 + x) * boltzk * Tjk / mH)%Qc) by congruence.
  assert (c2 = sqrt ((1 + x) * boltzk * Tjk / mH)%Qc) by congruence.
  subst c1 c2.
  apply div_ret in Hgrav, HqB, HqT.
  destruct Hgrav as [Hr2 ->]. destruct HqB as [HB0 ->].
  destruct HqT as [HT0 ->].
  change (rk ^ 2)%Qc with (rk * (rk * 1))%Qc in *.
  assert (Hr0 : rk <> 0%Qc).
  { intro E. apply Hr2. rewrite E. ring. }
  exists Bj, dBj, Tj, dTj, rk, zTRj, Tjk, Bjk, dBjk, dTjk, x.
  repeat (split; [assumption || reflexivity|]).
  intro Hsq. rewrite (index_store_same _ _ _ _ Hst2). f_equal.
  set (s := sqrt ((1 + x) * boltzk * Tjk / mH)%Qc) in *.
  assert (Esq : (s ^ 2)%Qc = ((1 + x) * boltzk * Tjk / mH)%Qc).
  { rewrite <- Hsq. change (s ^ 2)%Qc with (s * (s * 1))%Qc. ring. }
  rewrite Esq. field.
  repeat split; trivial. exact mH_nonzero.
Qed.

(** ** [miranda]: the exceptions of the assembly *)

Lemma fails_only_bind {A B : Type} (P : exn -> Prop) (c : res A)
  (k : A -> res B) :
  fails_only P c -> (forall a, c = Ret a -> fails_only P (k a)) ->
  fails_only P (bind c k).
Proof.
  destruct c as [a | e |]; simpl; intros Hc Hk; auto.
Qed.

Lemma fails_only_index {A : Type} (l : list A) (i : Z) :
  fails_only index_or_arithmetic (index l i).
Proof.
  destruct (index_cases l i) as [[a ->] | ->]; simpl; [trivial|].
  left. reflexivity.
Qed.

Lemma fails_only_store {A : Type} (l : list A) (i : Z) (v : A) :
  fails_only index_or_arithmetic (store l i v).
Proof.
  destruct (store_cases l i v) as [[a ->] | ->]; simpl; [trivial|].
  left. reflexivity.
Qed.

Lemma fails_only_div (x y : Qc) : fails_only index_or_arithmetic (x /! y).
Proof.
  unfold Num.div. destruct (y =? 0)%Qc; simpl; [|trivial].
  right. left. reflexivity.
Qed.

Lemma fails_only_np_sqrt (sqrt : Qc -> Qc) (x : Qc) :
  fails_only index_or_arithmetic (np_sqrt sqrt x).
Proof.
  unfold np_sqrt. destruct (x <? 0)%Qc; simpl; [|trivial].
  right. left. reflexivity.
Qed.

Lemma fails_only_foldM {S X : Type} (P : exn -> Prop)
  (f : S -> X -> res S) (l : list X) :
  (forall s x, fails_only P (f s x)) ->
  forall s, fails_only P (foldM f l s).
Proof.
  intro H. induction l as [| x l IH]; intro s; simpl; [trivial|].
  apply fails_only_bind; [apply H | intros; apply IH].
Qed.

Create HintDb fails.

#[local] Hint Resolve fails_only_index fails_only_store fails_only_div
  fails_only_np_sqrt : fails.

Ltac fails_step :=
  apply fails_only_bind; [auto with fails | intros ? _].

Lemma fails_only_miranda_point (sqrt : Qc -> Qc) (rm : list Qc)
  (B dBdr T dTdr : list (list Qc)) (zTR : list Qc) (j k : Z)
  (st : option Qc * list Qc * list Qc) :
  fails_only index_or_arithmetic
    (miranda_point sqrt rm B dBdr T dTdr zTR j st k).
Proof.
  destruct st as [[xion ucrj] rhsj]. unfold miranda_point. cbv zeta.
  apply fails_only_bind; [auto with fails | intros rk Hrk].
  apply fails_only_bind; [auto with fails | intros z Hz].
  apply fails_only_bind; [auto with fails | intros rk' Hrk'].
  apply fails_only_bind; [auto with fails | intros z' Hz'].
  assert (rk' = rk) by congruence. assert (z' = z) by congruence.
  subst rk' z'. rewrite xion_assigned.
  repeat fails_step. simpl. trivial.
Qed.

(** X26. The two separate tests that assign [xion] in [miranda] are
    complementary when the two numbers they compare, [rm[k]/Rsun] and
    [zTR[j]+1], are numbers: in binary64 one of them then holds and [xion]
    is assigned; when one of the two is a NaN neither holds and [xion]
    stays as it was, unbound at the first point.  On arrays of numbers the
    assembly of the right-hand side therefore ends with its two arrays or
    with an exception of an array access, of the arithmetic or of the
    creation of an array, and not with an unbound [xion]. *)
Theorem miranda_rhs_failures :
  (forall (a b : float) (xion : option Z),
     is_nan a = false -> is_nan b = false ->
     B64.xion_after a b xion <> None)
  /\ (forall (a b : float) (xion : option Z),
        is_nan a = true \/ is_nan b = true ->
        B64.xion_after a b xion = xion)
  /\ (forall (sqrt : Qc -> Qc) (rm : list Qc) (nmods nsteps : Z)
             (B dBdr T dTdr : list (list Qc)) (zTR : list Qc),
        fails_only index_or_arithmetic
          (miranda_rhs sqrt rm nmods nsteps B dBdr T dTdr zTR)).
Proof.
  split; [exact b64_xion_assigned|]. split; [exact b64_xion_unbound|].
  intros sqrt rm nmods nsteps B dBdr T dTdr zTR. unfold miranda_rhs.
  destruct ((nmods <? 0)%Z || (nsteps <? 0)%Z);
    [simpl; right; right; reflexivity|].
  apply fails_only_bind.
  - apply fails_only_foldM. intros [[xion ucr] rhs] j.
    apply fails_only_bind.
    + apply fails_only_foldM. intros st k.
      apply fails_only_miranda_point.
    + intros [[xion' ucrj] rhsj] _. simpl. trivial.
  - intros [[xion ucr] rhs] _. simpl. trivial.
Qed.

(** ** [waveaction]: the running integral of the damping rate *)

Lemma intRS_loop (r RSj : list Qc) (n : nat) :
  forall (a : Z) (I0 I' : list Qc),
  foldM (intRS_step r RSj) (range_up a (a + Z.of_nat n)) I0 = Ret I' ->
  (0 <= a)%Z ->
  length I' = length I0 /\
  (forall k : nat, (k <= Z.to_nat a)%nat ->
     nth_error I' k = nth_error I0 k) /\
  (forall i : Z, (a <= i < a + Z.of_nat n)%Z -> damped r RSj I' i).
Proof.
  induction n as [| n IH]; intros a I0 I' H Ha.
  - rewrite range_up_nil in H by lia. inversion H; subst.
    repeat split; trivial. intros; lia.
  - replace (a + Z.of_nat (S n))%Z with (a + 1 + Z.of_nat n)%Z in * by lia.
    rewrite range_up_cons in H by lia. cbn [foldM] in H.
    bind_split H as I1 Hstep. unfold intRS_step in Hstep.
    bind_split Hstep as rnext Hrn. bind_split Hstep as ri Hri.
    bind_split Hstep as fi Hfi. bind_split Hstep as ri' Hri'.
    assert (ri' = ri) by congruence. subst ri'.
    bind_split Hstep as v Hv.
    pose proof (index_store_same _ _ _ _ Hstep) as Hv1.
    apply store_nat in Hstep; [|lia]. destruct Hstep as [Hlt ->].
    destruct (IH _ _ _ H ltac:(lia)) as (El & Ek & Ed).
    rewrite upd_length in El.
    assert (Hk0 : forall k : nat, (k <= Z.to_nat a)%nat ->
              nth_error I' k = nth_error I0 k).
    { intros k Hk. rewrite Ek by lia. apply upd_other. lia. }
    split; [exact El|]. split; [exact Hk0|].
    intros i Hi. destruct (Z.eq_dec i a) as [-> | Hne].
    + exists ri, rnext, fi, v. repeat split; trivial.
      * apply index_nat; [lia|]. rewrite Hk0 by lia.
        apply index_nat; [lia | exact Hfi].
      * apply index_nat; [lia|]. rewrite Ek by lia.
        apply index_nat; [lia | exact Hv1].
    + apply Ed. lia.
Qed.

(** X27. The running integral [intRS] of [waveaction] for one model: its
    first entry is the trapezoid of the rate over the first interval of the
    grid, [(RS[1]+RS[0])/2*(r[1]-r[0])], and every further entry is what
    [rk4] integrates to from the entry before it over one interval of the
    grid; there are [steps] entries. *)
Theorem intRS_row_integrated :
  forall (r RSj I : list Qc) (steps : Z),
    intRS_row r steps RSj = Ret I ->
    Z.of_nat (length I) = steps /\
    (exists a b r1 r0 : Qc,
       index RSj 1 = Ret a /\ index RSj 0 = Ret b /\
       index r 1 = Ret r1 /\ index r 0 = Ret r0 /\
       index I 0 = Ret ((a + b) / Num.dec 2 1 * (r1 - r0))%Qc) /\
    (forall i : Z, (0 <= i < steps - 1)%Z -> damped r RSj I i).
Proof.
  intros r RSj I steps H. unfold intRS_row in H.
  bind_split H as a Ha. bind_split H as b Hb.
  bind_split H as r1 Hr1. bind_split H as r0 Hr0.
  bind_split H as I0 HI0.
  pose proof (index_store_same _ _ _ _ HI0) as H0.
  pose proof (store_length _ _ _ _ HI0) as L0.
  unfold zeros in L0. rewrite repeat_length in L0.
  assert (Hs : (1 <= steps)%Z).
  { apply store_nat in HI0; [|lia]. destruct HI0 as [Hlt _].
    unfold zeros in Hlt. rewrite repeat_length in Hlt. lia. }
  rewrite (range_up_to_nat 0 (steps - 1)) in H.
  destruct (intRS_loop _ _ _ _ _ _ H ltac:(lia)) as (El & Ek & Ed).
  split; [lia|]. split.
  - exists a, b, r1, r0. repeat (split; [assumption|]).
    apply index_nat; [lia|]. rewrite Ek by lia.
    apply index_nat; [lia | exact H0].
  - intros i Hi. apply Ed. lia.
Qed.

(** ** [read_bzin]: beyond the last height of the file *)

Lemma interp_from_beyond (xs : list Qc) :
  forall (fs : list Qc) (x x0 f0 fl : Qc),
  length xs = length fs ->
  (forall y : Qc, In y xs -> (y <= x)%Qc) ->
  nth_error (f0 :: fs) (length fs) = Some fl ->
  interp_from x x0 f0 xs fs = fl.
Proof.
  induction xs as [| x1 xs IH]; intros [| f1 fs] x x0 f0 fl Hl Hall Hfl;
    try discriminate.
  - simpl in *. congruence.
  - simpl. rewrite (ltb_irrefl_ge _ _ (Hall x1 (or_introl eq_refl))).
    apply IH; [simpl in Hl; congruence | | exact Hfl].
    intros y Hy. apply Hall. right. exact Hy.
Qed.

Lemma interp_beyond (r d : list Qc) (x rl dl : Qc) :
  increasing r = true -> length r = length d ->
  nth_error r (length r - 1) = Some rl ->
  nth_error d (length d - 1) = Some dl ->
  (rl <= x)%Qc -> interp x r d = Ret dl.
Proof.
  intros Hr Hl Hrl Hdl Hx.
  assert (Hall : forall (n : nat) (y : Qc),
             nth_error r n = Some y -> (y <= x)%Qc).
  { intros n y Hn.
    assert (Hlt : (n < length r)%nat) by (apply nth_error_Some; congruence).
    destruct (Nat.eq_dec n (length r - 1)) as [-> | Hne].
    - assert (y = rl) by congruence. subst. exact Hx.
    - apply Qclt_le_weak.
      apply (Qclt_le_trans _ rl); [|exact Hx].
      apply (increasing_lt r n (length r - 1)); trivial. lia. }
  unfold interp. destruct r as [| x0 xs]; [discriminate|].
  destruct d as [| f0 fs]; [discriminate|].
  simpl in Hl. injection Hl as Hl. rewrite Hl, Nat.eqb_refl. simpl negb.
  cbv iota. simpl length in Hrl, Hdl.
  rewrite Nat.sub_succ, Nat.sub_0_r in Hrl, Hdl.
  destruct (x <=? x0)%Qc eqn:E.
  - apply leb_true in E. f_equal.
    destruct xs as [| x1 xs].
    + destruct fs; [|discriminate]. simpl in Hdl. congruence.
    + exfalso.
      assert (H1 : (x0 < x1)%Qc).
      { simpl in Hr. apply andb_true_iff in Hr. apply ltb_true, Hr. }
      pose proof (Hall 1%nat x1 eq_refl) as H2.
      exact (Qclt_not_le _ _ H1 (Qcle_trans _ _ _ H2 E)).
  - f_equal. apply interp_from_beyond; [exact Hl | | exact Hdl].
    intros y Hy. destruct (In_nth_error _ _ Hy) as [n Hn].
    exact (Hall (S n) y Hn).
Qed.

Lemma whole_positive (m : Z) : (0 < m)%Z -> (0 < Q2Qc (m # 1))%Qc.
Proof.
  intro H. unfold Qclt. change (this (Q2Qc (m # 1))) with (Qred (m # 1)).
  rewrite Qred_correct. unfold Qlt. simpl. lia.
Qed.

Lemma whole_nonnegative (m : Z) : (0 <= m)%Z -> (0 <= Q2Qc (m # 1))%Qc.
Proof.
  intro H. unfold Qcle. change (this (Q2Qc (m # 1))) with (Qred (m # 1)).
  rewrite Qred_correct. unfold Qle. simpl. lia.
Qed.

Lemma substep_beyond (a b : Qc) (m l : Z) :
  (a < b)%Qc -> (0 < m)%Z -> (0 <= l)%Z ->
  (b <= b + (b - a) / Q2Qc (m # 1) * Q2Qc (l # 1))%Qc.
Proof.
  intros Hab Hm Hl.
  assert (Ht : (0 <= (b - a) / Q2Qc (m # 1))%Qc).
  { apply (Qcmult_lt_0_le_reg_r _ _ _ (whole_positive m Hm)).
    replace (0 * Q2Qc (m # 1))%Qc with 0%Qc by ring.
    replace ((b - a) / Q2Qc (m # 1) * Q2Qc (m # 1))%Qc with (b - a)%Qc
      by (field; apply whole_nonzero; lia).
    apply minus_nonneg, Hab. }
  pose proof (Qcmult_le_compat_r _ _ _ Ht (whole_nonnegative l Hl)) as H.
  replace (0 * Q2Qc (l # 1))%Qc with 0%Qc in H by ring.
  unfold Qcle in *. rewrite this_plus.
  change (this 0%Qc) with 0%Q in H. lra.
Qed.

(** X28. The heights [read_bzin] returns continue beyond the last height
    of the file (for a factor above 1), and the field it returns there is
    the last value of the row of the file: at the [multiple] heights of the
    last block the interpolation is at or beyond the end of its data. *)
Theorem read_bzin_flat_beyond_last_height :
  forall (ozx : list Qc) (oB B : list (list Qc)) (zx : list Qc)
         (nmods nsteps multiple n' s' : Z),
    read_bzin ozx oB nmods nsteps multiple = Ret (n', s', B, zx) ->
    increasing ozx = true -> Z.of_nat (length ozx) = nsteps ->
    (2 <= nsteps)%Z -> (1 <= multiple)%Z ->
    (forall row : list Qc, In row oB -> length row = length ozx) ->
    forall j l : Z, (0 <= j < nmods)%Z -> (0 <= l < multiple)%Z ->
      exists (Bj oBj : list Qc) (zl hl bl : Qc),
        index B j = Ret Bj /\ index oB j = Ret oBj /\
        index ozx (nsteps - 1) = Ret hl /\
        index oBj (nsteps - 1) = Ret bl /\
        index zx ((nsteps - 1) * multiple + l) = Ret zl /\
        (hl <= zl)%Qc /\
        index Bj ((nsteps - 1) * multiple + l) = Ret bl.
Proof.
  intros ozx oB B zx nmods nsteps multiple n' s' H Hinc Hlen Hn Hm Hrows
         j l Hj Hl.
  unfold read_bzin in H. bind_split H as zx0 Hzx.
  destruct (nmods <? 0)%Z; [discriminate|].
  bind_split H as B0 HB. inversion H; subst n' s' B0 zx0; clear H.
  destruct (refine_heights_spec _ _ _ _ Hzx Hm) as (_ & Len & _ & Last).
  destruct (Last l Hl) as (a & b & Ha & Hb & Hz).
  destruct (mapM_range_up _ _ _ _ j HB Hj) as (Bj & Hrow & HBj).
  replace (j - 0)%Z with j in HBj by lia.
  destruct (mapM_range_up _ _ _ _ ((nsteps - 1) * multiple + l)%Z Hrow)
    as (y & Hy & Hyn); [nia|].
  replace ((nsteps - 1) * multiple + l - 0)%Z
    with ((nsteps - 1) * multiple + l)%Z in Hyn by lia.
  bind_split Hy as zk Hzk. bind_split Hy as oBj HoBj.
  assert (zk = (b + (b - a) / Q2Qc (multiple # 1) * Q2Qc (l # 1))%Qc)
    by congruence.
  subst zk.
  assert (Hab : (a < b)%Qc).
  { apply (increasing_lt ozx (Z.to_nat (nsteps - 2)) (Z.to_nat (nsteps - 1)));
      trivial; [lia | |]; apply index_nat; trivial; lia. }
  pose proof (substep_beyond a b multiple l Hab ltac:(lia) ltac:(lia))
    as Hbeyond.
  pose proof HoBj as HoBj'. apply index_nat in HoBj'; [|lia].
  pose proof (Hrows _ (nth_error_In _ _ HoBj')) as Hrow'.
  destruct (index_in_range oBj (nsteps - 1)) as [bl Hbl]; [lia|].
  assert (y = bl).
  { assert (E : interp (b + (b - a) / Q2Qc (multiple # 1) * Q2Qc (l # 1))%Qc
                  ozx oBj = Ret bl).
    { apply (interp_beyond ozx oBj _ b bl); trivial; [congruence | |].
      - apply index_nat in Hb; [|lia].
        replace (length ozx - 1)%nat with (Z.to_nat (nsteps - 1)) by lia.
        exact Hb.
      - apply index_nat in Hbl; [|lia].
        replace (length oBj - 1)%nat with (Z.to_nat (nsteps - 1)) by lia.
        exact Hbl. }
    congruence. }
  subst y.
  exists Bj, oBj, (b + (b - a) / Q2Qc (multiple # 1) * Q2Qc (l # 1))%Qc,
         b, bl.
  repeat (split; [assumption|]).
  split; [apply index_nat; [lia | exact HBj]|].
  repeat (split; [assumption|]).
  apply index_nat; [nia | exact Hyn].
Qed.

(** ** Grids that are too short *)

(** X29. On a profile of fewer than two points [quickDeriv] ends with
    [IndexError] at its first statement, which reads the point 1. *)
Theorem quickDeriv_row_needs_two_points :
  forall (f r : list Qc) (steps : Z),
    (length f <= 1)%nat -> (0 <= steps)%Z ->
    quickDeriv_row f r steps = Raise IndexError.
Proof.
  intros f r steps Hf Hs. unfold quickDeriv_row.
  destruct (steps <? 0)%Z eqn:E; [apply Z.ltb_lt in E; lia|].
  unfold slope_between.
  destruct f as [| a [| b f]]; [reflexivity | reflexivity | simpl in Hf; lia].
Qed.

(** X30. With fewer than four grid points the search range of the locator
    is empty: every model of the batch gets the index -1. *)
Theorem locate_short_grid_all_sentinel :
  forall (r : list Qc) (nmods nsteps : Z) (rhs : list (list Qc))
         (ic : list Z) (log : list msg),
    locate r nmods nsteps rhs = (Ret ic, log) -> (nsteps <= 3)%Z ->
    forall j : Z, (0 <= j < nmods)%Z -> index ic j = Ret (-1)%Z.
Proof.
  intros r nmods nsteps rhs ic log H Hn j Hj.
  destruct (locate_spec _ _ _ _ _ _ H) as (_ & _ & D & _).
  destruct (D j Hj) as (k & Hk & C).
  destruct C as [(-> & _) | (_ & _ & j' & rhsj & _ & _ & Rk & _)];
    [exact Hk | lia].
Qed.

(** ** The theorems at work on concrete inputs *)

Lemma ret_by_value (c : res Qc) (v : Qc) :
  match c with Ret x => (x =? v)%Qc | _ => false end = true -> c = Ret v.
Proof.
  destruct c as [x | e |]; try discriminate.
  intro H. apply eqb_true in H. subst. reflexivity.
Qed.

(** The constant slope 1 integrated from the value 1 over the distance 1:
    four sub-steps, ending at the radius 1. *)
Lemma rk4_ends_at_target_witness :
  rk4_run 1%Qc 0%Qc 1%Qc (map num [0; 1]%Z) (Plain (map num [1; 1]%Z))
    = Ret rk4_example
  /\ rstep rk4_example = (0 + 1)%Qc
  /\ stepstotal rk4_example = Qcabs 1%Qc
  /\ (1%Qc <> 0%Qc ->
      rk4 1%Qc 0%Qc 1%Qc (map num [0; 1]%Z) (Plain (map num [1; 1]%Z))
      = Ret (fstep rk4_example))
  /\ (1%Qc = 0%Qc -> rk4_example = rk4_init 1%Qc 0%Qc).
Proof.
  assert (E : rk4_run 1%Qc 0%Qc 1%Qc (map num [0; 1]%Z)
                (Plain (map num [1; 1]%Z)) = Ret rk4_example)
    by (vm_compute; reflexivity).
  split; [exact E|].
  exact (proj2 (proj2 rk4_ends_at_target) _ _ _ _ _ _ E).
Defined.

(** The slope 0.01 at the value 1: the adaptive step, 10, is longer than
    the distance 1. *)
Lemma rk4_one_step_is_classical_witness :
  1%Qc <> 0%Qc
  /\ dfdrval 1%Qc 0%Qc (map num [0; 1]%Z) (Plain (map hundredths [1; 1]%Z))
     = Ret (hundredths 1)
  /\ hundredths 1 <> 0%Qc
  /\ (Qcabs 1 <= Qcabs (adaptiveconstant / (hundredths 1 / 1)))%Qc
  /\ rk4 1%Qc 0%Qc 1%Qc (map num [0; 1]%Z) (Plain (map hundredths [1; 1]%Z))
     = rk4_advance 1%Qc (map num [0; 1]%Z)
         (Plain (map hundredths [1; 1]%Z)) (rk4_init 1%Qc 0%Qc) 1%Qc
  /\ classical_rk4 1%Qc 0%Qc 1%Qc (map num [0; 1]%Z)
       (Plain (map hundredths [1; 1]%Z))
     = rk4 1%Qc 0%Qc 1%Qc (map num [0; 1]%Z)
         (Plain (map hundredths [1; 1]%Z)).
Proof.
  assert (H1 : 1%Qc <> 0%Qc) by (apply eqb_false; vm_compute; reflexivity).
  assert (Hk : dfdrval 1%Qc 0%Qc (map num [0; 1]%Z)
                 (Plain (map hundredths [1; 1]%Z)) = Ret (hundredths 1))
    by (apply ret_by_value; vm_compute; reflexivity).
  assert (Hk0 : hundredths 1 <> 0%Qc)
    by (apply eqb_false; vm_compute; reflexivity).
  assert (Hle : (Qcabs 1 <= Qcabs (adaptiveconstant / (hundredths 1 / 1)))%Qc)
    by (apply leb_true; vm_compute; reflexivity).
  repeat (split; [assumption|]).
  exact (rk4_one_step_is_classical _ _ _ _ _ _ H1 Hk H1 Hk0 Hle).
Defined.

(** The start value 0. *)
Lemma rk4_zero_value_or_slope_raises_witness :
  1%Qc <> 0%Qc
  /\ dfdrval 0%Qc 0%Qc (map num [0; 1]%Z) (Plain (map num [1; 1]%Z))
     = Ret 1%Qc
  /\ (0%Qc = 0%Qc \/ 1%Qc = 0%Qc)
  /\ rk4 0%Qc 0%Qc 1%Qc (map num [0; 1]%Z) (Plain (map num [1; 1]%Z))
     = Raise FloatingPointError.
Proof.
  assert (H1 : 1%Qc <> 0%Qc) by (apply eqb_false; vm_compute; reflexivity).
  assert (Hk : dfdrval 0%Qc 0%Qc (map num [0; 1]%Z)
                 (Plain (map num [1; 1]%Z)) = Ret 1%Qc)
    by (apply ret_by_value; vm_compute; reflexivity).
  split; [exact H1|]. split; [exact Hk|].
  split; [left; reflexivity|].
  apply (rk4_zero_value_or_slope_raises _ _ _ _ _ _ H1 Hk).
  left. reflexivity.
Defined.


(** The slope stored for the radius 3 of [grid5]. *)
Lemma dfdrval_at_grid_radius_witness :
  increasing grid5 = true /\ length grid5 = length rhsA /\ (0 <= 2)%Z
  /\ index grid5 2 = Ret (num 3) /\ index rhsA 2 = Ret (hundredths 1)
  /\ dfdrval 1%Qc (num 3) grid5 (Plain rhsA) = Ret (hundredths 1).
Proof.
  assert (Hr : increasing grid5 = true) by (vm_compute; reflexivity).
  split; [exact Hr|]. split; [reflexivity|]. split; [lia|].
  split; [reflexivity|]. split; [reflexivity|].
  apply (dfdrval_at_grid_radius 1%Qc (num 3) (hundredths 1) grid5 rhsA 2);
    [exact Hr | reflexivity | lia | reflexivity | reflexivity].
Defined.

Lemma quickDeriv_row_on_increasing_grid_witness :
  increasing grid5 = true /\ length rhsA = length grid5
  /\ Z.of_nat (length grid5) = 5%Z /\ (2 <= 5)%Z
  /\ exists d : list Qc,
       quickDeriv_row rhsA grid5 5 = Ret d /\ Z.of_nat (length d) = 5%Z /\
       index d 0 = slope_between rhsA grid5 1 0 /\
       index d (5 - 1) = slope_between rhsA grid5 (5 - 1) (5 - 2).
Proof.
  assert (Hr : increasing grid5 = true) by (vm_compute; reflexivity).
  split; [exact Hr|]. split; [reflexivity|]. split; [reflexivity|].
  split; [lia|].
  apply (quickDeriv_row_on_increasing_grid rhsA grid5 5);
    [exact Hr | reflexivity | reflexivity | lia].
Defined.

(** The profile [2*r + 1] on [grid5]. *)
Lemma quickDeriv_row_exact_on_linear_witness :
  quickDeriv_row linear5 grid5 5 = Ret linear_slopes
  /\ length linear5 = length grid5
  /\ (forall (k : nat) (fk rk : Qc),
        nth_error linear5 k = Some fk -> nth_error grid5 k = Some rk ->
        fk = (num 2 * rk + num 1)%Qc)
  /\ forall v : Qc, In v linear_slopes -> v = num 2.
Proof.
  assert (E : quickDeriv_row linear5 grid5 5 = Ret linear_slopes)
    by (vm_compute; reflexivity).
  assert (Hlin : forall (k : nat) (fk rk : Qc),
             nth_error linear5 k = Some fk -> nth_error grid5 k = Some rk ->
             fk = (num 2 * rk + num 1)%Qc).
  { intros k fk rk.
    do 5 (destruct k as [| k];
          [simpl; intros H1 H2; inversion H1; inversion H2;
           apply eqb_true; vm_compute; reflexivity|]).
    destruct k; discriminate. }
  split; [exact E|]. split; [reflexivity|]. split; [exact Hlin|].
  exact (quickDeriv_row_exact_on_linear _ _ _ _ _ _ E eq_refl Hlin).
Defined.

(** The call [shoot_example], from a flat bracket at the speed 24/25. *)
Lemma slope2curve_keeps_seeds_witness :
  slope2curve grid6 2 (Num.dec 7 2) (Num.dec 24 25) (0%Qc, 0%Qc)
    (map (fun _ => 1%Qc) grid6) (map (fun _ => Num.dec 49 7400) grid6)
    = (Ret shoot_out, [NegativeDown 1])
  /\ (1 <= 2)%Z
  /\ exists rm r0 r1 rp : Qc,
      index grid6 (2 - 1) = Ret rm /\ index grid6 2 = Ret r0 /\
      index grid6 (2 + 1) = Ret r1 /\ index grid6 (2 + 2) = Ret rp /\
      index shoot_out 2
      = Ret (Num.dec 24 25 + (r0 - Num.dec 7 2) * fst (0%Qc, 0%Qc))%Qc /\
      index shoot_out (2 + 1)
      = Ret (Num.dec 24 25 + (r1 - Num.dec 7 2) * snd (0%Qc, 0%Qc))%Qc /\
      index shoot_out (2 - 1)
      = Ret (Num.dec 24 25 + (r0 - Num.dec 7 2) * fst (0%Qc, 0%Qc)
             + (rm - r0) * fst (0%Qc, 0%Qc))%Qc /\
      index shoot_out (2 + 2)
      = Ret (Num.dec 24 25 + (r1 - Num.dec 7 2) * snd (0%Qc, 0%Qc)
             + (rp - r1) * snd (0%Qc, 0%Qc))%Qc.
Proof.
  assert (E : slope2curve grid6 2 (Num.dec 7 2) (Num.dec 24 25) (0%Qc, 0%Qc)
                (map (fun _ => 1%Qc) grid6)
                (map (fun _ => Num.dec 49 7400) grid6)
              = (Ret shoot_out, [NegativeDown 1]))
    by (vm_compute; reflexivity).
  split; [exact E|]. split; [lia|].
  apply (slope2curve_keeps_seeds _ _ _ _ _ _ _ _ _ E). lia.
Defined.

Lemma slope2curve_profile_not_negative_witness :
  slope2curve grid6 2 (Num.dec 7 2) (Num.dec 24 25) (0%Qc, 0%Qc)
    (map (fun _ => 1%Qc) grid6) (map (fun _ => Num.dec 49 7400) grid6)
    = (Ret shoot_out, [NegativeDown 1])
  /\ (1 <= 2)%Z
  /\ index shoot_out (2 - 1) = Ret (Num.dec 24 25)
  /\ index shoot_out (2 + 2) = Ret (Num.dec 24 25)
  /\ (0 <= Num.dec 24 25)%Qc
  /\ forall (k : Z) (v : Qc),
       (0 <= k <= 2 - 1)%Z \/ (2 + 2 <= k)%Z ->
       index shoot_out k = Ret v -> (0 <= v)%Qc.
Proof.
  assert (E : slope2curve grid6 2 (Num.dec 7 2) (Num.dec 24 25) (0%Qc, 0%Qc)
                (map (fun _ => 1%Qc) grid6)
                (map (fun _ => Num.dec 49 7400) grid6)
              = (Ret shoot_out, [NegativeDown 1]))
    by (vm_compute; reflexivity).
  assert (Ha : index shoot_out (2 - 1) = Ret (Num.dec 24 25))
    by (apply ret_by_value; vm_compute; reflexivity).
  assert (Hb : index shoot_out (2 + 2) = Ret (Num.dec 24 25))
    by (apply ret_by_value; vm_compute; reflexivity).
  assert (H0 : (0 <= Num.dec 24 25)%Qc)
    by (apply leb_true; vm_compute; reflexivity).
  split; [exact E|]. split; [lia|]. repeat (split; [assumption|]).
  apply (slope2curve_profile_not_negative _ _ _ _ _ _ _ _ _ _ _ E
           ltac:(lia) Ha Hb H0 H0).
Defined.

(** The critical index 3 on the five radii of [grid5]. *)
Lemma slope2curve_index_error_at_outer_edge_witness :
  (0 <= 3)%Z /\ (Z.of_nat (length grid5) <= 3 + 2)%Z
  /\ slope2curve grid5 3 (Num.dec 7 2) 1%Qc (0%Qc, 0%Qc) ones5 rhsB
     = (Raise IndexError, []).
Proof.
  split; [lia|]. split; [simpl; lia|].
  apply slope2curve_index_error_at_outer_edge; [lia | simpl; lia].
Defined.

Lemma seed_succeeds_at_located_index_witness :
  locate grid5 2 5 [rhsB; rhsA]
    = (Ret [(-1)%Z; 1%Z], [NoCriticalPoint 0; IndexCritSentinel])
  /\ (0 <= 1 < 2)%Z /\ index [(-1)%Z; 1%Z] 1 = Ret 1%Z
  /\ 1%Z <> (-1)%Z
  /\ exists u : list Qc, seed grid5 1 (Num.dec 5 2) 1%Qc (0%Qc, 0%Qc) = Ret u.
Proof.
  assert (E : locate grid5 2 5 [rhsB; rhsA]
              = (Ret [(-1)%Z; 1%Z], [NoCriticalPoint 0; IndexCritSentinel]))
    by (vm_compute; reflexivity).
  split; [exact E|]. split; [lia|]. split; [reflexivity|]. split; [lia|].
  apply (seed_succeeds_at_located_index _ _ _ _ _ _ 1%Z 1%Z _ _ _ E);
    [lia | reflexivity | lia].
Defined.

(** A temperature row of 20000 K throughout. *)
Lemma density_needs_a_chromospheric_sample_witness :
  index T3hot 0 = Ret (map num [20000; 20000; 20000]%Z)
  /\ (forall t : Qc, In t (map num [20000; 20000; 20000]%Z) ->
        (Num.dec 11 10 * TTR <= t)%Qc)
  /\ density_model log10_coarse pow10_coarse radii3 3 B3 T3hot zTR3 u3 0
     = Raise IndexError.
Proof.
  assert (Hall : forall t : Qc, In t (map num [20000; 20000; 20000]%Z) ->
                   (Num.dec 11 10 * TTR <= t)%Qc).
  { intros t [<- | [<- | [<- | []]]]; apply leb_true; vm_compute;
      reflexivity. }
  split; [reflexivity|]. split; [exact Hall|].
  exact (density_needs_a_chromospheric_sample log10_coarse pow10_coarse
           radii3 3 B3 T3hot zTR3 u3 0 _ eq_refl Hall).
Defined.

(** A velocity row with the entry 0 at the second radius. *)
Lemma density_zero_velocity_raises_witness :
  anchor log10_coarse pow10_coarse radii3 3 T3 zTR3 0
    = Ret (fst anchor3, snd anchor3)
  /\ index B3 0 = Ret (map num [10; 8; 5]%Z)
  /\ index u3zero 0 = Ret (map num [100; 0; 400]%Z)
  /\ length (map num [10; 8; 5]%Z) = length radii3
  /\ length (map num [100; 0; 400]%Z) = length radii3
  /\ In 0%Qc (map num [100; 0; 400]%Z)
  /\ density_model log10_coarse pow10_coarse radii3 3 B3 T3 zTR3 u3zero 0
     = Raise FloatingPointError.
Proof.
  assert (E : anchor log10_coarse pow10_coarse radii3 3 T3 zTR3 0
              = Ret (fst anchor3, snd anchor3)) by (vm_compute; reflexivity).
  assert (H0 : In 0%Qc (map num [100; 0; 400]%Z))
    by (right; left; reflexivity).
  split; [exact E|]. do 4 (split; [reflexivity|]). split; [exact H0|].
  exact (density_zero_velocity_raises log10_coarse pow10_coarse radii3 3
           B3 T3 zTR3 u3zero 0 _ _ _ _ E eq_refl eq_refl eq_refl eq_refl H0).
Defined.


(** The call [slopes_example], one model at the index 1. *)
Lemma critSlope_returns_point_at_index_witness :
  critSlope sqrt_floor grid5 1 5 [rhsA] [ucrA] [1%Z]
    = (Ret slopes_out, snd slopes_example)
  /\ (0 <= 0 < 1)%Z /\ index [1%Z] 0 = Ret 1%Z
  /\ (1%Z = (-1)%Z -> index slopes_out 0 = Ret (0%Qc, 0%Qc, 0%Qc))
  /\ (1%Z <> (-1)%Z ->
      exists (ucrj : list Qc) (rC uC s : Qc),
        index [ucrA] 0 = Ret ucrj /\ index grid5 1 = Ret rC /\
        index ucrj 1 = Ret uC /\ index slopes_out 0 = Ret (rC, uC, s)).
Proof.
  assert (E : critSlope sqrt_floor grid5 1 5 [rhsA] [ucrA] [1%Z]
              = (Ret slopes_out, snd slopes_example))
    by (vm_compute; reflexivity).
  split; [exact E|]. split; [lia|]. split; [reflexivity|].
  apply (critSlope_returns_point_at_index _ _ _ _ _ _ _ _ _ 0%Z 1%Z E);
    [lia | reflexivity].
Defined.

(** The call [slopes2_example], two models at the indices 1 and 2: the
    slopes are 0.094425 and 0.1, and the line printed gives these two
    numbers. *)
Lemma critSlope_range_of_slopes_witness :
  critSlope sqrt_floor grid5 2 5 [rhsA; rhsA] [ucrA; ucrA] [1%Z; 2%Z]
    = (Ret slopes2_out, snd slopes2_example)
  /\ map (fun t => this (snd t)) slopes2_out = [3777 # 40000; 1 # 10]%Q
  /\ snd slopes2_example
     = [RangeOfSlopes (fst slopes2_range) (snd slopes2_range)]
  /\ this (fst slopes2_range) = (3777 # 40000)%Q
  /\ this (snd slopes2_range) = (1 # 10)%Q
  /\ Z.of_nat (length slopes2_out) = 2%Z
  /\ (exists lo hi : Qc,
        In (RangeOfSlopes lo hi) (snd slopes2_example) /\
        forall t : Qc * Qc * Qc, In t slopes2_out ->
          (lo <= snd t)%Qc /\ (snd t <= hi)%Qc).
Proof.
  assert (E : critSlope sqrt_floor grid5 2 5 [rhsA; rhsA] [ucrA; ucrA]
                [1%Z; 2%Z]
              = (Ret slopes2_out, snd slopes2_example))
    by (vm_compute; reflexivity).
  split; [exact E|].
  do 4 (split; [vm_compute; reflexivity|]).
  destruct (critSlope_range_of_slopes _ _ _ _ _ _ _ _ _ E) as (L & R & _).
  split; [exact L | apply R; reflexivity].
Defined.

(** The call [outflows_example]: one model, with the critical index 1. *)
Lemma outflows_rows_and_locations_witness :
  outflows sqrt_floor grid5 1 5 [rhsA] [ones5]
    = (Ret outflows_out, snd outflows_example)
  /\ exists (ic : list Z) (log0 : list msg),
      locate grid5 1 5 [rhsA] = (Ret ic, log0) /\
      Z.of_nat (length outflows_out) = 1%Z /\
      forall j k : Z, (0 <= j < 1)%Z -> index ic j = Ret k ->
        (k = (-1)%Z -> index outflows_out j = Ret (zeros 5, 0%Qc)) /\
        (k <> (-1)%Z ->
         exists (uj : list Qc) (ra rb : Qc),
           index grid5 k = Ret ra /\ index grid5 (k + 1) = Ret rb /\
           index outflows_out j
           = Ret (uj, ((ra + rb) / Num.dec 2 1 - 1)%Qc) /\
           Z.of_nat (length uj) = 5%Z).
Proof.
  assert (E : outflows sqrt_floor grid5 1 5 [rhsA] [ones5]
              = (Ret outflows_out, snd outflows_example))
    by (vm_compute; reflexivity).
  split; [exact E|].
  exact (outflows_rows_and_locations _ _ _ _ _ _ _ _ E).
Defined.

(** The heights 0, 0.01 and 0.05 refined by the factor 2. *)
Lemma refine_heights_blocks_witness :
  refine_heights heights3 3 2 = Ret refined3 /\ (1 <= 2)%Z
  /\ (1 <= 3)%Z /\ Z.of_nat (length refined3) = (3 * 2)%Z
  /\ (forall i l : Z, (0 <= i < 3 - 1)%Z -> (0 <= l < 2)%Z ->
        exists a b : Qc,
          index heights3 i = Ret a /\ index heights3 (i + 1) = Ret b /\
          index refined3 (i * 2 + l)
          = Ret (a + (b - a) / Q2Qc (2 # 1) * Q2Qc (l # 1))%Qc)
  /\ (forall l : Z, (0 <= l < 2)%Z ->
        exists a b : Qc,
          index heights3 (3 - 2) = Ret a /\ index heights3 (3 - 1) = Ret b /\
          index refined3 ((3 - 1) * 2 + l)
          = Ret (b + (b - a) / Q2Qc (2 # 1) * Q2Qc (l # 1))%Qc).
Proof.
  assert (E : refine_heights heights3 3 2 = Ret refined3)
    by (vm_compute; reflexivity).
  split; [exact E|]. split; [lia|].
  apply (refine_heights_blocks _ _ _ _ E). lia.
Defined.

Lemma read_bzin_round_trip_witness :
  increasing heights3 = true /\ Z.of_nat (length heights3) = 3%Z
  /\ (1 <= 3)%Z /\ Z.of_nat (length B3) = 1%Z
  /\ (forall row : list Qc, In row B3 -> length row = length heights3)
  /\ read_bzin heights3 B3 1 3 1 = Ret (1%Z, 3%Z, B3, heights3).
Proof.
  assert (Hinc : increasing heights3 = true) by (vm_compute; reflexivity).
  assert (Hrows : forall row : list Qc, In row B3 ->
                    length row = length heights3).
  { intros row [<- | []]. reflexivity. }
  split; [exact Hinc|]. split; [reflexivity|]. split; [lia|].
  split; [reflexivity|]. split; [exact Hrows|].
  apply (read_bzin_round_trip heights3 B3 1 3 Hinc eq_refl ltac:(lia)
           eq_refl Hrows).
Defined.


Lemma heights_of_main_grid_witness :
  main_grid heights3 = Ret (fst main_grid3, snd main_grid3)
  /\ heights (snd main_grid3) = fst main_grid3.
Proof.
  assert (E : main_grid heights3 = Ret (fst main_grid3, snd main_grid3))
    by (vm_compute; reflexivity).
  split; [exact E|].
  exact (proj2 (proj2 (proj2 (proj2 heights_of_main_grid))) _ _ _ E).
Defined.

(** The first point of a model on [radii3], below the transition region,
    with the sound speed 10 km/s. *)
Lemma miranda_rhs_closed_form_witness :
  miranda_point sqrt_floor radii3 B3 dB3 T3sound dT3 zTR3 0
    (None, zeros 3, zeros 3) 0
    = Ret (fst (fst miranda_example), snd (fst miranda_example),
           snd miranda_example)
  /\ exists (Bj dBj Tj dTj : list Qc) (rk zTRj Tjk Bjk dBjk dTjk x : Qc),
      index B3 0 = Ret Bj /\ index dB3 0 = Ret dBj /\
      index T3sound 0 = Ret Tj /\ index dT3 0 = Ret dTj /\
      index radii3 0 = Ret rk /\ index zTR3 0 = Ret zTRj /\
      index Tj 0 = Ret Tjk /\ index Bj 0 = Ret Bjk /\
      index dBj 0 = Ret dBjk /\ index dTj 0 = Ret dTjk /\
      x = (if (rk / Rsun <? zTRj + 1)%Qc then 0%Qc else 1%Qc) /\
      fst (fst miranda_example) = Some x /\
      rk <> 0%Qc /\ Bjk <> 0%Qc /\ Tjk <> 0%Qc /\
      (0 <= (1 + x) * boltzk * Tjk / mH)%Qc /\
      index (snd (fst miranda_example)) 0
      = Ret (sqrt_floor ((1 + x) * boltzk * Tjk / mH)%Qc) /\
      ((sqrt_floor ((1 + x) * boltzk * Tjk / mH)
        * sqrt_floor ((1 + x) * boltzk * Tjk / mH)
        = (1 + x) * boltzk * Tjk / mH)%Qc ->
       index (snd miranda_example) 0
       = Ret (- G * Msun / (rk * rk)
              - (1 + x) * boltzk / mH * (Tjk * (dBjk / Bjk) + dTjk))%Qc).
Proof.
  assert (E : miranda_point sqrt_floor radii3 B3 dB3 T3sound dT3 zTR3 0
                (None, zeros 3, zeros 3) 0
              = Ret (fst (fst miranda_example), snd (fst miranda_example),
                     snd miranda_example)) by (vm_compute; reflexivity).
  split; [exact E|].
  exact (miranda_rhs_closed_form _ _ _ _ _ _ _ _ _ _ _ _ _ _ _ E).
Defined.

(** The rate 0.01 on [grid5]. *)
Lemma intRS_row_integrated_witness :
  intRS_row grid5 5 rhsB = Ret intRS_example
  /\ Z.of_nat (length intRS_example) = 5%Z
  /\ (exists a b r1 r0 : Qc,
        index rhsB 1 = Ret a /\ index rhsB 0 = Ret b /\
        index grid5 1 = Ret r1 /\ index grid5 0 = Ret r0 /\
        index intRS_example 0
        = Ret ((a + b) / Num.dec 2 1 * (r1 - r0))%Qc)
  /\ (forall i : Z, (0 <= i < 5 - 1)%Z -> damped grid5 rhsB intRS_example i).
Proof.
  assert (E : intRS_row grid5 5 rhsB = Ret intRS_example)
    by (vm_compute; reflexivity).
  split; [exact E|].
  exact (intRS_row_integrated _ _ _ _ E).
Defined.

(** The heights 0, 0.01 and 0.05 refined by the factor 2, with one field
    row. *)
Lemma read_bzin_flat_beyond_last_height_witness :
  read_bzin heights3 B3 1 3 2
    = Ret (1%Z, 6%Z, fst refined_field3, snd refined_field3)
  /\ increasing heights3 = true /\ Z.of_nat (length heights3) = 3%Z
  /\ (2 <= 3)%Z /\ (1 <= 2)%Z
  /\ (forall row : list Qc, In row B3 -> length row = length heights3)
  /\ forall j l : Z, (0 <= j < 1)%Z -> (0 <= l < 2)%Z ->
       exists (Bj oBj : list Qc) (zl hl bl : Qc),
         index (fst refined_field3) j = Ret Bj /\ index B3 j = Ret oBj /\
         index heights3 (3 - 1) = Ret hl /\
         index oBj (3 - 1) = Ret bl /\
         index (snd refined_field3) ((3 - 1) * 2 + l) = Ret zl /\
         (hl <= zl)%Qc /\
         index Bj ((3 - 1) * 2 + l) = Ret bl.
Proof.
  assert (E : read_bzin heights3 B3 1 3 2
              = Ret (1%Z, 6%Z, fst refined_field3, snd refined_field3))
    by (vm_compute; reflexivity).
  assert (Hinc : increasing heights3 = true) by (vm_compute; reflexivity).
  assert (Hrows : forall row : list Qc, In row B3 ->
                    length row = length heights3).
  { intros row [<- | []]. reflexivity. }
  split; [exact E|]. split; [exact Hinc|]. split; [reflexivity|].
  split; [lia|]. split; [lia|]. split; [exact Hrows|].
  exact (read_bzin_flat_beyond_last_height _ _ _ _ _ _ _ _ _ E Hinc eq_refl
           ltac:(lia) ltac:(lia) Hrows).
Defined.

(** A profile of one point. *)
Lemma quickDeriv_row_needs_two_points_witness :
  (length [1%Qc] <= 1)%nat /\ (0 <= 1)%Z
  /\ quickDeriv_row [1%Qc] [1%Qc] 1 = Raise IndexError.
Proof.
  split; [simpl; lia|]. split; [lia|].
  apply quickDeriv_row_needs_two_points; [simpl; lia | lia].
Defined.

(** Three radii. *)
Lemma locate_short_grid_all_sentinel_witness :
  locate (map num [1; 2; 3]%Z) 1 3 [map hundredths [-1; 1; 1]%Z]
    = (Ret [(-1)%Z], [NoCriticalPoint 0; IndexCritSentinel])
  /\ (3 <= 3)%Z
  /\ forall j : Z, (0 <= j < 1)%Z -> index [(-1)%Z] j = Ret (-1)%Z.
Proof.
  assert (E : locate (map num [1; 2; 3]%Z) 1 3 [map hundredths [-1; 1; 1]%Z]
              = (Ret [(-1)%Z], [NoCriticalPoint 0; IndexCritSentinel]))
    by (vm_compute; reflexivity).
  split; [exact E|]. split; [lia|].
  exact (locate_short_grid_all_sentinel _ _ _ _ _ _ E ltac:(lia)).
Defined.
